(** * Nifty options-chain extractor and Greeks validation report

    A shallow embedding of [chains.py] (class [NiftyOptionsChain]) and of
    [validation.py], followed by the properties of the chain assembly layer.

    Conventions of the embedding
    - Python numbers (prices, strikes, volatilities) are rationals [Q], the
      value of an [int] or of a finite [float].  Where the source rounds,
      the rounding of floats is modelled ([Binary64]): [get_atm_strike] is
      given on Python's numbers as well as in exact arithmetic, the two
      agreeing for the gap of the program, and the [IV] column is the
      float [round(iv * 100, 2)].  The other operations (differences of
      open interest, the percentages of the validation report) are read
      exactly.
    - Python exceptions are values of [exn]; code that may raise lives in the
      error monad [outcome].
    - The module [greeks_calculator] is imported by both files but is not
      part of the sources at hand: it is an interface ([GreeksCalculator])
      the definitions are parameterised over. *)

From Stdlib Require Import QArith Qpower Qround Qabs Lqa Lia.
From stdpp Require Import base option list sorting strings gmap pretty.

Local Open Scope Z_scope.

(** ** Exceptions and the error monad *)

Module Py.

(** The exception classes that matter: everything below [Exception] is
    caught by [except Exception]; [KeyboardInterrupt] and [SystemExit]
    derive from [BaseException] only and are not. *)
Inductive exn : Type :=
  | TypeError
  | ZeroDivisionError
  | OtherException (name : string)
  | KeyboardInterrupt
  | SystemExit.

Definition isinstance_Exception (e : exn) : bool :=
  match e with
  | TypeError | ZeroDivisionError | OtherException _ => true
  | KeyboardInterrupt | SystemExit => false
  end.

Inductive outcome (A : Type) : Type :=
  | Ok (a : A)
  | Raise (e : exn).
Global Arguments Ok {A} a.
Global Arguments Raise {A} e.

Definition bind {A B} (m : outcome A) (k : A → outcome B) : outcome B :=
  match m with
  | Ok a => k a
  | Raise e => Raise e
  end.

Definition returns {A} (m : outcome A) : Prop := ∃ a, m = Ok a.

Definition raises {A} (m : outcome A) : bool :=
  match m with
  | Ok _ => false
  | Raise _ => true
  end.

End Py.
Export Py.

Global Instance outcome_ret : MRet outcome := @Ok.
Global Instance outcome_bind : MBind outcome := λ A B k m, Py.bind m k.

(** [for x in xs: acc = body(x, acc)] where the body may raise. *)
Fixpoint for_each {A S} (body : A → S → outcome S) (xs : list A) (s : S)
  : outcome S :=
  match xs with
  | [] => Ok s
  | x :: xs' => s' ← body x s; for_each body xs' s'
  end.

(** A list comprehension [[f(x) for x in xs]] whose element expression may
    raise. *)
Fixpoint comprehension {A B} (f : A → outcome B) (xs : list A)
  : outcome (list B) :=
  match xs with
  | [] => Ok []
  | x :: xs' => y ← f x; ys ← comprehension f xs'; Ok (y :: ys)
  end.

(** A list comprehension with a condition that may raise:
    [[x for x in xs if p(x)]]. *)
Fixpoint comprehension_if {A} (p : A → outcome bool) (xs : list A)
  : outcome (list A) :=
  match xs with
  | [] => Ok []
  | x :: xs' =>
      b ← p x; ys ← comprehension_if p xs';
      Ok (if b : bool then x :: ys else ys)
  end.

(** [try: body except Exception as e: handler] *)
Definition try_except_Exception {A} (body : outcome A) (handler : exn → outcome A)
  : outcome A :=
  match body with
  | Ok a => Ok a
  | Raise e => if isinstance_Exception e then handler e else Raise e
  end.

(** A bare [try: body except: handler], which catches every exception. *)
Definition try_except {A} (body : outcome A) (handler : outcome A) : outcome A :=
  match body with
  | Ok a => Ok a
  | Raise _ => handler
  end.

(** ** Numbers *)

Module Num.
Local Open Scope Q_scope.

(** Python's [round(x)]: nearest integer, ties to the even one. *)
Definition py_round (x : Q) : Z :=
  let f := Qfloor x in
  match Qcompare (x - inject_Z f) (1 # 2) with
  | Lt => f
  | Gt => (f + 1)%Z
  | Eq => if Z.even f then f else (f + 1)%Z
  end.

(** The decimal with two digits nearest to [x], ties to the even one. *)
Definition py_round2 (x : Q) : Q := inject_Z (py_round (x * 100)) / 100.

(** Truthiness of a number: [0] is false. *)
Definition truthy (x : Q) : bool := negb (Qeq_bool x 0).

(** [x > 0] *)
Definition Qpos_b (x : Q) : bool :=
  match Qcompare 0 x with Lt => true | _ => false end.

(** [x / y] with a divisor that is not a literal. *)
Definition py_div (x y : Q) : outcome Q :=
  if Qeq_bool y 0 then Raise ZeroDivisionError else Ok (x / y).

(** [range(a, b)] *)
Definition py_range (a b : Z) : list Z := seqZ a (b - a).

End Num.
Export Num.

(** ** Python's numbers: [int] and [float]

    A [float] is a binary64 number of IEEE 754: 53 significant bits, the
    last bit of a finite number no smaller than [2 ^ -1074], every finite
    number below [2 ^ 1024] in absolute value.  The arithmetic of floats
    rounds each result to the nearest such number, ties to the one whose
    last bit is even.  The sign of a zero is not kept. *)

Module Binary64.
Local Open Scope Q_scope.

Definition pow2 (e : Z) : Q := 2 ^ e.

(** The integer [l] with [2 ^ l <= x < 2 ^ (l + 1)], for a positive [x]. *)
Definition ilog2 (x : Q) : Z :=
  let l := (Z.log2 (Qnum x) - Z.log2 (Zpos (Qden x)))%Z in
  if Qle_bool (pow2 l) x then l else (l - 1)%Z.

(** The exponent of the last bit of the floats next to [x]. *)
Definition ulp_exponent (x : Q) : Z :=
  Z.max (ilog2 (Qabs x) - 52) (-1074).

(** The nearest multiple of the last bit, ties to even; this is the float
    nearest to [x] when that one is finite. *)
Definition round_nearest_even (x : Q) : Q :=
  let ulp := pow2 (ulp_exponent x) in
  inject_Z (py_round (x / ulp)) * ulp.

Definition overflows (x : Q) : bool := Qle_bool (pow2 1024) (Qabs x).

(** The rationals that are floats. *)
Definition is_binary64 (x : Q) : bool :=
  Qeq_bool (round_nearest_even x) x && negb (overflows x).

Inductive float : Type :=
  | Finite (x : Q)
  | Infinity (negative : bool)
  | NaN.

Definition negative (x : Q) : bool :=
  match Qcompare x 0 with Lt => true | _ => false end.

(** The float of an exact result [x]: an operation whose rounded result is
    too large gives an infinity. *)
Definition fl (x : Q) : float :=
  let y := round_nearest_even x in
  if overflows y then Infinity (negative x) else Finite y.

(** A float written in decimal, as [0.1] in a program or in JSON. *)
Definition literal (x : Q) : float := fl x.

Inductive number : Type :=
  | Int (n : Z)
  | Float (x : float).

Definition OverflowError : exn := OtherException "OverflowError".
Definition ValueError : exn := OtherException "ValueError".

(** The conversion of an operand to [float]; an [int] is rounded, and is
    refused when it is too large. *)
Definition to_float (a : number) : outcome float :=
  match a with
  | Float x => Ok x
  | Int n =>
      let y := round_nearest_even (inject_Z n) in
      if overflows y then Raise OverflowError else Ok (Finite y)
  end.

(** [x / y] on floats. *)
Definition float_div (x y : float) : outcome float :=
  match y with
  | Finite b =>
      if Qeq_bool b 0 then Raise ZeroDivisionError else
      match x with
      | Finite a => Ok (fl (a / b))
      | Infinity s => Ok (Infinity (xorb s (negative b)))
      | NaN => Ok NaN
      end
  | Infinity _ =>
      match x with
      | Finite _ => Ok (Finite 0)
      | Infinity _ | NaN => Ok NaN
      end
  | NaN => Ok NaN
  end.

(** [x * y] on floats. *)
Definition float_mul (x y : float) : float :=
  match x, y with
  | Finite a, Finite b => fl (a * b)
  | Finite a, Infinity s | Infinity s, Finite a =>
      if Qeq_bool a 0 then NaN else Infinity (xorb s (negative a))
  | Infinity s, Infinity s' => Infinity (xorb s s')
  | NaN, _ | _, NaN => NaN
  end.

(** [a / b]: the quotient of two [int]s is the float nearest to the exact
    quotient; otherwise both operands are converted and divided as
    floats. *)
Definition true_div (a b : number) : outcome number :=
  match a, b with
  | Int n, Int m =>
      if (m =? 0)%Z then Raise ZeroDivisionError else
      let y := round_nearest_even (inject_Z n / inject_Z m) in
      if overflows y then Raise OverflowError else Ok (Float (Finite y))
  | _, _ =>
      x ← to_float a; y ← to_float b; q ← float_div x y; Ok (Float q)
  end.

(** [a * b]: exact on two [int]s. *)
Definition mul (a b : number) : outcome number :=
  match a, b with
  | Int n, Int m => Ok (Int (n * m))
  | _, _ => x ← to_float a; y ← to_float b; Ok (Float (float_mul x y))
  end.

(** [round(a)], an [int]. *)
Definition round (a : number) : outcome Z :=
  match a with
  | Int n => Ok n
  | Float (Finite x) => Ok (py_round x)
  | Float (Infinity _) => Raise OverflowError
  | Float NaN => Raise ValueError
  end.

(** [get_atm_strike], lines 190-192, on Python's numbers:
    [round(spot_price / strike_gap) * strike_gap] *)
Definition get_atm_strike (spot_price strike_gap : number) : outcome number :=
  q ← true_div spot_price strike_gap;
  n ← round q;
  mul (Int n) strike_gap.

(** The value of a finite number, and the numbers whose float is a
    float. *)
Definition value (a : number) : option Q :=
  match a with
  | Int n => Some (inject_Z n)
  | Float (Finite x) => Some x
  | Float (Infinity _) | Float NaN => None
  end.

Definition well_formed (a : number) : bool :=
  match a with
  | Float (Finite x) => is_binary64 x
  | _ => true
  end.

(** On finite floats whose result is finite, as rationals: [x * y], and
    [round(x, 2)], the float nearest to the decimal with two digits that
    is nearest to the float [x], ties to even. *)
Definition times (x y : Q) : Q := round_nearest_even (x * y).

Definition round2 (x : Q) : Q := round_nearest_even (py_round2 x).

End Binary64.

(** ** Calendar values

    Instrument expiries are [datetime.date] objects; the source also
    provides for [datetime.datetime] ones ([hasattr(x, 'date')]). *)

Module Calendar.

Record date : Type := Date { year : Z; month : Z; day : Z }.

Global Instance date_eq_dec : EqDecision date.
Proof. solve_decision. Defined.

(** A value found in an ['expiry'] field: a plain date, or a datetime made
    of a date and the time of day in seconds. *)
Inductive pydate : Type :=
  | PlainDate (d : date)
  | DateTime (d : date) (t : Z).

Global Instance pydate_eq_dec : EqDecision pydate.
Proof. solve_decision. Defined.

Definition date_of (x : pydate) : date :=
  match x with PlainDate d | DateTime d _ => d end.

(** [x.year], [x.month], available on both classes. *)
Definition exp_year (x : pydate) : Z := year (date_of x).
Definition exp_month (x : pydate) : Z := month (date_of x).

(** [hasattr(x, 'date')]: only datetimes have a [date()] method. *)
Definition hasattr_date (x : pydate) : bool :=
  match x with PlainDate _ => false | DateTime _ _ => true end.

(** A plain [datetime.date]: an object without [date] attribute. *)
Definition is_plain (x : pydate) : Prop := hasattr_date x = false.

(** [x.date()] *)
Definition date_method (x : pydate) : pydate := PlainDate (date_of x).

(** Truth value of a date or datetime object: always true. *)
Definition object_truthy (x : pydate) : bool := true.

Definition date_ltb (a b : date) : bool :=
  (year a <? year b)
  || ((year a =? year b)
      && ((month a <? month b)
          || ((month a =? month b) && (day a <? day b)))).

Definition date_eqb (a b : date) : bool :=
  (year a =? year b) && (month a =? month b) && (day a =? day b).

Definition date_leb (a b : date) : bool := date_ltb a b || date_eqb a b.

(** [a == b]: a date never equals a datetime. *)
Definition py_eq (a b : pydate) : bool :=
  match a, b with
  | PlainDate d1, PlainDate d2 => date_eqb d1 d2
  | DateTime d1 t1, DateTime d2 t2 => date_eqb d1 d2 && (t1 =? t2)
  | _, _ => false
  end.

(** [a < b] and [a >= b]: ordering a date against a datetime raises
    [TypeError]. *)
Definition py_lt (a b : pydate) : outcome bool :=
  match a, b with
  | PlainDate d1, PlainDate d2 => Ok (date_ltb d1 d2)
  | DateTime d1 t1, DateTime d2 t2 =>
      Ok (date_ltb d1 d2 || (date_eqb d1 d2 && (t1 <? t2)))
  | _, _ => Raise TypeError
  end.

Definition py_ge (a b : pydate) : outcome bool :=
  match a, b with
  | PlainDate d1, PlainDate d2 => Ok (date_leb d2 d1)
  | DateTime d1 t1, DateTime d2 t2 =>
      Ok (date_ltb d2 d1 || (date_eqb d2 d1 && (t2 <=? t1)))
  | _, _ => Raise TypeError
  end.

(** The order a sort of same-class values uses.  Between the two classes it
    is fixed arbitrarily (dates first): [py_sort] never sorts a mixed list. *)
Definition pydate_leb (a b : pydate) : bool :=
  match a, b with
  | PlainDate d1, PlainDate d2 => date_leb d1 d2
  | DateTime d1 t1, DateTime d2 t2 =>
      date_ltb d1 d2 || (date_eqb d1 d2 && (t1 <=? t2))
  | PlainDate _, DateTime _ _ => true
  | DateTime _ _, PlainDate _ => false
  end.

Definition pydate_le (a b : pydate) : Prop := pydate_leb a b = true.

Global Instance pydate_le_dec a b : Decision (pydate_le a b).
Proof. unfold pydate_le. apply _. Defined.

Definition same_class (xs : list pydate) : bool :=
  forallb (λ x, negb (hasattr_date x)) xs || forallb hasattr_date xs.

(** [sorted(xs)] / [xs.sort()]: comparing a date with a datetime raises. *)
Definition py_sort (xs : list pydate) : outcome (list pydate) :=
  if same_class xs then Ok (merge_sort pydate_le xs) else Raise TypeError.

(** [sorted(set(xs))] *)
Definition sorted_set (xs : list pydate) : outcome (list pydate) :=
  py_sort (remove_dups xs).

Definition month_abbr (m : Z) : string :=
  nth (Z.to_nat (m - 1))
    ["Jan"; "Feb"; "Mar"; "Apr"; "May"; "Jun";
     "Jul"; "Aug"; "Sep"; "Oct"; "Nov"; "Dec"]%string ""%string.

Definition two_digits (n : Z) : string :=
  if n <? 10 then ("0" +:+ pretty n)%string else pretty n.

(** [x.strftime('%d-%b-%Y')] *)
Definition strftime_d_b_Y (x : pydate) : string :=
  let d := date_of x in
  (two_digits (day d) +:+ "-" +:+ month_abbr (month d) +:+ "-"
     +:+ pretty (year d))%string.

End Calendar.
Export Calendar.

(** ** Market data and the rows of the chain *)

Module Market.

(** An entry of [kite.instruments("NFO")]. *)
Record instrument : Type := Instrument {
  name : string;
  instrument_type : string;
  expiry : pydate;
  strike : Q;
  tradingsymbol : string
}.

(** One level of the order book; a missing key is [None]. *)
Record depth_level : Type := DepthLevel {
  quantity : option Q;
  price : option Q
}.

Record depth : Type := Depth {
  buy : option (list depth_level);
  sell : option (list depth_level)
}.

(** A quote dictionary of [kite.quote]; every key is read with
    [.get(key, default)], so every key may be missing. *)
Record quote : Type := Quote {
  oi : option Q;
  oi_day_high : option Q;
  oi_day_low : option Q;
  volume : option Q;
  last_price : option Q;
  change : option Q;
  quote_depth : option depth
}.

(** The empty dictionaries [{}] used as defaults. *)
Definition empty_quote : quote := Quote None None None None None None None.
Definition empty_depth : depth := Depth None None.
Definition empty_level : depth_level := DepthLevel None None.

(** [side.get(..., [{}])[0] if side.get(...) else {}] *)
Definition first_level (side : option (list depth_level)) : depth_level :=
  match side with
  | Some (l :: _) => l
  | _ => empty_level
  end.

(** The result dictionary of [calculate_all_greeks]. *)
Record greeks : Type := Greeks { delta : Q; gamma : Q; vega : Q; theta : Q }.

(** The [CE_*] (resp. [PE_*]) keys of a row. *)
Record option_columns : Type := OptionColumns {
  OI : Q; Change_in_OI : Q; Volume : Q; IV : Q; LTP : Q; Change : Q;
  Bid_Qty : Q; Bid_Price : Q; Ask_Price : Q; Ask_Qty : Q;
  Delta : Q; Gamma : Q; Vega : Q; Theta : Q
}.

(** The [row.update({... : 0})] of a strike without instrument. *)
Definition zero_columns : option_columns :=
  OptionColumns 0 0 0 0 0 0 0 0 0 0 0 0 0 0.

(** A row of the chain.  [Expiry_Date] is only set when the strike has a
    call or a put. *)
Record row : Type := Row {
  Timestamp : string;
  Underlying_Spot : Q;
  Futures_Price : Q;
  Strike_Price : Q;
  Expiry_Date : option string;
  CE : option_columns;
  PE : option_columns
}.

End Market.
Export Market.

(** ** The interface of [greeks_calculator]

    The module is imported by [chains.py] and by [validation.py]; its three
    entry points are used with keyword arguments.  [risk_free_rate] is an
    optional keyword: [None] stands for a call that leaves it out, so that
    the callee falls back on its own default.  Every entry point may raise. *)

Class GreeksCalculator : Type := {
  (** [get_time_to_expiry(expiry_date, current_time=...)] *)
  get_time_to_expiry : pydate → option pydate → outcome Q;
  (** [calculate_implied_volatility(market_price, spot, strike,
        time_to_expiry, option_type, risk_free_rate=...)] *)
  calculate_implied_volatility :
    Q → Q → Q → Q → string → option Q → outcome Q;
  (** [calculate_all_greeks(spot, strike, time_to_expiry, volatility,
        option_type, risk_free_rate=...)] *)
  calculate_all_greeks :
    Q → Q → Q → Q → string → option Q → outcome greeks
}.

(** A calculator none of whose entry points raises. *)
Definition never_raises (gc : GreeksCalculator) : Prop :=
  (∀ e c, returns (get_time_to_expiry e c))
  ∧ (∀ p s k t o r, returns (calculate_implied_volatility p s k t o r))
  ∧ (∀ s k t v o r, returns (calculate_all_greeks s k t v o r)).

Module TimeBasis.
Local Open Scope Q_scope.

(** Modelled from the spec: [greeks_calculator.get_time_to_expiry] is not
    among the sources.  Section 4.1 of the specification describes it: the
    difference of the two instants in days, divided by 365; when the
    difference is not positive the result is a small positive floor, one
    minute of a year. *)
Definition time_floor : Q := 1 / (365 * 24 * 60).

Definition yearFraction (expiryInstant referenceInstant : Q) : Q :=
  let days := expiryInstant - referenceInstant in
  if Qle_bool days 0 then time_floor else days / 365.

End TimeBasis.

(** ** [chains.py]: class [NiftyOptionsChain] *)

(** The methods of the class that talk to the broker, the clock or the file
    system ([authenticate], [get_nifty_spot_price], [fetch_nifty_options],
    [get_nifty_futures_price], [fetch_market_data], [export_to_csv],
    [date.today()], [datetime.now()]) are the environment of a run.  The
    first four handle their own failures and return a value or [None];
    quote fetching and the CSV export may raise. *)
Class Broker : Type := {
  authenticate : bool;
  get_nifty_spot_price : option Q;
  fetch_nifty_options : list instrument;
  get_nifty_futures_price : pydate → option Q;
  fetch_market_data : list instrument → outcome (gmap string quote);
  export_to_csv : list row → pydate → string → outcome string;
  today : date;
  capture_timestamp : string
}.

Module Chains.

(** [get_atm_strike], lines 190-192, in exact arithmetic:
    [round(spot_price / strike_gap) * strike_gap].  [Binary64.get_atm_strike]
    is the same method on Python's numbers; for a gap that is an [int], as
    the 50 of [run], both return the same strike. *)
Definition get_atm_strike (spot_price strike_gap : Q) : outcome Q :=
  q ← py_div spot_price strike_gap;
  Ok (inject_Z (py_round q) * strike_gap)%Q.

(** [get_strike_range], lines 194-199. *)
Definition get_strike_range (atm_strike : Q) (num_strikes : Z) (strike_gap : Q)
  : list Q :=
  foldl (λ strikes i, strikes ++ [(atm_strike + inject_Z i * strike_gap)%Q])
        [] (py_range (- num_strikes) (num_strikes + 1)).

(** *** [identify_expiries], lines 223-343 *)

Record expiries : Type := Expiries {
  weekly : list pydate;
  monthly : list pydate
}.

Definition no_expiries : expiries := Expiries [] [].

Definition month_key : Type := Z * Z.

Definition key_of (exp : pydate) : month_key := (exp_year exp, exp_month exp).

(** Lines 245-246. *)
Definition next_month_key (today : date) : month_key :=
  let next_month := (month today `mod` 12) + 1 in
  let next_year := if month today <? 12 then year today else year today + 1 in
  (next_year, next_month).

Definition current_month_key (today : date) : month_key :=
  (year today, month today).

(** Lines 268-292.  The first test is the conditional expression
    [(today < c.date()) if hasattr(c, 'date') else c], whose value in the
    [else] case is the object [c] itself. *)
Definition months_to_fetch (today : date) (current_monthly_expiry : option pydate)
  : list month_key :=
  match current_monthly_expiry with
  | Some c =>
      if (if hasattr_date c then date_ltb today (date_of (date_method c))
          else object_truthy c)
      then [current_month_key today]
      else if py_eq (PlainDate today)
                    (if hasattr_date c then date_method c else c)
      then [current_month_key today; next_month_key today]
      else [next_month_key today]
  | None => [next_month_key today]
  end.

(** [months_seen], a dictionary in insertion order:
    [if month_key not in months_seen: months_seen[month_key] = []]
    [months_seen[month_key].append(exp)] *)
Fixpoint months_seen_append (k : month_key) (exp : pydate)
    (d : list (month_key * list pydate)) : list (month_key * list pydate) :=
  match d with
  | [] => [(k, [exp])]
  | (k', exps) :: d' =>
      if decide (k = k') then (k', exps ++ [exp]) :: d'
      else (k', exps) :: months_seen_append k exp d'
  end.

Definition group_by_month (target_expiries : list pydate)
  : list (month_key * list pydate) :=
  foldl (λ d exp, months_seen_append (key_of exp) exp d) [] target_expiries.

(** Lines 320-329: the body of the loop over [months_seen.items()]. *)
Definition classify_month (item : month_key * list pydate) (acc : expiries)
  : outcome expiries :=
  month_expiries ← py_sort item.2;
  if (1 <? length month_expiries)%nat then
    match last month_expiries with
    | Some l =>
        Ok (Expiries (weekly acc ++ removelast month_expiries)
                     (monthly acc ++ [l]))
    | None => Raise (OtherException "IndexError")
    end
  else
    match month_expiries with
    | x :: _ => Ok (Expiries (weekly acc) (monthly acc ++ [x]))
    | [] => Raise (OtherException "IndexError")
    end.

(** Lines 260-265: the last of the expiries of the current month, if any. *)
Definition current_monthly_expiry (today : date) (expiry_dates : list pydate)
  : option pydate :=
  let current_month_expiries :=
    filter (λ exp, exp_month exp = month today ∧ exp_year exp = year today)
           expiry_dates in
  last current_month_expiries.

Definition identify_expiries (today : date) (instruments : list instrument)
  : outcome expiries :=
  expiry_dates ← sorted_set (expiry <$> instruments);
  if bool_decide (expiry_dates = []) then Ok no_expiries else
  future_expiries ←
    comprehension_if (λ exp, py_ge exp (PlainDate today)) expiry_dates;
  if bool_decide (future_expiries = []) then Ok no_expiries else
  let months :=
    months_to_fetch today (current_monthly_expiry today expiry_dates) in
  let target_expiries :=
    filter (λ exp, key_of exp ∈ months) future_expiries in
  if bool_decide (target_expiries = []) then Ok no_expiries else
  acc ← for_each classify_month (group_by_month target_expiries) no_expiries;
  weekly_expiries ← py_sort (weekly acc);
  monthly_expiries ← py_sort (monthly acc);
  Ok (Expiries weekly_expiries monthly_expiries).

(** [filter_options_by_expiry_and_strikes], lines 345-353. *)
Definition filter_options_by_expiry_and_strikes
    (instruments : list instrument) (expiry_date : pydate) (strikes : list Q)
  : list instrument :=
  foldl (λ filtered inst,
           if py_eq (expiry inst) expiry_date
              && existsb (Qeq_bool (strike inst)) strikes
           then filtered ++ [inst] else filtered)
        [] instruments.

(** *** [build_options_chain], lines 378-524 *)

Section BuildOptionsChain.
Context {gc : GreeksCalculator}.

(** [next((inst for inst in instruments if inst['strike'] == strike and
          inst['instrument_type'] == option_type), None)] *)
Definition find_instrument (instruments : list instrument) (strike_price : Q)
    (option_type : string) : option instrument :=
  head (filter (λ inst, Qeq_bool (strike inst) strike_price = true
                        ∧ instrument_type inst = option_type) instruments).

(** Lines 421-434 and 477-490: the implied volatility used for the Greeks
    and the value of the [*_IV] column, [round(iv * 100, 2)] on floats. *)
Definition implied_volatility (ltp spot_price strike_price time_to_expiry : Q)
    (option_type : string) : outcome (Q * Q) :=
  if Qpos_b ltp && Qpos_b time_to_expiry then
    iv ← calculate_implied_volatility ltp spot_price strike_price
           time_to_expiry option_type None;
    Ok (iv, Binary64.round2 (Binary64.times iv 100))
  else Ok (15 # 100, 0)%Q.

(** Lines 411-464 for the call and 467-520 for the put: the two blocks of
    the source are the same code up to the prefix of the keys and the
    option type handed to the calculator. *)
Definition option_side (option_type : string) (inst : option instrument)
    (quotes : gmap string quote) (spot_price strike_price time_to_expiry : Q)
  : outcome option_columns :=
  match inst with
  | Some i =>
      let key := ("NFO:" +:+ tradingsymbol i)%string in
      let q := default empty_quote (quotes !! key) in
      let ltp := default 0%Q (last_price q) in
      '(iv, iv_column) ← implied_volatility ltp spot_price strike_price
                           time_to_expiry option_type;
      let d := default empty_depth (quote_depth q) in
      let buy_level := first_level (buy d) in
      let sell_level := first_level (sell d) in
      g ← calculate_all_greeks spot_price strike_price time_to_expiry iv
            option_type None;
      Ok {| OI := default 0%Q (oi q);
            Change_in_OI :=
              (default 0 (oi_day_high q) - default 0 (oi_day_low q))%Q;
            Volume := default 0%Q (volume q);
            IV := iv_column;
            LTP := ltp;
            Change := default 0%Q (change q);
            Bid_Qty := default 0%Q (quantity buy_level);
            Bid_Price := default 0%Q (price buy_level);
            Ask_Price := default 0%Q (price sell_level);
            Ask_Qty := default 0%Q (quantity sell_level);
            Delta := delta g; Gamma := gamma g;
            Vega := vega g; Theta := theta g |}
  | None => Ok zero_columns
  end.

(** The body of the loop over [strikes], lines 390-520. *)
Definition build_row (instruments : list instrument)
    (quotes : gmap string quote) (spot_price time_to_expiry : Q)
    (futures_price : option Q) (timestamp : string) (strike_price : Q)
  : outcome row :=
  let ce_inst := find_instrument instruments strike_price "CE" in
  let pe_inst := find_instrument instruments strike_price "PE" in
  let expiry_column :=
    match ce_inst, pe_inst with
    | Some i, _ => Some (strftime_d_b_Y (expiry i))
    | None, Some i => Some (strftime_d_b_Y (expiry i))
    | None, None => None
    end in
  ce ← option_side "CE" ce_inst quotes spot_price strike_price time_to_expiry;
  pe ← option_side "PE" pe_inst quotes spot_price strike_price time_to_expiry;
  Ok {| Timestamp := timestamp;
        Underlying_Spot := spot_price;
        Futures_Price :=
          match futures_price with
          | Some f => if truthy f then f else 0%Q
          | None => 0%Q
          end;
        Strike_Price := strike_price;
        Expiry_Date := expiry_column;
        CE := ce; PE := pe |}.

(** The result is the list of rows the [DataFrame] is made of. *)
Definition build_options_chain (instruments : list instrument)
    (quotes : gmap string quote) (strikes : list Q) (spot_price : Q)
    (expiry_date : pydate) (futures_price : option Q) (timestamp : string)
  : outcome (list row) :=
  time_to_expiry ← get_time_to_expiry expiry_date None;
  for_each (λ strike_price data,
              r ← build_row instruments quotes spot_price time_to_expiry
                    futures_price timestamp strike_price;
              Ok (data ++ [r]))
           strikes [].

End BuildOptionsChain.

(** *** [run], lines 544-704 *)

Record file_info : Type := FileInfo {
  file_type : string;
  file_expiry : pydate;
  file_path : string;
  file_strikes : nat
}.

(** The counters of a run. *)
Record progress : Type := Progress {
  created_files : list file_info;
  success_count : nat;
  error_count : nat;
  current_idx : nat
}.

Section Run.
Context {gc : GreeksCalculator} {broker : Broker}.

(** The statements inside [try], lines 614-634 and 652-672, up to the
    export: filter the options, fetch the quotes, build the chain, export
    it. *)
Definition chain_to_csv (all_options : list instrument) (strikes : list Q)
    (spot_price : Q) (futures_price : option Q) (kind : string)
    (expiry_date : pydate) : outcome (list row * string) :=
  let options :=
    filter_options_by_expiry_and_strikes all_options expiry_date strikes in
  quotes ← fetch_market_data options;
  df ← build_options_chain options quotes strikes spot_price expiry_date
         futures_price capture_timestamp;
  filepath ← export_to_csv df expiry_date kind;
  Ok (df, filepath).

(** Whether these statements raise for an expiry. *)
Definition fails (all_options : list instrument) (strikes : list Q)
    (spot_price : Q) (futures_price : option Q) (kind : string)
    (expiry_date : pydate) : Prop :=
  raises (chain_to_csv all_options strikes spot_price futures_price kind
            expiry_date) = true.

Global Instance fails_dec all_options strikes spot_price futures_price kind
    expiry_date :
  Decision (fails all_options strikes spot_price futures_price kind
              expiry_date).
Proof. unfold fails. apply _. Defined.

(** The body of the loops over the weekly and the monthly expiries. *)
Definition process_expiry (all_options : list instrument) (strikes : list Q)
    (spot_price : Q) (futures_price : option Q) (kind : string)
    (expiry_date : pydate) (p : progress) : outcome progress :=
  let idx := S (current_idx p) in
  try_except_Exception
    ('(df, filepath) ← chain_to_csv all_options strikes spot_price
                         futures_price kind expiry_date;
     Ok (Progress
           (created_files p
              ++ [FileInfo kind expiry_date filepath (length df)])
           (S (success_count p)) (error_count p) idx))
    (λ e, Ok (Progress (created_files p) (success_count p)
                       (S (error_count p)) idx)).

(** The two loops, lines 607-681. *)
Definition process_all (all_options : list instrument) (strikes : list Q)
    (spot_price : Q) (futures_price : option Q)
    (weekly_expiries monthly_expiries : list pydate) : outcome progress :=
  p ← for_each (process_expiry all_options strikes spot_price futures_price
                  "weekly") weekly_expiries (Progress [] 0 0 0);
  for_each (process_expiry all_options strikes spot_price futures_price
              "monthly") monthly_expiries p.

(** [run]; [None] is an early [return]. *)
Definition run : outcome (option progress) :=
  if negb authenticate then Ok None else
  match get_nifty_spot_price with
  | None => Ok None
  | Some spot_price =>
      if negb (truthy spot_price) then Ok None else
      atm_strike ← get_atm_strike spot_price 50;
      let strikes := get_strike_range atm_strike 10 50 in
      let all_options := fetch_nifty_options in
      if bool_decide (all_options = []) then Ok None else
      expiries_dict ← identify_expiries today all_options;
      let weekly_expiries := weekly expiries_dict in
      let monthly_expiries := monthly expiries_dict in
      if bool_decide (weekly_expiries = [])
         && bool_decide (monthly_expiries = []) then Ok None else
      let futures_expiry :=
        match monthly_expiries with
        | m :: _ => Some m
        | [] => head weekly_expiries
        end in
      let futures_price := futures_expiry ≫= get_nifty_futures_price in
      p ← process_all all_options strikes spot_price futures_price
            weekly_expiries monthly_expiries;
      Ok (Some p)
  end.

End Run.

End Chains.

(** ** [validation.py] *)

(** What the report reads from outside: the CSV file ([pd.read_csv]), the
    date parser ([datetime.strptime(text, format)]) and the clock
    ([datetime.now()]). *)
Class ReportHost : Type := {
  read_csv : string → outcome (list row);
  strptime : string → string → outcome pydate;
  now : pydate
}.

Module Validation.

(** The four percentage differences of one line of the comparison. *)
Record differences : Type := Differences {
  delta_diff : Q; gamma_diff : Q; vega_diff : Q; theta_diff : Q
}.

(** What the report prints: the two tables of Greeks and the two tables of
    differences, one line per rate. *)
Record report : Type := Report {
  ce_results : list (string * greeks);
  pe_results : list (string * greeks);
  ce_differences : list (string * differences);
  pe_differences : list (string * differences)
}.

(** Lines 120-125. *)
Definition rates_to_compare : list (string * Q) :=
  [("NSE (10%)", 10 # 100); ("Custom (6.5%)", 65 # 1000);
   ("RBI T-Bill (5.43%)", 543 # 10000); ("Conservative (5%)", 5 # 100)]%Q.

(** [(num / den * 100) if reference != 0 else 0] *)
Definition percent_if_nonzero (num den reference : Q) : outcome Q :=
  if negb (Qeq_bool reference 0) then q ← py_div num den; Ok (q * 100)%Q
  else Ok 0%Q.

(** Lines 194-197. *)
Definition ce_difference (g nse_ce : greeks) : outcome differences :=
  delta_diff ← percent_if_nonzero (delta g - delta nse_ce) (delta nse_ce)
                  (delta nse_ce);
  gamma_diff ← percent_if_nonzero (gamma g - gamma nse_ce) (gamma nse_ce)
                  (gamma nse_ce);
  vega_diff ← percent_if_nonzero (vega g - vega nse_ce) (vega nse_ce)
                 (vega nse_ce);
  theta_diff ← percent_if_nonzero (theta g - theta nse_ce) (theta nse_ce)
                  (theta nse_ce);
  Ok (Differences delta_diff gamma_diff vega_diff theta_diff).

(** Lines 211-214: delta and theta are divided by the absolute value. *)
Definition pe_difference (g nse_pe : greeks) : outcome differences :=
  delta_diff ← percent_if_nonzero (delta g - delta nse_pe)
                  (Qabs (delta nse_pe)) (delta nse_pe);
  gamma_diff ← percent_if_nonzero (gamma g - gamma nse_pe) (gamma nse_pe)
                  (gamma nse_pe);
  vega_diff ← percent_if_nonzero (vega g - vega nse_pe) (vega nse_pe)
                 (vega nse_pe);
  theta_diff ← percent_if_nonzero (theta g - theta nse_pe)
                  (Qabs (theta nse_pe)) (theta nse_pe);
  Ok (Differences delta_diff gamma_diff vega_diff theta_diff).

(** [results[key]] on a dictionary kept in insertion order. *)
Definition getitem {V} (results : list (string * V)) (key : string)
  : outcome V :=
  match list_find (λ kv, kv.1 = key) results with
  | Some (_, kv) => Ok kv.2
  | None => Raise (OtherException "KeyError")
  end.

(** The loops of lines 190-200 and 207-217; the reference line is printed
    as four times [0.00%]. *)
Definition difference_table (difference : greeks → greeks → outcome differences)
    (results : list (string * greeks)) : outcome (list (string * differences)) :=
  nse ← getitem results "NSE (10%)";
  for_each (λ '(rate_name, g) table,
              if bool_decide (rate_name = "NSE (10%)"%string)
              then Ok (table ++ [(rate_name, Differences 0 0 0 0)])
              else d ← difference g nse; Ok (table ++ [(rate_name, d)]))
           results [].

Section Report.
Context {gc : GreeksCalculator} {host : ReportHost}.

(** [calculate_greeks_with_rate], lines 20-35. *)
Definition calculate_greeks_with_rate (spot strike_price time_to_expiry
    market_iv : Q) (option_type : string) (risk_free_rate : Q)
  : outcome greeks :=
  calculate_all_greeks spot strike_price time_to_expiry market_iv option_type
    (Some risk_free_rate).

(** The loops of lines 136-149 and 161-174; the keys of [rates_to_compare]
    are distinct, so each assignment [results[rate_name] = greeks] adds an
    entry. *)
Definition greeks_by_rate (spot strike_price time_to_expiry market_iv : Q)
    (option_type : string) : outcome (list (string * greeks)) :=
  for_each (λ '(rate_name, rate_value) results,
              g ← calculate_greeks_with_rate spot strike_price time_to_expiry
                    market_iv option_type rate_value;
              Ok (results ++ [(rate_name, g)]))
           rates_to_compare [].

(** Lines 77-84: the two formats tried in turn; [None] when both fail. *)
Definition parse_expiry (expiry_str : string) : outcome (option pydate) :=
  try_except (d ← strptime expiry_str "%d-%b-%Y"; Ok (Some (date_method d)))
    (try_except (d ← strptime expiry_str "%Y-%m-%d"; Ok (Some (date_method d)))
       (Ok None)).

(** Line 74, [atm_row['Expiry_Date']].  The frame has the columns its rows
    were written with: lines 405-408 of [chains.py] leave [Expiry_Date] out
    of a row whose strike has no instrument.  The column is therefore
    missing when no row has it, and the lookup raises [KeyError], outside
    any [try]; in a frame that has the column, a row without it holds NaN,
    here [None]. *)
Definition has_Expiry_Date (df : list row) : bool :=
  bool_decide (Exists (λ r, is_Some (Expiry_Date r)) df).

Definition getitem_Expiry_Date (df : list row) (atm_row : row)
  : outcome (option string) :=
  match Expiry_Date atm_row with
  | Some expiry_str => Ok (Some expiry_str)
  | None =>
      if has_Expiry_Date df then Ok None
      else Raise (OtherException "KeyError")
  end.

(** [generate_validation_report]; [None] is an early [return]. *)
Definition generate_validation_report (csv_path : string)
  : outcome (option report) :=
  try_except_Exception
    (df ← read_csv csv_path; Ok (Some df)) (λ _, Ok None)
  ≫= λ loaded,
  match loaded with
  | None => Ok None
  | Some df =>
      if bool_decide (df = []) then Ok None else
      match df !! (length df `div` 2)%nat with
      | None => Raise (OtherException "IndexError")
      | Some atm_row =>
          let strike_price := Strike_Price atm_row in
          expiry_str ← getitem_Expiry_Date df atm_row;
          (* [strptime] raises [TypeError] on NaN, with both formats *)
          parsed ← match expiry_str with
                   | Some expiry_str => parse_expiry expiry_str
                   | None => Ok None
                   end;
          match parsed with
          | None => Ok None
          | Some expiry_date =>
              let spot := strike_price in
              time_to_expiry ← get_time_to_expiry expiry_date (Some now);
              let ce_iv := (IV (CE atm_row) / 100)%Q in
              let pe_iv := (IV (PE atm_row) / 100)%Q in
              ce ← greeks_by_rate spot strike_price time_to_expiry ce_iv "CE";
              pe ← greeks_by_rate spot strike_price time_to_expiry pe_iv "PE";
              ce_diff ← difference_table ce_difference ce;
              pe_diff ← difference_table pe_difference pe;
              Ok (Some (Report ce pe ce_diff pe_diff))
          end
      end
  end.

End Report.

End Validation.

(** ** Statements about the calls to the calculator *)

Module Policy.
Import Chains.
Local Open Scope Q_scope.

(** The Greeks columns of one side of a row, as a result dictionary. *)
Definition greeks_columns (c : option_columns) : greeks :=
  Greeks (Delta c) (Gamma c) (Vega c) (Theta c).

(** The last traded price [build_options_chain] reads for an instrument. *)
Definition quoted_ltp (quotes : gmap string quote) (i : instrument) : Q :=
  default 0 (last_price
               (default empty_quote
                  (quotes !! ("NFO:" +:+ tradingsymbol i)%string))).

(** What one side of a row holds, given the instrument found for the strike
    and the time to expiry [t]: zeros without instrument; with a positive
    price and a positive [t], the solver's estimate as a percentage rounded
    to two decimals and the Greeks at that estimate; and otherwise the
    marker 0 and the Greeks at the fallback volatility of 15%.  No call
    names a risk-free rate. *)
Definition volatility_policy {gc : GreeksCalculator} (option_type : string)
    (quotes : gmap string quote) (spot_price strike_price t : Q)
    (inst : option instrument) (c : option_columns) : Prop :=
  match inst with
  | None => c = zero_columns
  | Some i =>
      LTP c = quoted_ltp quotes i
      ∧ (0 < quoted_ltp quotes i ∧ 0 < t →
           ∃ iv, calculate_implied_volatility (quoted_ltp quotes i) spot_price
                   strike_price t option_type None = Ok iv
                 ∧ IV c = Binary64.round2 (Binary64.times iv 100)
                 ∧ calculate_all_greeks spot_price strike_price t iv
                     option_type None = Ok (greeks_columns c))
      ∧ (¬ (0 < quoted_ltp quotes i ∧ 0 < t) →
           IV c = 0
           ∧ calculate_all_greeks spot_price strike_price t (15 # 100)
               option_type None = Ok (greeks_columns c))
  end.

(** The columns of the call or of the put of a row. *)
Definition side (option_type : string) (r : row) : option_columns :=
  if decide (option_type = "CE"%string) then CE r else PE r.



(** Two calculators that answer alike whenever the call leaves the
    risk-free rate out. *)
Definition agree_without_rate (gc1 gc2 : GreeksCalculator) : Prop :=
  (∀ e c, @get_time_to_expiry gc1 e c = @get_time_to_expiry gc2 e c)
  ∧ (∀ p s k t o, @calculate_implied_volatility gc1 p s k t o None
                  = @calculate_implied_volatility gc2 p s k t o None)
  ∧ (∀ s k t v o, @calculate_all_greeks gc1 s k t v o None
                  = @calculate_all_greeks gc2 s k t v o None).

End Policy.

(** ** Calculators and data for the examples *)

Module Examples.
Local Open Scope Q_scope.

(** A calculator that shows what it is handed.  The expiry is at the
    reference instant, so the time to expiry is the floor of the time
    basis.  The solver answers 20%.  The Greeks echo the call: delta is the
    volatility, gamma the risk-free rate of the call (-1 when the call has
    none), vega the time to expiry. *)
Definition echo_calculator : GreeksCalculator := {|
  get_time_to_expiry _ _ := Ok (TimeBasis.yearFraction 0 0);
  calculate_implied_volatility _ _ _ _ _ _ := Ok (20 # 100);
  calculate_all_greeks _ _ t v _ r :=
    Ok (Greeks v (default (-1) r) t 0)
|}.

(** The same calculator, except that an explicit rate is ignored. *)
Definition rate_blind_calculator : GreeksCalculator := {|
  get_time_to_expiry _ _ := Ok (TimeBasis.yearFraction 0 0);
  calculate_implied_volatility _ _ _ _ _ _ := Ok (20 # 100);
  calculate_all_greeks _ _ t v _ _ := Ok (Greeks v (-1) t 0)
|}.

Definition InvalidInput : exn := OtherException "InvalidInput".

(** Modelled from the spec: the checks of [greeks_calculator], which is not
    among the sources.  Section 4.1: the time to expiry is the year
    fraction, with its floor ([days_left] is the time from now to the
    expiry, in days).  Section 4.4, step 1: the solver fails with
    [InvalidInput] if the last traded price is not positive or the time to
    expiry is at its floor.  Sections 4.2 and 7: pricer and Greeks engine
    fail with [InvalidInput] on a spot, strike, volatility or time that is
    not positive.  The numbers returned past the checks are placeholders:
    the formulas are not modelled. *)
Definition guarded_calculator (days_left : Q) : GreeksCalculator := {|
  get_time_to_expiry _ _ := Ok (TimeBasis.yearFraction days_left 0);
  calculate_implied_volatility p s k t _ _ :=
    if Qle_bool p 0 || Qeq_bool t TimeBasis.time_floor
       || Qle_bool s 0 || Qle_bool k 0
    then Raise InvalidInput else Ok (12 # 100);
  calculate_all_greeks s k t v _ _ :=
    if Qle_bool s 0 || Qle_bool k 0 || Qle_bool t 0 || Qle_bool v 0
    then Raise InvalidInput else Ok (Greeks (52 # 100) (1 # 1000) 12 (-5))
|}.

Definition expiry_27_nov : pydate := PlainDate (Date 2025 11 27).

Definition nifty_19500_ce : instrument :=
  Instrument "NIFTY" "CE" expiry_27_nov 19500 "NIFTY25NOV19500CE".

Definition nifty_19500_pe : instrument :=
  Instrument "NIFTY" "PE" expiry_27_nov 19500 "NIFTY25NOV19500PE".

(** The call last traded at 100; the put has not traded. *)
Definition sample_quotes : gmap string quote :=
  {[ "NFO:NIFTY25NOV19500CE"%string :=
       Quote (Some 1200) (Some 1300) (Some 1100) (Some 5000) (Some 100)
             (Some 2) None;
     "NFO:NIFTY25NOV19500PE"%string :=
       Quote (Some 800) None None (Some 0) (Some 0) None None ]}.

(** A call expiring on the given day. *)
Definition expiring (d : date) : instrument :=
  Instrument "NIFTY" "CE" (PlainDate d) 19500 "NIFTY19500CE".

(** Expiries on the Tuesdays of November 2025 and on two days of
    December. *)
Definition november_and_december : list instrument :=
  expiring <$> [Date 2025 11 4; Date 2025 11 11; Date 2025 11 18;
                Date 2025 11 25; Date 2025 12 2; Date 2025 12 30].

(** Expiries in December 2025 and January 2026 only. *)
Definition december_and_january : list instrument :=
  expiring <$> [Date 2025 12 2; Date 2025 12 30; Date 2026 1 27].

(** The expiries of November 2025: three weekly ones and the monthly one. *)
Definition november_expiries : Chains.expiries :=
  Chains.Expiries
    (PlainDate <$> [Date 2025 11 4; Date 2025 11 11; Date 2025 11 18])
    [PlainDate (Date 2025 11 25)].

(** A broker for which everything works except the export of the chain of
    11 November, which fails with an [OSError]. *)
Definition flaky_broker : Broker := {|
  authenticate := true;
  get_nifty_spot_price := Some 19512;
  fetch_nifty_options := november_and_december;
  get_nifty_futures_price _ := Some 19600;
  fetch_market_data _ := Ok sample_quotes;
  export_to_csv _ expiry_date _ :=
    if decide (expiry_date = PlainDate (Date 2025 11 11))
    then Raise (OtherException "OSError")
    else Ok "2025-11-04/nifty.csv"%string;
  today := Date 2025 11 4;
  capture_timestamp := "2025-11-04 10:00:00"
|}.

(** A CSV file of one row, read on 20 November 2025 at 10:00; its expiry
    is written in the first of the two formats. *)
Definition sample_host : ReportHost := {|
  read_csv _ :=
    Ok [Row "2025-11-20 10:00:00" 19512 19600 19500 (Some "27-Nov-2025")
          (OptionColumns 1200 200 5000 20 100 2 0 0 0 0 (1 # 2) (1 # 1000)
             12 (-5))
          (OptionColumns 800 0 0 18 90 0 0 0 0 0 (- (1 # 2)) (1 # 1000)
             12 (-4))];
  strptime _ format :=
    if decide (format = "%d-%b-%Y"%string)
    then Ok (DateTime (Date 2025 11 27) 0)
    else Raise (OtherException "ValueError");
  now := DateTime (Date 2025 11 20) 36000
|}.

End Examples.

(** ** Auxiliary notions for the statements *)

Module Aux.

(** [x >= today] for an expiry that can be compared with a date. *)
Definition on_or_after (today : date) (x : pydate) : bool :=
  match x with
  | PlainDate d => date_leb today d
  | DateTime _ _ => false
  end.

(** Every weekly expiry has a strictly later monthly expiry of its own
    month. *)
Definition has_later_monthly (acc : Chains.expiries) : Prop :=
  ∀ w, w ∈ Chains.weekly acc →
       ∃ m, m ∈ Chains.monthly acc
            ∧ Chains.key_of m = Chains.key_of w ∧ pydate_le w m ∧ w ≠ m.

(** What the counters and the list of files of a run satisfy together,
    [n] being the number of strikes. *)
Definition consistent (n : nat) (p : Chains.progress) : Prop :=
  length (Chains.created_files p) = Chains.success_count p
  ∧ Chains.current_idx p
    = (Chains.success_count p + Chains.error_count p)%nat
  ∧ Forall (λ f, Chains.file_strikes f = n
                 ∧ (Chains.file_type f = "weekly"%string
                    ∨ Chains.file_type f = "monthly"%string))
           (Chains.created_files p).

(** The columns of one side of a row that come from the quote are all 0. *)
Definition no_market_data (c : option_columns) : Prop :=
  OI c = 0%Q ∧ Change_in_OI c = 0%Q ∧ Volume c = 0%Q ∧ IV c = 0%Q
  ∧ LTP c = 0%Q ∧ Change c = 0%Q ∧ Bid_Qty c = 0%Q ∧ Bid_Price c = 0%Q
  ∧ Ask_Price c = 0%Q ∧ Ask_Qty c = 0%Q.

End Aux.
Export Aux.

(** ** The lines of the validation report *)

Module ReportLines.
Import Validation.

(** A line of a table of Greeks: the name of the rate and the calculator's
    answer for that rate, spot and strike being the same price. *)
Definition greeks_line {gc : GreeksCalculator} (price t iv : Q)
    (option_type : string) (rate : string * Q) (line : string * greeks)
  : Prop :=
  line.1 = rate.1
  ∧ calculate_all_greeks price price t iv option_type (Some rate.2)
    = Ok line.2.

(** A line of a table of differences: zeros on the reference line, the
    differences with the reference elsewhere. *)
Definition difference_line
    (difference : greeks → greeks → outcome differences) (nse : greeks)
    (result : string * greeks) (line : string * differences) : Prop :=
  line.1 = result.1
  ∧ (result.1 = "NSE (10%)"%string → line.2 = Differences 0 0 0 0)
  ∧ (result.1 ≠ "NSE (10%)"%string → difference result.2 nse = Ok line.2).

End ReportLines.

(** ** The methods of [NiftyOptionsChain] that call the broker

    [self.kite] is the client of the broker's API.  Each of its calls may
    raise. *)

Class KiteConnect : Type := {
  (** [kite.quote(keys)] *)
  kite_quote : list string → outcome (gmap string quote);
  (** [kite.instruments(exchange)] *)
  kite_instruments : string → outcome (list instrument);
  (** [kite.generate_session(request_token, api_secret=...)["access_token"]];
      a session without access token is [None]. *)
  kite_generate_session : string → outcome (option string)
}.

Module Kite.

(** [range(start, stop, step)] for a positive step. *)
Definition py_range_step (start stop step : nat) : list nat :=
  (λ k, start + k * step)%nat
    <$> seq 0 ((stop - start + step - 1) `div` step)%nat.

(** [l[i:j]] for [0 <= i <= j]. *)
Definition py_slice {A} (l : list A) (i j : nat) : list A :=
  take (j - i) (drop i l).

Definition KeyError : exn := OtherException "KeyError".

Section WithClient.
Context {kite : KiteConnect}.

(** *** [fetch_market_data], lines 355-376 *)

Definition batch_size : nat := 500.

(** [f"NFO:{inst['tradingsymbol']}" for inst in instruments] *)
Definition instrument_keys (instruments : list instrument) : list string :=
  (λ inst, "NFO:" +:+ tradingsymbol inst)%string <$> instruments.

(** [all_quotes.update(quotes)] keeps the new value of a key present in
    both. *)
Definition fetch_market_data (instruments : list instrument)
  : outcome (gmap string quote) :=
  let keys := instrument_keys instruments in
  for_each (λ i all_quotes,
              let batch := py_slice keys i (i + batch_size) in
              try_except_Exception
                (quotes ← kite_quote batch; Ok (quotes ∪ all_quotes))
                (λ e, Ok all_quotes))
           (py_range_step 0 (length keys) batch_size) ∅.

(** The batches handed to [kite.quote], in order. *)
Definition quote_batches (instruments : list instrument) : list (list string) :=
  let keys := instrument_keys instruments in
  (λ i, py_slice keys i (i + batch_size))
    <$> py_range_step 0 (length keys) batch_size.

(** *** The cache [self.nfo_instruments]

    [None] until [kite.instruments("NFO")] has answered once. *)

Definition load_nfo_instruments (cache : option (list instrument))
  : outcome (list instrument) :=
  match cache with
  | Some all => Ok all
  | None => kite_instruments "NFO"
  end.

(** *** [fetch_nifty_options], lines 201-221

    The result and the cache after the call. *)
Definition fetch_nifty_options (cache : option (list instrument))
  : outcome (list instrument * option (list instrument)) :=
  try_except_Exception
    (all ← load_nfo_instruments cache;
     let nifty_options :=
       filter (λ inst, name inst = "NIFTY"%string
                       ∧ instrument_type inst ∈ ["CE"; "PE"]%string) all in
     Ok (nifty_options, Some all))
    (λ e, Ok ([], cache)).

(** *** [get_nifty_futures_price], lines 145-188 *)

(** Lines 163-177, once the instruments are there: the quote of the first
    NIFTY future of the expiry. *)
Definition futures_last_price (all : list instrument) (expiry_date : pydate)
  : outcome (option Q) :=
  let nifty_futures :=
    filter (λ inst, name inst = "NIFTY"%string
                    ∧ instrument_type inst = "FUT"%string
                    ∧ py_eq (expiry inst) expiry_date = true) all in
  match nifty_futures with
  | fut :: _ =>
      let fut_key := ("NFO:" +:+ tradingsymbol fut)%string in
      q ← kite_quote [fut_key];
      match q !! fut_key with
      | Some entry =>
          match last_price entry with
          | Some ltp => Ok (Some ltp)
          | None => Raise KeyError
          end
      | None => Ok None
      end
  | [] => Ok None
  end.

(** The price, or [None], and the cache after the call. *)
Definition get_nifty_futures_price (expiry_date : pydate)
    (cache : option (list instrument))
  : outcome (option Q * option (list instrument)) :=
  match cache with
  | Some all =>
      ltp ← try_except_Exception (futures_last_price all expiry_date)
              (λ e, Ok None);
      Ok (ltp, cache)
  | None =>
      match kite_instruments "NFO" with
      | Ok all =>
          ltp ← try_except_Exception (futures_last_price all expiry_date)
                  (λ e, Ok None);
          Ok (ltp, Some all)
      | Raise e =>
          if isinstance_Exception e then Ok (None, None) else Raise e
      end
  end.

(** *** [get_nifty_spot_price], lines 120-143 *)

(** The statements under one [try]: [None] when the answer lacks the
    key. *)
Definition index_last_price (key : string) : outcome (option Q) :=
  q ← kite_quote [key];
  match q !! key with
  | Some entry =>
      match last_price entry with
      | Some ltp => Ok (Some ltp)
      | None => Raise KeyError
      end
  | None => Ok None
  end.

(** Both [try] blocks end in a bare [except: pass]. *)
Definition get_nifty_spot_price : outcome (option Q) :=
  first ← try_except (index_last_price "NSE:NIFTY 50") (Ok None);
  match first with
  | Some ltp => Ok (Some ltp)
  | None => try_except (index_last_price "NSE:NIFTY50") (Ok None)
  end.

End WithClient.

(** *** [authenticate], lines 54-118 *)

(** The JSON object of the token file; both keys are read with [.get]. *)
Record token_data : Type := TokenData {
  saved_access_token : option string;
  saved_date : option string
}.

(** The token file: absent, not a JSON object, or a JSON object. *)
Inductive token_file : Type :=
  | NoFile
  | Unreadable
  | Saved (d : token_data).

(** What [authenticate] reads and changes: [self.access_token] (also handed
    to [kite.set_access_token]) and the token file. *)
Record session : Type := Session {
  access_token : option string;
  file : token_file
}.

(** What lines 110-111 do to the token file.  [open(..., 'w')] and
    [json.dump] both succeed; or the file cannot be opened and stays as it
    is; or it is opened, which truncates it, and the dump or the closing of
    the file fails, which leaves at most a beginning of the object in
    it. *)
Inductive write_result : Type :=
  | Written
  | NotOpened
  | Truncated.

(** What comes from outside the broker: the day
    ([datetime.now().strftime('%Y-%m-%d')]), the [request_token] parameter
    of the URL the user pastes ([None] when the URL has none), and what
    writing the token file does. *)
Class LoginHost : Type := {
  today_str : string;
  pasted_request_token : option string;
  token_file_write : write_result
}.

Section Authenticate.
Context {kite : KiteConnect} {host : LoginHost}.

(** Lines 57-71: the token of the file, when the file is of today. *)
Definition saved_token_of_today (f : token_file) : option (option string) :=
  match f with
  | Saved d =>
      if bool_decide (saved_date d = Some today_str)
      then Some (saved_access_token d) else None
  | NoFile | Unreadable => None
  end.

(** Lines 91-118: the login with the pasted URL. *)
Definition login (s : session) : outcome (bool * session) :=
  match pasted_request_token with
  | None => Ok (false, s)
  | Some request_token =>
      if bool_decide (request_token = ""%string) then Ok (false, s) else
      match kite_generate_session request_token with
      | Ok (Some token) =>
          match token_file_write with
          | Written =>
              Ok (true, Session (Some token)
                          (Saved (TokenData (Some token) (Some today_str))))
          | NotOpened => Ok (false, Session (Some token) (file s))
          | Truncated => Ok (false, Session (Some token) Unreadable)
          end
      | Ok None => Ok (false, s)
      | Raise e =>
          if isinstance_Exception e then Ok (false, s) else Raise e
      end
  end.

Definition authenticate (s : session) : outcome (bool * session) :=
  match saved_token_of_today (file s) with
  | Some token => Ok (true, Session token (file s))
  | None => login s
  end.

End Authenticate.

End Kite.

(** ** More data for the examples *)

Module MoreExamples.
Local Open Scope Q_scope.

(** As [Examples.flaky_broker], but the user interrupts the program during
    the export of 18 November. *)
Definition interrupted_broker : Broker := {|
  authenticate := true;
  get_nifty_spot_price := Some 19512;
  fetch_nifty_options := Examples.november_and_december;
  get_nifty_futures_price _ := Some 19600;
  fetch_market_data _ := Ok Examples.sample_quotes;
  export_to_csv _ expiry_date _ :=
    if decide (expiry_date = PlainDate (Date 2025 11 11))
    then Raise (OtherException "OSError")
    else if decide (expiry_date = PlainDate (Date 2025 11 18))
    then Raise KeyboardInterrupt
    else Ok "2025-11-04/nifty.csv"%string;
  today := Date 2025 11 4;
  capture_timestamp := "2025-11-04 10:00:00"
|}.

(** A broker API that is down: every call raises. *)
Definition offline_kite : KiteConnect := {|
  kite_quote _ := Raise (OtherException "NetworkException");
  kite_instruments _ := Raise (OtherException "NetworkException");
  kite_generate_session _ := Raise (OtherException "NetworkException")
|}.

(** The November future, and a call of another index. *)
Definition nifty_nov_fut : instrument :=
  Instrument "NIFTY" "FUT" Examples.expiry_27_nov 0 "NIFTY25NOVFUT".

Definition banknifty_ce : instrument :=
  Instrument "BANKNIFTY" "CE" Examples.expiry_27_nov 45000
    "BANKNIFTY25NOV45000CE".

(** A broker API that answers: four instruments on NFO, and quotes for the
    index, the future and the two options, whatever the keys asked for. *)
Definition sample_kite : KiteConnect := {|
  kite_quote _ :=
    Ok (<["NSE:NIFTY 50"%string :=
            Quote None None None None (Some 19512) None None]>
          (<["NFO:NIFTY25NOVFUT"%string :=
               Quote None None None None (Some 19600) None None]>
             Examples.sample_quotes));
  kite_instruments _ :=
    Ok [nifty_nov_fut; Examples.nifty_19500_ce; banknifty_ce;
        Examples.nifty_19500_pe];
  kite_generate_session _ := Ok (Some "token-of-today"%string)
|}.

(** The user pastes a URL with a request token on 4 November 2025; the
    token file can be written. *)
Definition sample_login : Kite.LoginHost := {|
  Kite.today_str := "2025-11-04";
  Kite.pasted_request_token := Some "request-token"%string;
  Kite.token_file_write := Kite.Written
|}.

(** A session whose token file is of the day before. *)
Definition stale_session : Kite.session :=
  Kite.Session None
    (Kite.Saved (Kite.TokenData (Some "token-of-yesterday"%string)
                   (Some "2025-11-03"%string))).

(** The session after a login on 4 November 2025. *)
Definition fresh_session : Kite.session :=
  Kite.Session (Some "token-of-today"%string)
    (Kite.Saved (Kite.TokenData (Some "token-of-today"%string)
                   (Some "2025-11-04"%string))).

(** The same login on a disk that is full: the token file is opened and
    nothing can be written to it. *)
Definition full_disk_login : Kite.LoginHost := {|
  Kite.today_str := "2025-11-04";
  Kite.pasted_request_token := Some "request-token"%string;
  Kite.token_file_write := Kite.Truncated
|}.

End MoreExamples.

(** * Properties *)

(** ** The error monad *)

(** A loop that appends one computed element per iteration. *)
Lemma for_each_append {A B} (f : A → outcome B) (xs : list A) (acc : list B) :
  for_each (λ x data, y ← f x; Ok (data ++ [y])) xs acc
  = ys ← comprehension f xs; Ok (acc ++ ys).
Proof.
  revert acc. induction xs as [|x xs IH]; intros acc; simpl.
  - by rewrite app_nil_r.
  - destruct (f x) as [y|e]; simpl; [|done].
    rewrite IH. destruct (comprehension f xs) as [ys|e]; simpl; [|done].
    by rewrite <- app_assoc.
Qed.

Lemma comprehension_Ok_length {A B} (f : A → outcome B) xs ys :
  comprehension f xs = Ok ys → length ys = length xs.
Proof.
  revert ys. induction xs as [|x xs IH]; intros ys; simpl.
  - by intros [= <-].
  - destruct (f x) as [y|]; simpl; [|done].
    destruct (comprehension f xs) as [ys'|]; simpl; [|done].
    intros [= <-]. simpl. f_equal. by apply IH.
Qed.

Lemma comprehension_Ok_lookup {A B} (f : A → outcome B) xs ys i x :
  comprehension f xs = Ok ys → xs !! i = Some x →
  ∃ y, ys !! i = Some y ∧ f x = Ok y.
Proof.
  revert ys i. induction xs as [|x' xs IH]; intros ys i; simpl; [done|].
  destruct (f x') as [y|] eqn:Hy; simpl; [|done].
  destruct (comprehension f xs) as [ys'|]; simpl; [|done].
  intros [= <-]. destruct i as [|i]; simpl.
  - intros [= <-]. eauto.
  - intros Hx. by apply IH.
Qed.

Lemma comprehension_returns {A B} (f : A → outcome B) xs :
  (∀ x, x ∈ xs → returns (f x)) → returns (comprehension f xs).
Proof.
  induction xs as [|x xs IH]; intros Hf; simpl.
  - by eexists.
  - destruct (Hf x) as [y ->]; [left|]. simpl.
    destruct IH as [ys ->]; [intros; apply Hf; by right|]. simpl. by eexists.
Qed.

(** ** Rounding and the strike grid *)

Section Rounding.
Local Open Scope Q_scope.

Lemma py_round_nearest (x : Q) :
  - (1 # 2) <= inject_Z (py_round x) - x <= 1 # 2.
Proof.
  unfold py_round.
  pose proof (Qfloor_le x) as Hlo. pose proof (Qlt_floor x) as Hhi.
  rewrite inject_Z_plus in Hhi. change (inject_Z 1) with 1 in Hhi.
  destruct (Qcompare_spec (x - inject_Z (Qfloor x)) (1 # 2)) as [He|Hl|Hg].
  - destruct (Z.even (Qfloor x));
      rewrite ?inject_Z_plus; change (inject_Z 1) with 1; lra.
  - lra.
  - rewrite inject_Z_plus. change (inject_Z 1) with 1. lra.
Qed.

Lemma py_round_Qeq (x y : Q) : x == y → py_round x = py_round y.
Proof.
  intros H. unfold py_round. rewrite (Qfloor_comp x y H).
  assert (Hc : x - inject_Z (Qfloor y) == y - inject_Z (Qfloor y))
    by (rewrite H; reflexivity).
  by rewrite (Qcompare_comp _ _ Hc (1 # 2) (1 # 2) (Qeq_refl _)).
Qed.

Lemma py_round_integer (n : Z) : py_round (inject_Z n) = n.
Proof.
  unfold py_round. rewrite Qfloor_Z.
  destruct (Qcompare_spec (inject_Z n - inject_Z n) (1 # 2)) as [H|H|H];
    [|done|]; exfalso; lra.
Qed.

End Rounding.

(** ** Binary64 rounding *)

Section Binary64Facts.
Import Binary64.
Local Open Scope Q_scope.

Lemma pow2_pos (e : Z) : 0 < pow2 e.
Proof. by apply Qpower_0_lt. Qed.

Lemma pow2_add (a b : Z) : pow2 (a + b) == pow2 a * pow2 b.
Proof. apply Qpower_plus. discriminate. Qed.

Lemma pow2_le (a b : Z) : (a <= b)%Z → pow2 a <= pow2 b.
Proof. intros H. apply Qpower_le_compat_l; [done|discriminate]. Qed.

Lemma pow2_lt (a b : Z) : (a < b)%Z → pow2 a < pow2 b.
Proof. intros H. by apply Qpower_lt_compat_l. Qed.

Lemma pow2_lt_inv (a b : Z) : pow2 a < pow2 b → (a < b)%Z.
Proof. intros H. by apply (Qpower_lt_compat_l_inv 2). Qed.

Lemma pow2_succ (a : Z) : pow2 (a + 1) == 2 * pow2 a.
Proof. rewrite pow2_add. change (pow2 1) with 2. ring. Qed.

Lemma pow2_inject (e : Z) : (0 <= e)%Z → pow2 e == inject_Z (2 ^ e).
Proof. intros H. unfold pow2. by rewrite Zpower_Qpower. Qed.

(** [2 ^ a / 2 ^ b] *)
Lemma pow2_sub (a b : Z) : pow2 (a - b) == pow2 a / pow2 b.
Proof.
  pose proof (pow2_pos b).
  assert (H1 : pow2 a == pow2 (a - b) * pow2 b).
  { rewrite <- pow2_add. by replace (a - b + b)%Z with a by lia. }
  rewrite H1. field. lra.
Qed.

Lemma ilog2_spec (x : Q) :
  0 < x → pow2 (ilog2 x) <= x ∧ x < pow2 (ilog2 x + 1).
Proof.
  intros Hx. destruct x as [n d]. unfold ilog2. simpl Qnum. simpl Qden.
  assert (Hn : (0 < n)%Z).
  { unfold Qlt in Hx. simpl in Hx. lia. }
  set (a := Z.log2 n). set (b := Z.log2 (Z.pos d)).
  destruct (Z.log2_spec n Hn) as [Ha1 Ha2]. fold a in Ha1, Ha2.
  destruct (Z.log2_spec (Z.pos d) eq_refl) as [Hb1 Hb2]. fold b in Hb1, Hb2.
  assert (Ha0 : (0 <= a)%Z) by apply Z.log2_nonneg.
  assert (Hb0 : (0 <= b)%Z) by apply Z.log2_nonneg.
  assert (Hnd : n # d == inject_Z n / inject_Z (Z.pos d)) by apply Qmake_Qdiv.
  assert (Hd : 0 < inject_Z (Z.pos d)) by reflexivity.
  assert (Hqa1 : pow2 a <= inject_Z n).
  { rewrite pow2_inject by done. by rewrite <- Zle_Qle. }
  assert (Hqa2 : inject_Z n < pow2 (a + 1)).
  { rewrite pow2_inject by lia. rewrite <- Zlt_Qlt.
    by replace (a + 1)%Z with (Z.succ a) by lia. }
  assert (Hqb1 : pow2 b <= inject_Z (Z.pos d)).
  { rewrite pow2_inject by done. by rewrite <- Zle_Qle. }
  assert (Hqb2 : inject_Z (Z.pos d) < pow2 (b + 1)).
  { rewrite pow2_inject by lia. rewrite <- Zlt_Qlt.
    by replace (b + 1)%Z with (Z.succ b) by lia. }
  pose proof (pow2_pos a) as Hpa. pose proof (pow2_pos b) as Hpb.
  pose proof (pow2_pos (a + 1)) as Hpa1. pose proof (pow2_pos (b + 1)) as Hpb1.
  assert (Hup : n # d < pow2 (a - b + 1)).
  { rewrite Hnd. apply Qlt_shift_div_r; [done|].
    replace (a - b + 1)%Z with ((a + 1) - b)%Z by lia.
    rewrite pow2_sub.
    set (c := pow2 (a + 1) / pow2 b).
    assert (Hc : c * pow2 b == pow2 (a + 1)) by (unfold c; field; lra).
    assert (Hc0 : 0 < c).
    { apply Qlt_shift_div_l; [done|]. by rewrite Qmult_0_l. }
    nra. }
  assert (Hlo : pow2 (a - b - 1) <= n # d).
  { rewrite Hnd. apply Qle_shift_div_l; [done|].
    replace (a - b - 1)%Z with (a - (b + 1))%Z by lia.
    rewrite pow2_sub.
    set (c := pow2 a / pow2 (b + 1)).
    assert (Hc : c * pow2 (b + 1) == pow2 a) by (unfold c; field; lra).
    assert (Hc0 : 0 < c).
    { apply Qlt_shift_div_l; [done|]. by rewrite Qmult_0_l. }
    nra. }
  destruct (Qle_bool (pow2 (a - b)) (n # d)) eqn:E.
  - apply Qle_bool_iff in E. done.
  - split; [done|].
    replace (a - b - 1 + 1)%Z with (a - b)%Z by lia.
    apply Qnot_le_lt. intros H. apply Qle_bool_iff in H. congruence.
Qed.

Lemma ilog2_unique (x : Q) (l : Z) :
  pow2 l <= x → x < pow2 (l + 1) → ilog2 x = l.
Proof.
  intros H1 H2.
  assert (Hx : 0 < x) by (pose proof (pow2_pos l); lra).
  destruct (ilog2_spec x Hx) as [H3 H4].
  assert (pow2 l < pow2 (ilog2 x + 1)) as ?%pow2_lt_inv by lra.
  assert (pow2 (ilog2 x) < pow2 (l + 1)) as ?%pow2_lt_inv by lra.
  lia.
Qed.

Lemma ilog2_Qeq (x y : Q) : 0 < x → x == y → ilog2 x = ilog2 y.
Proof.
  intros Hx Hxy. destruct (ilog2_spec x Hx) as [H1 H2].
  symmetry. apply ilog2_unique; by rewrite <- Hxy.
Qed.

Lemma ilog2_lt (x : Q) (e : Z) : 0 < x → x < pow2 e → (ilog2 x < e)%Z.
Proof.
  intros Hx H. destruct (ilog2_spec x Hx) as [H1 _].
  apply pow2_lt_inv. lra.
Qed.

Lemma ilog2_ge (x : Q) (e : Z) : pow2 e <= x → (e <= ilog2 x)%Z.
Proof.
  intros H. assert (Hx : 0 < x) by (pose proof (pow2_pos e); lra).
  destruct (ilog2_spec x Hx) as [_ H2].
  assert (pow2 e < pow2 (ilog2 x + 1)) as ?%pow2_lt_inv by lra. lia.
Qed.


Lemma Zle_of_Qlt_succ (a b : Z) : inject_Z a < inject_Z b + 1 → (a <= b)%Z.
Proof.
  intros H. change 1 with (inject_Z 1) in H.
  rewrite <- inject_Z_plus, <- Zlt_Qlt in H. lia.
Qed.

Lemma py_round_le_int (x : Q) (N : Z) :
  x <= inject_Z N → (py_round x <= N)%Z.
Proof.
  intros H. pose proof (py_round_nearest x). apply Zle_of_Qlt_succ. lra.
Qed.

Lemma py_round_ge_int (x : Q) (N : Z) :
  inject_Z N <= x → (N <= py_round x)%Z.
Proof.
  intros H. pose proof (py_round_nearest x). apply Zle_of_Qlt_succ. lra.
Qed.

Lemma py_round_below_half (x : Q) (N : Z) :
  x < inject_Z N - (1 # 2) → (py_round x <= N - 1)%Z.
Proof.
  intros H. pose proof (py_round_nearest x).
  assert (py_round x < N)%Z by (rewrite Zlt_Qlt; lra). lia.
Qed.

Lemma py_round_above_half (x : Q) (N : Z) :
  inject_Z N + (1 # 2) < x → (N + 1 <= py_round x)%Z.
Proof.
  intros H. pose proof (py_round_nearest x).
  assert (N < py_round x)%Z by (rewrite Zlt_Qlt; lra). lia.
Qed.

Lemma py_round_unique (x : Q) (k : Z) :
  inject_Z k - (1 # 2) < x → x < inject_Z k + (1 # 2) → py_round x = k.
Proof.
  intros H1 H2. pose proof (py_round_nearest x).
  assert (py_round x <= k)%Z by (apply Zle_of_Qlt_succ; lra).
  assert (k <= py_round x)%Z by (apply Zle_of_Qlt_succ; lra).
  lia.
Qed.

(** *** The grid of the floats next to a number *)

Lemma round_nearest_even_zero (x : Q) : x == 0 → round_nearest_even x == 0.
Proof.
  intros Hx. unfold round_nearest_even.
  set (u := pow2 (ulp_exponent x)).
  assert (H : x / u == inject_Z 0) by (rewrite Hx; reflexivity).
  rewrite (py_round_Qeq _ _ H), py_round_integer. ring.
Qed.

Lemma ulp_exponent_Qeq (x y : Q) :
  ¬ x == 0 → x == y → ulp_exponent x = ulp_exponent y.
Proof.
  intros Hx Hxy. unfold ulp_exponent. f_equal. f_equal.
  apply ilog2_Qeq; [|by rewrite Hxy].
  pose proof (Qabs_nonneg x). destruct (Qeq_dec (Qabs x) 0) as [H0|H0]; [|lra].
  exfalso. apply Hx. revert H0. apply Qabs_case; intros; lra.
Qed.

Lemma round_nearest_even_Qeq (x y : Q) :
  x == y → round_nearest_even x == round_nearest_even y.
Proof.
  intros Hxy. destruct (Qeq_dec x 0) as [Hx|Hx].
  - rewrite !round_nearest_even_zero; [done| by rewrite <- Hxy |done].
  - unfold round_nearest_even. rewrite (ulp_exponent_Qeq x y Hx Hxy).
    set (u := pow2 (ulp_exponent y)).
    assert (H : x / u == y / u) by (by rewrite Hxy).
    by rewrite (py_round_Qeq _ _ H).
Qed.

(** The exponent of the last bit: at least -1074, and 52 below the
    exponent of the number when that is more. *)
Lemma ulp_exponent_le (x : Q) (e : Z) :
  ¬ x == 0 → Qabs x < pow2 (e + 53) → (-1074 <= e)%Z →
  (ulp_exponent x <= e)%Z.
Proof.
  intros Hx Hlt He. unfold ulp_exponent.
  assert (H0 : 0 < Qabs x).
  { pose proof (Qabs_nonneg x).
    destruct (Qeq_dec (Qabs x) 0) as [H0|H0]; [|lra].
    exfalso. apply Hx. revert H0. apply Qabs_case; intros; lra. }
  pose proof (ilog2_lt _ _ H0 Hlt). lia.
Qed.

Lemma ulp_exponent_ge (x : Q) : (-1074 <= ulp_exponent x)%Z.
Proof. unfold ulp_exponent. lia. Qed.

Lemma ulp_exponent_normal (x : Q) (e : Z) :
  pow2 e <= Qabs x → (-1022 <= e)%Z →
  ulp_exponent x = (ilog2 (Qabs x) - 52)%Z.
Proof.
  intros H He. unfold ulp_exponent. pose proof (ilog2_ge _ _ H). lia.
Qed.

(** A multiple of [2 ^ e] is a multiple of every smaller power of two. *)
Lemma multiple_pow2 (N : Z) (e e' : Z) :
  (e' <= e)%Z →
  inject_Z N * pow2 e == inject_Z (N * 2 ^ (e - e')) * pow2 e'.
Proof.
  intros H. rewrite inject_Z_mult, <- pow2_inject by lia.
  rewrite <- Qmult_assoc, <- pow2_add.
  by replace (e - e' + e')%Z with e by lia.
Qed.

(** A number on the grid of its floats is not rounded. *)
Lemma round_nearest_even_grid (x : Q) (N : Z) :
  x == inject_Z N * pow2 (ulp_exponent x) → round_nearest_even x == x.
Proof.
  intros H. unfold round_nearest_even.
  pose proof (pow2_pos (ulp_exponent x)) as Hu.
  set (u := pow2 (ulp_exponent x)) in *.
  assert (Hq : x / u == inject_Z N) by (rewrite H; field; lra).
  rewrite (py_round_Qeq _ _ Hq), py_round_integer. by rewrite H.
Qed.

Lemma round_nearest_even_representable (N e : Z) :
  (Z.abs N < 2 ^ 53)%Z → (-1074 <= e)%Z →
  round_nearest_even (inject_Z N * pow2 e) == inject_Z N * pow2 e.
Proof.
  intros HN He. set (x := inject_Z N * pow2 e).
  destruct (Qeq_dec x 0) as [Hx|Hx].
  { rewrite round_nearest_even_zero by done. by rewrite Hx. }
  assert (Hue : (ulp_exponent x <= e)%Z).
  { apply ulp_exponent_le; [done| |done].
    unfold x. rewrite Qabs_Qmult.
    pose proof (pow2_pos e). rewrite (Qabs_pos (pow2 e)) by lra.
    rewrite pow2_add, Qmult_comm. apply Qmult_lt_l; [done|].
    rewrite pow2_inject by lia.
    assert (Qabs (inject_Z N) == inject_Z (Z.abs N)) as -> by done.
    by rewrite <- Zlt_Qlt. }
  apply (round_nearest_even_grid x (N * 2 ^ (e - ulp_exponent x))).
  unfold x at 1. by apply multiple_pow2.
Qed.

(** What a float is: a multiple of its last bit. *)
Lemma is_binary64_grid (x : Q) :
  is_binary64 x = true →
  x == inject_Z (py_round (x / pow2 (ulp_exponent x)))
       * pow2 (ulp_exponent x).
Proof.
  unfold is_binary64. intros [H _]%andb_true_iff.
  apply Qeq_bool_iff in H. by rewrite <- H at 1.
Qed.

Lemma round_nearest_even_nonneg (x : Q) : 0 <= x → 0 <= round_nearest_even x.
Proof.
  intros Hx. unfold round_nearest_even.
  pose proof (pow2_pos (ulp_exponent x)) as Hu.
  set (u := pow2 (ulp_exponent x)) in *.
  assert (H : (0 <= py_round (x / u))%Z).
  { apply py_round_ge_int. apply Qle_shift_div_l; [done|].
    change (inject_Z 0) with 0. lra. }
  rewrite Zle_Qle in H. change (inject_Z 0) with 0 in H. nra.
Qed.

(** Rounding against a point [N * ulp] of the grid. *)
Lemma round_nearest_even_le (x : Q) (N : Z) :
  x <= inject_Z N * pow2 (ulp_exponent x) →
  round_nearest_even x <= inject_Z N * pow2 (ulp_exponent x).
Proof.
  intros H. unfold round_nearest_even.
  pose proof (pow2_pos (ulp_exponent x)) as Hu.
  set (u := pow2 (ulp_exponent x)) in *.
  assert (Hr : (py_round (x / u) <= N)%Z).
  { apply py_round_le_int. apply Qle_shift_div_r; [done|]. lra. }
  rewrite Zle_Qle in Hr. nra.
Qed.

Lemma round_nearest_even_below (x : Q) (N : Z) :
  x < (inject_Z N - (1 # 2)) * pow2 (ulp_exponent x) →
  round_nearest_even x < inject_Z N * pow2 (ulp_exponent x).
Proof.
  intros H. unfold round_nearest_even.
  pose proof (pow2_pos (ulp_exponent x)) as Hu.
  set (u := pow2 (ulp_exponent x)) in *.
  assert (Hr : (py_round (x / u) <= N - 1)%Z).
  { apply py_round_below_half. apply Qlt_shift_div_r; [done|]. lra. }
  assert (Hr' : (py_round (x / u) < N)%Z) by lia.
  rewrite Zlt_Qlt in Hr'. nra.
Qed.

Lemma round_nearest_even_above (x : Q) (N : Z) :
  (inject_Z N + (1 # 2)) * pow2 (ulp_exponent x) < x →
  inject_Z N * pow2 (ulp_exponent x) < round_nearest_even x.
Proof.
  intros H. unfold round_nearest_even.
  pose proof (pow2_pos (ulp_exponent x)) as Hu.
  set (u := pow2 (ulp_exponent x)) in *.
  assert (Hr : (N + 1 <= py_round (x / u))%Z).
  { apply py_round_above_half. apply Qlt_shift_div_l; [done|]. lra. }
  assert (Hr' : (N < py_round (x / u))%Z) by lia.
  rewrite Zlt_Qlt in Hr'. nra.
Qed.


(** *** The quotient of a float by an integer *)

Section Quotient.
Variables (x : Q) (g : Z).
Hypothesis Hfloat : is_binary64 x = true.
Hypothesis Hpos : 0 < x.
Hypothesis Hbound : x < pow2 52.
Hypothesis Hgap : (0 < g)%Z.

Local Lemma divisor_ge_1 : 1 <= inject_Z g.
Proof. change 1 with (inject_Z 1). rewrite <- Zle_Qle. lia. Qed.

Local Lemma quotient_times_divisor : x / inject_Z g * inject_Z g == x.
Proof. pose proof divisor_ge_1. field. lra. Qed.

Local Lemma quotient_pos : 0 < x / inject_Z g.
Proof.
  pose proof divisor_ge_1. apply Qlt_shift_div_l; [lra|]. lra.
Qed.

Local Lemma quotient_le_dividend : x / inject_Z g <= x.
Proof.
  pose proof divisor_ge_1. pose proof quotient_times_divisor. pose proof quotient_pos. nra.
Qed.

(** Half-integers lie on the grid of every number below [2 ^ 52]. *)
Lemma half_integer_grid (y : Q) (N : Z) :
  0 < y → y < pow2 52 →
  ∃ K : Z, inject_Z N / 2 == inject_Z K * pow2 (ulp_exponent y).
Proof.
  intros Hy0 Hy.
  assert (Hue : (ulp_exponent y <= -1)%Z).
  { apply ulp_exponent_le; [lra| |lia]. by rewrite Qabs_pos by lra. }
  exists (N * 2 ^ (-1 - ulp_exponent y))%Z.
  rewrite <- multiple_pow2 by done. change (pow2 (-1)) with (1 # 2). field.
Qed.

(** The last bit of the quotient, times the divisor, is less than twice
    the last bit of the dividend. *)
Local Lemma ulp_quotient :
  1 # 4 <= x / inject_Z g →
  pow2 (ulp_exponent (x / inject_Z g)) * inject_Z g
  < 2 * pow2 (ulp_exponent x).
Proof.
  intros Hr. pose proof quotient_pos as Hr0.
  pose proof quotient_times_divisor as HrG. pose proof divisor_ge_1 as HG.
  assert (Hn : ulp_exponent (x / inject_Z g)
               = (ilog2 (x / inject_Z g) - 52)%Z).
  { rewrite (ulp_exponent_normal (x / inject_Z g) (-2));
      [|by rewrite Qabs_pos by lra|lia].
    f_equal. apply ilog2_Qeq; [|by rewrite Qabs_pos by lra].
    apply Qabs_case; intros; lra. }
  destruct (ilog2_spec (x / inject_Z g) Hr0) as [Hlo _].
  destruct (ilog2_spec x Hpos) as [_ Hhi].
  assert (Hx : (ilog2 x - 52 <= ulp_exponent x)%Z).
  { unfold ulp_exponent.
    rewrite (ilog2_Qeq (Qabs x) x); [lia| |by rewrite Qabs_pos by lra].
    apply Qabs_case; intros; lra. }
  rewrite Hn.
  apply Qlt_le_trans with (pow2 (ilog2 x - 52 + 1)).
  - replace (ilog2 x - 52 + 1)%Z with ((ilog2 x + 1) + -52)%Z by lia.
    replace (ilog2 (x / inject_Z g) - 52)%Z
      with (ilog2 (x / inject_Z g) + -52)%Z by lia.
    rewrite (pow2_add (ilog2 x + 1) (-52)).
    rewrite (pow2_add (ilog2 (x / inject_Z g)) (-52)).
    pose proof (pow2_pos (-52)) as H52.
    set (c := pow2 (-52)) in *.
    set (a := pow2 (ilog2 (x / inject_Z g))) in *.
    set (b := pow2 (ilog2 x + 1)) in *.
    assert (Hle : a * inject_Z g <= x / inject_Z g * inject_Z g)
      by (apply Qmult_le_compat_r; [done|lra]).
    assert (HaG : a * inject_Z g < b) by lra.
    assert (Heq : a * c * inject_Z g == a * inject_Z g * c) by ring.
    rewrite Heq. apply Qmult_lt_compat_r; assumption.
  - rewrite <- pow2_succ. apply pow2_le. lia.
Qed.

(** A quotient below (above) a half-integer is rounded to a float below
    (above) it: the dividend is a float, so it is at least one last bit
    away from the half-integer times the divisor, which is more than half a
    last bit of the quotient. *)
Lemma quotient_below (j : Z) :
  (0 <= j)%Z → x / inject_Z g < inject_Z j + (1 # 2) →
  round_nearest_even (x / inject_Z g) < inject_Z j + (1 # 2).
Proof.
  intros Hj Hlt. pose proof quotient_pos as Hr0.
  pose proof quotient_le_dividend as Hrx.
  pose proof divisor_ge_1 as HG. pose proof quotient_times_divisor as HrG.
  assert (Hj' : 0 <= inject_Z j)
    by (change 0 with (inject_Z 0); by rewrite <- Zle_Qle).
  destruct (Qlt_le_dec (x / inject_Z g) (1 # 4)) as [Hsmall|Hbig].
  - assert (Hue : (ulp_exponent (x / inject_Z g) <= -2)%Z).
    { apply ulp_exponent_le; [lra| |lia]. rewrite Qabs_pos by lra.
      apply Qlt_trans with (1 # 4); [done|]. by apply (pow2_lt (-2) 51). }
    pose proof (multiple_pow2 1 (-2) _ Hue) as Hgrid.
    change (inject_Z 1 * pow2 (-2)) with (1 # 4) in Hgrid.
    pose proof (round_nearest_even_le (x / inject_Z g)
                  (1 * 2 ^ (-2 - ulp_exponent (x / inject_Z g)))) as H.
    rewrite <- Hgrid in H. specialize (H ltac:(lra)). lra.
  - destruct (half_integer_grid (x / inject_Z g) (2 * j + 1))
      as [H' HH']; [done|lra|].
    destruct (half_integer_grid x ((2 * j + 1) * g)) as [N' HN'];
      [done|done|].
    pose proof (is_binary64_grid x Hfloat) as HM.
    pose proof (ulp_quotient Hbig) as Hulp.
    pose proof (pow2_pos (ulp_exponent (x / inject_Z g))) as Hu.
    pose proof (pow2_pos (ulp_exponent x)) as Hv.
    set (M := py_round (x / pow2 (ulp_exponent x))) in *.
    set (u := pow2 (ulp_exponent (x / inject_Z g))) in *.
    set (v := pow2 (ulp_exponent x)) in *.
    assert (Hh : inject_Z j + (1 # 2) == inject_Z H' * u).
    { rewrite <- HH'. rewrite inject_Z_plus, inject_Z_mult.
      change (inject_Z 2) with 2. change (inject_Z 1) with 1. field. }
    assert (HT : (inject_Z j + (1 # 2)) * inject_Z g == inject_Z N' * v).
    { rewrite <- HN'. rewrite inject_Z_mult, inject_Z_plus, inject_Z_mult.
      change (inject_Z 2) with 2. change (inject_Z 1) with 1. field. }
    assert (HMN : (M < N')%Z) by (rewrite Zlt_Qlt; nra).
    assert (HMN' : inject_Z M + 1 <= inject_Z N').
    { change 1 with (inject_Z 1). rewrite <- inject_Z_plus, <- Zle_Qle.
      lia. }
    rewrite Hh. apply round_nearest_even_below. fold u.
    assert (Hdiff : v <= (inject_Z j + (1 # 2) - x / inject_Z g)
                         * inject_Z g) by nra.
    nra.
Qed.

Lemma quotient_above (j : Z) :
  (0 <= j)%Z → inject_Z j + (1 # 2) < x / inject_Z g →
  inject_Z j + (1 # 2) < round_nearest_even (x / inject_Z g).
Proof.
  intros Hj Hlt. pose proof quotient_pos as Hr0.
  pose proof quotient_le_dividend as Hrx.
  pose proof divisor_ge_1 as HG. pose proof quotient_times_divisor as HrG.
  assert (Hj' : 0 <= inject_Z j)
    by (change 0 with (inject_Z 0); by rewrite <- Zle_Qle).
  assert (Hbig : 1 # 4 <= x / inject_Z g) by lra.
  destruct (half_integer_grid (x / inject_Z g) (2 * j + 1))
    as [H' HH']; [done|lra|].
  destruct (half_integer_grid x ((2 * j + 1) * g)) as [N' HN'];
    [done|done|].
  pose proof (is_binary64_grid x Hfloat) as HM.
  pose proof (ulp_quotient Hbig) as Hulp.
  pose proof (pow2_pos (ulp_exponent (x / inject_Z g))) as Hu.
  pose proof (pow2_pos (ulp_exponent x)) as Hv.
  set (M := py_round (x / pow2 (ulp_exponent x))) in *.
  set (u := pow2 (ulp_exponent (x / inject_Z g))) in *.
  set (v := pow2 (ulp_exponent x)) in *.
  assert (Hh : inject_Z j + (1 # 2) == inject_Z H' * u).
  { rewrite <- HH'. rewrite inject_Z_plus, inject_Z_mult.
    change (inject_Z 2) with 2. change (inject_Z 1) with 1. field. }
  assert (HT : (inject_Z j + (1 # 2)) * inject_Z g == inject_Z N' * v).
  { rewrite <- HN'. rewrite inject_Z_mult, inject_Z_plus, inject_Z_mult.
    change (inject_Z 2) with 2. change (inject_Z 1) with 1. field. }
  assert (HMN : (N' < M)%Z) by (rewrite Zlt_Qlt; nra).
  assert (HMN' : inject_Z N' + 1 <= inject_Z M).
  { change 1 with (inject_Z 1). rewrite <- inject_Z_plus, <- Zle_Qle. lia. }
  rewrite Hh. apply round_nearest_even_above. fold u.
  assert (Hdiff : v <= (x / inject_Z g - (inject_Z j + (1 # 2)))
                       * inject_Z g) by nra.
  nra.
Qed.

End Quotient.

(** Rounding the quotient of a float by an integer to a float does not
    change the integer it is nearest to. *)
Lemma quotient_round (x : Q) (g : Z) :
  is_binary64 x = true → 0 < x → x < pow2 52 → (0 < g)%Z →
  py_round (round_nearest_even (x / inject_Z g)) = py_round (x / inject_Z g)
  ∧ 0 <= round_nearest_even (x / inject_Z g)
  ∧ round_nearest_even (x / inject_Z g) < pow2 53.
Proof.
  intros Hfloat Hpos Hbound Hgap.
  pose proof (quotient_pos x g Hpos Hgap) as Hr0.
  pose proof (quotient_le_dividend x g Hpos Hgap) as Hrx.
  remember (x / inject_Z g) as r eqn:Er.
  pose proof (py_round_nearest r) as [Hlo Hhi].
  pose proof (round_nearest_even_nonneg r ltac:(lra)) as Hnn.
  assert (H5253 : pow2 52 + 1 < pow2 53) by reflexivity.
  assert (Hk : (0 <= py_round r)%Z).
  { apply py_round_ge_int. change (inject_Z 0) with 0. lra. }
  set (k := py_round r) in *.
  assert (Hk' : 0 <= inject_Z k)
    by (change 0 with (inject_Z 0); by rewrite <- Zle_Qle).
  assert (Htie : ∀ N : Z, r == inject_Z N / 2 → round_nearest_even r == r).
  { intros N HN.
    assert (HN' : r == inject_Z N * pow2 (-1))
      by (rewrite HN; change (pow2 (-1)) with (1 # 2); field).
    rewrite (round_nearest_even_Qeq _ _ HN'), HN'.
    apply round_nearest_even_representable; [|lia].
    assert (H2r : inject_Z N == 2 * r) by (rewrite HN; field).
    assert (H0 : 0 < inject_Z N) by lra.
    assert (H1 : inject_Z N < inject_Z (2 ^ 53)).
    { rewrite <- pow2_inject by lia. rewrite (pow2_succ 52). lra. }
    change 0 with (inject_Z 0) in H0. rewrite <- Zlt_Qlt in H0, H1. lia. }
  destruct (Qlt_le_dec r (inject_Z k + (1 # 2))) as [Hup|Hup].
  - destruct (Qlt_le_dec (inject_Z k - (1 # 2)) r) as [Hdn|Hdn].
    + pose proof (quotient_below x g Hfloat Hpos Hbound Hgap k Hk) as Hb.
      rewrite <- Er in Hb. specialize (Hb Hup).
      assert (Ha : inject_Z k - (1 # 2) < round_nearest_even r).
      { destruct (Z.eq_dec k 0%Z) as [Hz|Hne].
        - rewrite Hz. change (inject_Z 0) with 0. lra.
        - pose proof (quotient_above x g Hfloat Hpos Hbound Hgap (k - 1)
                        ltac:(lia)) as Ha.
          rewrite <- Er in Ha. unfold Z.sub in Ha. rewrite inject_Z_plus in Ha.
          change (inject_Z (-1)) with (-1 # 1) in Ha.
          assert (inject_Z k + (-1 # 1) + (1 # 2) == inject_Z k - (1 # 2))
            as Heq by ring.
          rewrite Heq in Ha. by apply Ha. }
      split; [by apply py_round_unique|]. split; [done|]. lra.
    + assert (Hr : r == inject_Z (2 * k - 1) / 2).
      { unfold Z.sub. rewrite inject_Z_plus, inject_Z_mult.
        change (inject_Z 2) with 2. change (inject_Z (-1)) with (-1 # 1).
        assert (Hc : (2 * inject_Z k + (-1 # 1)) / 2 == inject_Z k - (1 # 2))
          by field.
        rewrite Hc. lra. }
      pose proof (Htie _ Hr) as Hrne.
      split; [by apply py_round_Qeq|]. split; [done|]. lra.
  - assert (Hr : r == inject_Z (2 * k + 1) / 2).
    { rewrite inject_Z_plus, inject_Z_mult.
      change (inject_Z 2) with 2. change (inject_Z 1) with 1.
      assert (Hc : (2 * inject_Z k + 1) / 2 == inject_Z k + (1 # 2))
        by field.
      rewrite Hc. lra. }
    pose proof (Htie _ Hr) as Hrne.
    split; [by apply py_round_Qeq|]. split; [done|]. lra.
Qed.

(** An [int] below [2 ^ 53] is a float. *)
Lemma inject_Z_binary64 (n : Z) :
  (Z.abs n < 2 ^ 53)%Z →
  round_nearest_even (inject_Z n) == inject_Z n
  ∧ overflows (round_nearest_even (inject_Z n)) = false.
Proof.
  intros Hn.
  assert (H : round_nearest_even (inject_Z n) == inject_Z n).
  { pose proof (round_nearest_even_representable n 0 Hn ltac:(lia)) as H.
    change (pow2 0) with 1 in H.
    assert (Heq : inject_Z n * 1 == inject_Z n) by ring.
    by rewrite (round_nearest_even_Qeq _ _ Heq), Heq in H. }
  split; [done|]. unfold overflows.
  destruct (Qle_bool (pow2 1024) _) eqn:E; [|done].
  apply Qle_bool_iff in E. rewrite H in E.
  assert (Qabs (inject_Z n) == inject_Z (Z.abs n)) as Ha by done.
  rewrite Ha in E.
  assert (H53 : inject_Z (Z.abs n) < pow2 53).
  { rewrite pow2_inject by lia. by rewrite <- Zlt_Qlt. }
  pose proof (pow2_lt 53 1024 ltac:(lia)). lra.
Qed.

Lemma not_overflows (y : Q) : 0 <= y → y < pow2 53 → overflows y = false.
Proof.
  intros H0 H. unfold overflows.
  destruct (Qle_bool (pow2 1024) _) eqn:E; [|done].
  apply Qle_bool_iff in E. rewrite Qabs_pos in E by done.
  pose proof (pow2_lt 53 1024 ltac:(lia)). lra.
Qed.

(** The float model of [get_atm_strike] on a float or [int] spot price and
    an [int] gap: the multiple of the gap that exact arithmetic gives. *)
Lemma get_atm_strike_int_gap (spot_price : number) (x : Q) (strike_gap : Z) :
  well_formed spot_price = true → value spot_price = Some x →
  0 < x → x < pow2 52 → (0 < strike_gap < 2 ^ 53)%Z →
  Binary64.get_atm_strike spot_price (Int strike_gap)
  = Ok (Int (py_round (x / inject_Z strike_gap) * strike_gap)).
Proof.
  intros Hwf Hval Hpos Hbound [Hg0 Hg53].
  unfold Binary64.get_atm_strike.
  destruct spot_price as [n|[y| |]]; simpl in Hval; [| |done..].
  - (* int / int *)
    injection Hval as <-. simpl.
    assert (Hn : (Z.abs n < 2 ^ 53)%Z).
    { assert (H0 : inject_Z 0 < inject_Z n) by done.
      assert (H1 : inject_Z n < inject_Z (2 ^ 52))
        by (by rewrite <- pow2_inject by lia).
      rewrite <- Zlt_Qlt in H0, H1. lia. }
    assert (Hf : is_binary64 (inject_Z n) = true).
    { destruct (inject_Z_binary64 n Hn) as [H1 H2]. unfold is_binary64.
      apply andb_true_iff. split; [by apply Qeq_bool_iff|].
      apply negb_true_iff. unfold overflows in *.
      destruct (Qle_bool (pow2 1024) (Qabs (inject_Z n))) eqn:E; [|done].
      apply Qle_bool_iff in E. rewrite <- H1 in E.
      apply Qle_bool_iff in E. congruence. }
    destruct (quotient_round (inject_Z n) strike_gap Hf Hpos Hbound Hg0)
      as (Hr & H0 & H53).
    destruct (strike_gap =? 0)%Z eqn:E; [lia|].
    rewrite (not_overflows _ H0 H53). simpl. by rewrite Hr.
  - (* float / int *)
    injection Hval as ->. simpl in Hwf. simpl.
    destruct (inject_Z_binary64 strike_gap ltac:(lia)) as [Hg Hgo].
    rewrite Hgo. simpl.
    set (gf := round_nearest_even (inject_Z strike_gap)) in *.
    assert (Hgz : Qeq_bool gf 0 = false).
    { destruct (Qeq_bool gf 0) eqn:E; [|done].
      apply Qeq_bool_iff in E. rewrite Hg in E.
      assert (H0 : inject_Z 0 < inject_Z strike_gap) by (by rewrite <- Zlt_Qlt).
      change (inject_Z 0) with 0 in H0. lra. }
    rewrite Hgz. simpl.
    destruct (quotient_round x strike_gap Hwf Hpos Hbound Hg0)
      as (Hr & H0 & H53).
    assert (Hq : x / gf == x / inject_Z strike_gap) by (by rewrite Hg).
    pose proof (round_nearest_even_Qeq _ _ Hq) as Hrq.
    unfold fl.
    rewrite (not_overflows (round_nearest_even (x / gf)))
      by (rewrite Hrq; done).
    simpl. by rewrite (py_round_Qeq _ _ Hrq), Hr.
Qed.

End Binary64Facts.

(** ** [get_atm_strike] and [get_strike_range] *)

Section StrikeGrid.
Import Chains.
Local Open Scope Q_scope.

Lemma py_div_Ok (x y : Q) : ¬ y == 0 → py_div x y = Ok (x / y).
Proof.
  intros Hy. unfold py_div.
  destruct (Qeq_bool y 0) eqn:E; [|done].
  apply Qeq_bool_iff in E. contradiction.
Qed.

Lemma multiple_distance (s g : Q) (n : Z) :
  0 < g → inject_Z n * g - s == (inject_Z n - s / g) * g.
Proof. intros Hg. field. lra. Qed.

(** For a positive gap, the multiple of the gap at the integer nearest to
    the quotient is at most half a gap away from the spot price, and no
    other integer multiple of the gap is closer. *)
Lemma nearest_multiple (spot_price strike_gap : Q) :
  0 < strike_gap →
  Qabs (inject_Z (py_round (spot_price / strike_gap)) * strike_gap
        - spot_price) <= strike_gap / 2
  ∧ ∀ m : Z, Qabs (inject_Z (py_round (spot_price / strike_gap)) * strike_gap
                   - spot_price)
             <= Qabs (inject_Z m * strike_gap - spot_price).
Proof.
  intros Hg.
  pose proof (py_round_nearest (spot_price / strike_gap)) as [Hlo Hhi].
  set (n := py_round (spot_price / strike_gap)) in *.
  set (q := spot_price / strike_gap) in *.
  assert (Hn : Qabs (inject_Z n - q) <= 1 # 2) by (apply Qabs_Qle_condition; lra).
  assert (Habs : ∀ k : Z, Qabs (inject_Z k * strike_gap - spot_price)
                          == Qabs (inject_Z k - q) * strike_gap).
  { intros k. rewrite (multiple_distance spot_price strike_gap k Hg).
    fold q. rewrite Qabs_Qmult. rewrite (Qabs_pos strike_gap) by lra. done. }
  split.
  - rewrite (Habs n).
    assert (Hhalf : strike_gap / 2 == (1 # 2) * strike_gap) by field.
    rewrite Hhalf. apply Qmult_le_compat_r; [done|lra].
  - intros m. rewrite (Habs n), (Habs m). apply Qmult_le_compat_r; [|lra].
    destruct (Z.eq_dec m n) as [->|Hne]; [apply Qle_refl|].
    apply Qle_trans with (1 # 2); [done|].
    assert (Hd : inject_Z m <= inject_Z n - 1 ∨ inject_Z n + 1 <= inject_Z m).
    { destruct (Z_lt_le_dec m n) as [Hlt|Hge]; [left|right].
      - change 1 with (inject_Z 1). unfold Qminus.
        rewrite <- inject_Z_opp, <- inject_Z_plus.
        rewrite <- Zle_Qle. lia.
      - change 1 with (inject_Z 1). rewrite <- inject_Z_plus.
        rewrite <- Zle_Qle. lia. }
    apply Qabs_case; intros Hs; destruct Hd; lra.
Qed.

(** C6, as the code has it: for a spot price that is a float or an [int],
    positive and below [2 ^ 52], and a strike gap that is a positive [int]
    (below [2 ^ 53]), like the 50 of the program.  [get_atm_strike] returns
    the [int] [n * strike_gap], which is what exact arithmetic gives; that
    strike is at most half a gap away from the spot price, and no other
    integer multiple of the gap is closer.  The float quotient is rounded,
    but never across a half-integer. *)
Theorem get_atm_strike_closest (spot_price : Binary64.number) (x : Q)
    (strike_gap : Z) :
  Binary64.well_formed spot_price = true →
  Binary64.value spot_price = Some x →
  0 < x → x < Binary64.pow2 52 → (0 < strike_gap < 2 ^ 53)%Z →
  ∃ n : Z,
    Binary64.get_atm_strike spot_price (Binary64.Int strike_gap)
    = Ok (Binary64.Int (n * strike_gap))
    ∧ get_atm_strike x (inject_Z strike_gap)
      = Ok (inject_Z n * inject_Z strike_gap)
    ∧ Qabs (inject_Z (n * strike_gap) - x) <= inject_Z strike_gap / 2
    ∧ ∀ m : Z, Qabs (inject_Z (n * strike_gap) - x)
               <= Qabs (inject_Z (m * strike_gap) - x).
Proof.
  intros Hwf Hval Hpos Hbound Hgap.
  assert (Hg : 0 < inject_Z strike_gap).
  { change 0 with (inject_Z 0). rewrite <- Zlt_Qlt. lia. }
  destruct (nearest_multiple x (inject_Z strike_gap) Hg) as [Hhalf Hclosest].
  exists (py_round (x / inject_Z strike_gap)). split.
  { by apply get_atm_strike_int_gap. }
  split.
  { unfold get_atm_strike. by rewrite py_div_Ok by lra. }
  split.
  - by rewrite inject_Z_mult.
  - intros m. rewrite !inject_Z_mult. apply Hclosest.
Qed.

Lemma get_atm_strike_closest_witness :
  ∃ n : Z,
    Binary64.get_atm_strike (Binary64.Float (Binary64.Finite (78049 # 4)))
      (Binary64.Int 50)
    = Ok (Binary64.Int (n * 50))
    ∧ get_atm_strike (78049 # 4) (inject_Z 50)
      = Ok (inject_Z n * inject_Z 50)
    ∧ Qabs (inject_Z (n * 50) - (78049 # 4)) <= inject_Z 50 / 2
    ∧ ∀ m : Z, Qabs (inject_Z (n * 50) - (78049 # 4))
               <= Qabs (inject_Z (m * 50) - (78049 # 4)).
Proof.
  apply (get_atm_strike_closest
           (Binary64.Float (Binary64.Finite (78049 # 4))) (78049 # 4) 50).
  - vm_compute. reflexivity.
  - reflexivity.
  - reflexivity.
  - vm_compute. reflexivity.
  - lia.
Defined.

(** C6 as stated fails for a strike gap that is a float.  With the floats
    of [0.75] and [0.1], the quotient is rounded to [7.5], [round] takes it
    to 8, and the result is the float of [0.8]: it is 8 times the gap, but
    farther from the spot price than half the gap, and 7 times the gap is
    closer. *)
Lemma get_atm_strike_float_gap_counterexample :
  ∃ spot gap atm : Q,
    Binary64.literal (75 # 100) = Binary64.Finite spot
    ∧ Binary64.literal (1 # 10) = Binary64.Finite gap
    ∧ Binary64.get_atm_strike (Binary64.Float (Binary64.Finite spot))
        (Binary64.Float (Binary64.Finite gap))
      = Ok (Binary64.Float (Binary64.Finite atm))
    ∧ 0 < spot ∧ 0 < gap
    ∧ atm == 8 * gap
    ∧ ¬ Qabs (atm - spot) <= gap / 2
    ∧ Qabs (7 * gap - spot) < Qabs (atm - spot).
Proof.
  eexists _, _, _. split; [vm_compute; reflexivity|].
  split; [vm_compute; reflexivity|].
  split; [vm_compute; reflexivity|].
  split; [reflexivity|]. split; [reflexivity|].
  split; [reflexivity|]. split; [|reflexivity].
  intros H. vm_compute in H. by apply H.
Qed.

(** The same call with the gap of the program. *)
Example get_atm_strike_float_19512 :
  Binary64.get_atm_strike (Binary64.Float (Binary64.literal (1951235 # 100)))
    (Binary64.Int 50)
  = Ok (Binary64.Int 19500).
Proof. vm_compute. reflexivity. Qed.

Example get_atm_strike_19512 :
  get_atm_strike (1951235 # 100) 50 = Ok (inject_Z 390 * 50).
Proof. reflexivity. Qed.

(** Ties go to the even multiple: 19525 lies halfway between 19500 and
    19550 and yields 390 * 50. *)
Example get_atm_strike_tie :
  get_atm_strike 19525 50 = Ok (inject_Z 390 * 50).
Proof. reflexivity. Qed.

Lemma foldl_append {A B} (f : A → B) (xs : list A) (acc : list B) :
  foldl (λ l x, l ++ [f x]) acc xs = acc ++ (f <$> xs).
Proof.
  revert acc. induction xs as [|x xs IH]; intros acc; simpl.
  - by rewrite app_nil_r.
  - rewrite IH. by rewrite <- app_assoc.
Qed.

Lemma get_strike_range_lookup atm_strike num_strikes strike_gap (i : nat) x :
  get_strike_range atm_strike num_strikes strike_gap !! i = Some x ↔
  (Z.of_nat i < 2 * num_strikes + 1)%Z
  ∧ x = atm_strike + inject_Z (- num_strikes + Z.of_nat i) * strike_gap.
Proof.
  unfold get_strike_range, py_range. rewrite foldl_append. simpl.
  rewrite list_lookup_fmap.
  destruct (decide (Z.of_nat i < num_strikes + 1 - - num_strikes)%Z) as [Hlt|Hge].
  - rewrite lookup_seqZ_lt by done. simpl. split.
    + intros [= <-]. split; [lia|done].
    + intros [_ ->]. done.
  - rewrite lookup_seqZ_ge by lia. simpl. split; [done|]. intros [? _]. lia.
Qed.

Lemma get_strike_range_length atm_strike num_strikes strike_gap :
  length (get_strike_range atm_strike num_strikes strike_gap)
  = Z.to_nat (2 * num_strikes + 1).
Proof.
  unfold get_strike_range, py_range. rewrite foldl_append. simpl.
  rewrite length_fmap, length_seqZ. f_equal. lia.
Qed.

(** C9.  For [num_strikes >= 0] and a positive gap, [get_strike_range]
    returns [2 * num_strikes + 1] strikes; consecutive strikes differ by
    exactly the gap, so the list is strictly increasing; it starts at
    [atm_strike - num_strikes * strike_gap], has [atm_strike] in the middle
    and ends at [atm_strike + num_strikes * strike_gap]. *)
Theorem get_strike_range_grid (atm_strike : Q) (num_strikes : Z) (strike_gap : Q) :
  (0 <= num_strikes)%Z → 0 < strike_gap →
  let strikes := get_strike_range atm_strike num_strikes strike_gap in
  length strikes = Z.to_nat (2 * num_strikes + 1)
  ∧ (∀ (i : nat) x y,
       strikes !! i = Some x → strikes !! S i = Some y → y == x + strike_gap)
  ∧ (∀ (i j : nat) x y,
       (i < j)%nat → strikes !! i = Some x → strikes !! j = Some y → x < y)
  ∧ (∃ first, head strikes = Some first
              ∧ first == atm_strike - inject_Z num_strikes * strike_gap)
  ∧ (∃ middle, strikes !! Z.to_nat num_strikes = Some middle
               ∧ middle == atm_strike)
  ∧ (∃ final, last strikes = Some final
              ∧ final == atm_strike + inject_Z num_strikes * strike_gap).
Proof.
  intros Hn Hg strikes. subst strikes.
  split; [apply get_strike_range_length|].
  split; [|split; [|split; [|split]]].
  - intros i x y Hx Hy.
    apply get_strike_range_lookup in Hx as [_ ->].
    apply get_strike_range_lookup in Hy as [_ ->].
    rewrite Nat2Z.inj_succ. unfold Z.succ.
    rewrite !inject_Z_plus. change (inject_Z 1) with 1. ring.
  - intros i j x y Hij Hx Hy.
    apply get_strike_range_lookup in Hx as [_ ->].
    apply get_strike_range_lookup in Hy as [_ ->].
    assert (Hlt : inject_Z (- num_strikes + Z.of_nat i)
                  < inject_Z (- num_strikes + Z.of_nat j))
      by (rewrite <- Zlt_Qlt; lia).
    apply Qplus_lt_r. apply Qmult_lt_compat_r; done.
  - eexists. split.
    + rewrite head_lookup. apply get_strike_range_lookup. split; [lia|done].
    + simpl. rewrite Z.add_0_r. rewrite inject_Z_opp. ring.
  - eexists. split.
    + apply get_strike_range_lookup. split; [lia|done].
    + rewrite Z2Nat.id by done. rewrite Z.add_opp_diag_l.
      change (inject_Z 0) with 0. ring.
  - eexists. split.
    + rewrite last_lookup, get_strike_range_length.
      apply get_strike_range_lookup. split; [lia|done].
    + replace (- num_strikes + Z.of_nat (Init.Nat.pred (Z.to_nat (2 * num_strikes + 1))))%Z
        with num_strikes by lia. done.
Qed.

Lemma get_strike_range_grid_witness :
  (0 <= 10)%Z ∧ 0 < 50 ∧
  let strikes := get_strike_range 19500 10 50 in
  length strikes = Z.to_nat (2 * 10 + 1)
  ∧ (∀ (i : nat) x y,
       strikes !! i = Some x → strikes !! S i = Some y → y == x + 50)
  ∧ (∀ (i j : nat) x y,
       (i < j)%nat → strikes !! i = Some x → strikes !! j = Some y → x < y)
  ∧ (∃ first, head strikes = Some first
              ∧ first == 19500 - inject_Z 10 * 50)
  ∧ (∃ middle, strikes !! Z.to_nat 10 = Some middle ∧ middle == 19500)
  ∧ (∃ final, last strikes = Some final
              ∧ final == 19500 + inject_Z 10 * 50).
Proof.
  split; [lia|]. split; [reflexivity|].
  apply (get_strike_range_grid 19500 10 50); [lia | reflexivity].
Defined.

End StrikeGrid.

(** ** [build_options_chain] *)

Section ChainFacts.
Import Chains Policy.
Local Open Scope Q_scope.

Lemma Qpos_b_true (x : Q) : Qpos_b x = true ↔ 0 < x.
Proof.
  unfold Qpos_b. rewrite Qlt_alt. destruct (Qcompare 0 x); split; congruence.
Qed.

Lemma guard_true (ltp t : Q) : Qpos_b ltp && Qpos_b t = true ↔ 0 < ltp ∧ 0 < t.
Proof. rewrite andb_true_iff, !Qpos_b_true. done. Qed.

(** The time basis of the specification never yields zero: the guard
    [time_to_expiry > 0] of lines 423 and 479 holds for each of its
    results, the floor included. *)
Lemma yearFraction_pos (expiryInstant referenceInstant : Q) :
  0 < TimeBasis.yearFraction expiryInstant referenceInstant.
Proof.
  unfold TimeBasis.yearFraction.
  destruct (Qle_bool (expiryInstant - referenceInstant) 0) eqn:E.
  - reflexivity.
  - assert (H : ¬ expiryInstant - referenceInstant <= 0).
    { intros H. apply Qle_bool_iff in H. congruence. }
    apply Qnot_le_lt in H. apply Qlt_shift_div_l; lra.
Qed.

Lemma yearFraction_at_expiry (instant : Q) :
  TimeBasis.yearFraction instant instant = TimeBasis.time_floor.
Proof.
  unfold TimeBasis.yearFraction.
  destruct (Qle_bool (instant - instant) 0) eqn:E; [done|].
  assert (H : instant - instant <= 0) by lra.
  apply Qle_bool_iff in H. congruence.
Qed.

Section WithCalculator.
Context {gc : GreeksCalculator}.

Lemma option_side_policy option_type inst quotes spot_price strike_price t c :
  option_side option_type inst quotes spot_price strike_price t = Ok c →
  volatility_policy option_type quotes spot_price strike_price t inst c.
Proof.
  destruct inst as [i|]; simpl; [|by intros [= <-]].
  fold (quoted_ltp quotes i). unfold implied_volatility.
  destruct (Qpos_b (quoted_ltp quotes i) && Qpos_b t) eqn:Hguard.
  - apply guard_true in Hguard.
    destruct (calculate_implied_volatility _ _ _ _ _ _) as [iv|] eqn:Hiv;
      simpl; [|done].
    destruct (calculate_all_greeks _ _ _ _ _ _) as [g|] eqn:Hg; simpl; [|done].
    intros [= <-]. simpl. split; [done|]. split.
    + intros _. exists iv. unfold greeks_columns. simpl. by destruct g.
    + intros Hn. contradiction.
  - assert (Hn : ¬ (0 < quoted_ltp quotes i ∧ 0 < t)).
    { intros H. apply guard_true in H. congruence. }
    simpl.
    destruct (calculate_all_greeks _ _ _ _ _ _) as [g|] eqn:Hg; simpl; [|done].
    intros [= <-]. simpl. split; [done|]. split.
    + intros H. contradiction.
    + intros _. unfold greeks_columns. simpl. by destruct g.
Qed.

Lemma build_row_Ok instruments quotes spot_price t futures_price timestamp
    strike_price r :
  build_row instruments quotes spot_price t futures_price timestamp
    strike_price = Ok r →
  Strike_Price r = strike_price
  ∧ option_side "CE" (find_instrument instruments strike_price "CE") quotes
      spot_price strike_price t = Ok (CE r)
  ∧ option_side "PE" (find_instrument instruments strike_price "PE") quotes
      spot_price strike_price t = Ok (PE r).
Proof.
  unfold build_row.
  destruct (option_side "CE" _ _ _ _ _) as [ce|]; simpl; [|done].
  destruct (option_side "PE" _ _ _ _ _) as [pe|]; simpl; [|done].
  by intros [= <-].
Qed.

Lemma build_options_chain_unfold instruments quotes strikes spot_price
    expiry_date futures_price timestamp :
  build_options_chain instruments quotes strikes spot_price expiry_date
    futures_price timestamp
  = t ← get_time_to_expiry expiry_date None;
    comprehension (build_row instruments quotes spot_price t futures_price
                     timestamp) strikes.
Proof.
  unfold build_options_chain.
  destruct (get_time_to_expiry expiry_date None) as [t|]; simpl; [|done].
  rewrite for_each_append.
  by destruct (comprehension _ strikes).
Qed.

Lemma option_side_returns option_type inst quotes spot_price strike_price t :
  never_raises gc →
  returns (option_side option_type inst quotes spot_price strike_price t).
Proof.
  intros (_ & Hiv & Hg). destruct inst as [i|]; simpl; [|by eexists].
  unfold implied_volatility.
  destruct (Qpos_b _ && Qpos_b t).
  - destruct (Hiv (default 0 (last_price (default empty_quote
        (quotes !! ("NFO:" +:+ tradingsymbol i)%string)))) spot_price
        strike_price t option_type None) as [iv ->]. simpl.
    destruct (Hg spot_price strike_price t iv option_type None) as [g ->].
    simpl. by eexists.
  - simpl.
    destruct (Hg spot_price strike_price t (15 # 100) option_type None)
      as [g ->].
    simpl. by eexists.
Qed.

Lemma build_row_returns instruments quotes spot_price t futures_price
    timestamp strike_price :
  never_raises gc →
  returns (build_row instruments quotes spot_price t futures_price timestamp
             strike_price).
Proof.
  intros Hgc. unfold build_row.
  destruct (option_side_returns "CE"
              (find_instrument instruments strike_price "CE") quotes
              spot_price strike_price t Hgc) as [ce ->].
  destruct (option_side_returns "PE"
              (find_instrument instruments strike_price "PE") quotes
              spot_price strike_price t Hgc) as [pe ->].
  simpl. by eexists.
Qed.

(** Rows that are returned are the rows of the strikes, in order. *)
Lemma build_options_chain_Ok instruments quotes strikes spot_price
    expiry_date futures_price timestamp rows :
  build_options_chain instruments quotes strikes spot_price expiry_date
    futures_price timestamp = Ok rows →
  ∃ t, get_time_to_expiry expiry_date None = Ok t
       ∧ length rows = length strikes
       ∧ ∀ (i : nat) strike_price, strikes !! i = Some strike_price →
           ∃ r, rows !! i = Some r
                ∧ build_row instruments quotes spot_price t futures_price
                    timestamp strike_price = Ok r.
Proof.
  rewrite build_options_chain_unfold.
  destruct (get_time_to_expiry expiry_date None) as [t|]; simpl; [|done].
  intros Hrows. exists t. split; [done|]. split.
  - by eapply comprehension_Ok_length.
  - intros i k Hk. by eapply comprehension_Ok_lookup.
Qed.

End WithCalculator.







(** A chain that is returned, for three strikes of which only the middle
    one has an instrument, and only a call. *)
Example build_options_chain_three_strikes :
  ∃ r1 r2 r3,
    build_options_chain (gc := Examples.echo_calculator)
      [Examples.nifty_19500_ce] Examples.sample_quotes [19450; 19500; 19550]
      19512 Examples.expiry_27_nov None "2025-11-27 15:30:00"
    = Ok [r1; r2; r3]
    ∧ CE r1 = zero_columns ∧ PE r1 = zero_columns
    ∧ LTP (CE r2) = 100 ∧ PE r2 = zero_columns
    ∧ CE r3 = zero_columns ∧ PE r3 = zero_columns.
Proof. do 3 eexists. split; [vm_compute; reflexivity|]. done. Qed.


(** The two branches of lines 423 and 479, in every row that
    [build_options_chain] returns and for the call as for the put of its
    strike: when the instrument exists, the [LTP] column is the quoted last
    price; if that price and the time to expiry are both positive, the [IV]
    column is the solver's estimate times 100, rounded to two decimals, and
    the Greeks are those of the solver's estimate; otherwise the [IV]
    column is 0 and the Greeks are those of the fallback volatility
    0.15. *)
Lemma build_options_chain_policy (gc : GreeksCalculator)
    (instruments : list instrument) (quotes : gmap string quote)
    (strikes : list Q) (spot_price : Q) (expiry_date : pydate)
    (futures_price : option Q) (timestamp : string) (rows : list row) :
  build_options_chain instruments quotes strikes spot_price expiry_date
    futures_price timestamp = Ok rows →
  ∃ t, get_time_to_expiry expiry_date None = Ok t
       ∧ ∀ r, r ∈ rows →
           volatility_policy "CE" quotes spot_price (Strike_Price r) t
             (find_instrument instruments (Strike_Price r) "CE") (CE r)
           ∧ volatility_policy "PE" quotes spot_price (Strike_Price r) t
               (find_instrument instruments (Strike_Price r) "PE") (PE r).
Proof.
  intros Hb. apply build_options_chain_Ok in Hb as (t & Ht & Hlen & Hrows).
  exists t. split; [done|].
  intros r Hr. apply list_elem_of_lookup in Hr as [i Hi].
  destruct (strikes !! i) as [k|] eqn:Hk.
  - destruct (Hrows i k Hk) as (r' & Hi' & Hr').
    assert (r' = r) as -> by congruence.
    apply build_row_Ok in Hr' as (-> & Hce & Hpe).
    split; by apply option_side_policy.
  - apply lookup_ge_None in Hk. apply lookup_lt_Some in Hi. lia.
Qed.

(** The [IV] column for a solver's estimate that is the float of 0.20125:
    the product with 100 is rounded to the float 20.125, and that tie goes
    to the float of 20.12; in exact arithmetic the product is above 20.125
    and the decimal would be 20.13. *)
Example implied_volatility_column :
  Binary64.round2
    (Binary64.times (Binary64.round_nearest_even (20125 # 100000)) 100)
  == Binary64.round_nearest_even (2012 # 100)
  ∧ py_round2 (Binary64.round_nearest_even (20125 # 100000) * 100)
    == 2013 # 100.
Proof. split; reflexivity. Qed.

(** At or after the expiry the time basis of the specification yields its
    floor. *)
Lemma yearFraction_floor (expiryInstant referenceInstant : Q) :
  expiryInstant <= referenceInstant →
  TimeBasis.yearFraction expiryInstant referenceInstant
  = TimeBasis.time_floor.
Proof.
  intros Hle. unfold TimeBasis.yearFraction.
  destruct (Qle_bool (expiryInstant - referenceInstant) 0) eqn:E; [done|].
  assert (H : expiryInstant - referenceInstant <= 0) by lra.
  apply Qle_bool_iff in H. congruence.
Qed.

(** C1: what the code does with a time to expiry at its floor.  The floor
    is positive, so the test [time_to_expiry > 0] of lines 423 and 479 holds
    there, and for an option of the chain that has traded the solver is
    asked all the same.  If the solver refuses the floor, as step 1 of
    section 4.4 has it, its exception leaves [build_options_chain]: no row
    is built, for any strike.  If it answers, the Greeks of the row are
    those of its answer.  In neither case does the row hold the marker 0
    with the Greeks of the fallback volatility. *)
Theorem build_options_chain_at_floor (gc : GreeksCalculator)
    (instruments : list instrument) (quotes : gmap string quote)
    (strikes : list Q) (spot_price : Q) (expiry_date : pydate)
    (futures_price : option Q) (timestamp : string)
    (expiryInstant referenceInstant strike_price : Q) (option_type : string)
    (inst : instrument) :
  get_time_to_expiry expiry_date None
  = Ok (TimeBasis.yearFraction expiryInstant referenceInstant) →
  expiryInstant <= referenceInstant →
  option_type = "CE"%string ∨ option_type = "PE"%string →
  strike_price ∈ strikes →
  find_instrument instruments strike_price option_type = Some inst →
  0 < quoted_ltp quotes inst →
  (∀ e, calculate_implied_volatility (quoted_ltp quotes inst) spot_price
          strike_price TimeBasis.time_floor option_type None = Raise e →
        ∃ e', build_options_chain instruments quotes strikes spot_price
                expiry_date futures_price timestamp = Raise e')
  ∧ (∀ rows,
       build_options_chain instruments quotes strikes spot_price expiry_date
         futures_price timestamp = Ok rows →
       ∃ iv r,
         calculate_implied_volatility (quoted_ltp quotes inst) spot_price
           strike_price TimeBasis.time_floor option_type None = Ok iv
         ∧ r ∈ rows ∧ Strike_Price r = strike_price
         ∧ calculate_all_greeks spot_price strike_price TimeBasis.time_floor
             iv option_type None
           = Ok (greeks_columns (side option_type r))).
Proof.
  intros Ht Hle Htype Hk Hinst Hltp.
  rewrite (yearFraction_floor _ _ Hle) in Ht.
  assert (Hrows : ∀ rows,
            build_options_chain instruments quotes strikes spot_price
              expiry_date futures_price timestamp = Ok rows →
            ∃ iv r,
              calculate_implied_volatility (quoted_ltp quotes inst)
                spot_price strike_price TimeBasis.time_floor option_type None
              = Ok iv
              ∧ r ∈ rows ∧ Strike_Price r = strike_price
              ∧ calculate_all_greeks spot_price strike_price
                  TimeBasis.time_floor iv option_type None
                = Ok (greeks_columns (side option_type r))).
  { intros rows Hb.
    apply build_options_chain_Ok in Hb as (t & Ht' & _ & Hrows).
    assert (t = TimeBasis.time_floor) as -> by congruence.
    apply list_elem_of_lookup in Hk as [i Hi].
    destruct (Hrows i strike_price Hi) as (r & Hr & Hrow).
    apply build_row_Ok in Hrow as (Hstrike & Hce & Hpe).
    assert (Hside : option_side option_type (Some inst) quotes spot_price
                      strike_price TimeBasis.time_floor
                    = Ok (side option_type r)).
    { destruct Htype as [-> | ->]; rewrite <- Hinst; unfold side; simpl;
        done. }
    apply option_side_policy in Hside as (_ & Hsolver & _).
    destruct Hsolver as (iv & Hiv & _ & Hg); [by split|].
    exists iv, r. split; [done|]. split; [|done].
    by eapply list_elem_of_lookup_2. }
  split; [|done].
  intros e He.
  destruct (build_options_chain instruments quotes strikes spot_price
              expiry_date futures_price timestamp) as [rows|e'] eqn:Hb;
    [|by eexists].
  destruct (Hrows rows eq_refl) as (iv & _ & Hiv & _). congruence.
Qed.

Lemma build_options_chain_at_floor_witness :
  (∀ e, @calculate_implied_volatility (Examples.guarded_calculator 0)
          (quoted_ltp Examples.sample_quotes Examples.nifty_19500_ce) 19512
          19500 TimeBasis.time_floor "CE" None = Raise e →
        ∃ e', build_options_chain (gc := Examples.guarded_calculator 0)
                [Examples.nifty_19500_ce; Examples.nifty_19500_pe]
                Examples.sample_quotes [19450; 19500; 19550] 19512
                Examples.expiry_27_nov None "2025-11-27 15:30:00"
              = Raise e')
  ∧ (∀ rows,
       build_options_chain (gc := Examples.guarded_calculator 0)
         [Examples.nifty_19500_ce; Examples.nifty_19500_pe]
         Examples.sample_quotes [19450; 19500; 19550] 19512
         Examples.expiry_27_nov None "2025-11-27 15:30:00" = Ok rows →
       ∃ iv r,
         @calculate_implied_volatility (Examples.guarded_calculator 0)
           (quoted_ltp Examples.sample_quotes Examples.nifty_19500_ce) 19512
           19500 TimeBasis.time_floor "CE" None = Ok iv
         ∧ r ∈ rows ∧ Strike_Price r = 19500
         ∧ @calculate_all_greeks (Examples.guarded_calculator 0) 19512 19500
             TimeBasis.time_floor iv "CE" None
           = Ok (greeks_columns (side "CE" r))).
Proof.
  apply (build_options_chain_at_floor (Examples.guarded_calculator 0)
           [Examples.nifty_19500_ce; Examples.nifty_19500_pe]
           Examples.sample_quotes [19450; 19500; 19550] 19512
           Examples.expiry_27_nov None "2025-11-27 15:30:00" 0 0
           19500 "CE" Examples.nifty_19500_ce).
  - reflexivity.
  - discriminate.
  - by left.
  - rewrite !elem_of_cons. right. by left.
  - reflexivity.
  - reflexivity.
Defined.

(** The chain of the day of the expiry, with the checks of the
    specification: the call of strike 19500 last traded at 100, the solver
    is asked at the floor and refuses, and the three rows are lost. *)
Example build_options_chain_on_expiry_day :
  build_options_chain (gc := Examples.guarded_calculator 0)
    [Examples.nifty_19500_ce; Examples.nifty_19500_pe]
    Examples.sample_quotes [19450; 19500; 19550] 19512
    Examples.expiry_27_nov None "2025-11-27 15:30:00"
  = Raise Examples.InvalidInput.
Proof. vm_compute. reflexivity. Qed.

(** A week before, the same chain is returned. *)
Example build_options_chain_a_week_before :
  returns (build_options_chain (gc := Examples.guarded_calculator 7)
             [Examples.nifty_19500_ce; Examples.nifty_19500_pe]
             Examples.sample_quotes [19450; 19500; 19550] 19512
             Examples.expiry_27_nov None "2025-11-20 15:30:00").
Proof. eexists. vm_compute. reflexivity. Qed.

Lemma for_each_ext {A S} (f g : A → S → outcome S) xs s :
  (∀ x s', f x s' = g x s') → for_each f xs s = for_each g xs s.
Proof.
  intros Hfg. revert s. induction xs as [|x xs IH]; intros s; simpl; [done|].
  rewrite Hfg. destruct (g x s) as [s'|]; simpl; [apply IH|done].
Qed.

Lemma option_side_agree gc1 gc2 option_type inst quotes spot_price
    strike_price t :
  agree_without_rate gc1 gc2 →
  option_side (gc := gc1) option_type inst quotes spot_price strike_price t
  = option_side (gc := gc2) option_type inst quotes spot_price strike_price t.
Proof.
  intros (_ & Hiv & Hg). destruct inst as [i|]; simpl; [|done].
  unfold implied_volatility.
  destruct (Qpos_b _ && Qpos_b t); simpl.
  - rewrite Hiv.
    destruct (@calculate_implied_volatility gc2 _ _ _ _ _ _) as [iv|];
      simpl; [|done].
    by rewrite Hg.
  - by rewrite Hg.
Qed.

(** C4, as the code has it.  [build_options_chain] hands no risk-free rate
    to the calculator: its result is the same for two calculators that
    agree on the calls made without a rate, whatever they do with an
    explicit one.  The validation workflow does pass its rate:
    [calculate_greeks_with_rate] is [calculate_all_greeks] called with
    [risk_free_rate] set. *)
Theorem risk_free_rate_threading (gc1 gc2 : GreeksCalculator)
    (instruments : list instrument) (quotes : gmap string quote)
    (strikes : list Q) (spot_price : Q) (expiry_date : pydate)
    (futures_price : option Q) (timestamp : string) :
  agree_without_rate gc1 gc2 →
  build_options_chain (gc := gc1) instruments quotes strikes spot_price
    expiry_date futures_price timestamp
  = build_options_chain (gc := gc2) instruments quotes strikes spot_price
      expiry_date futures_price timestamp
  ∧ ∀ spot strike_price t market_iv option_type risk_free_rate,
      Validation.calculate_greeks_with_rate (gc := gc1) spot strike_price t
        market_iv option_type risk_free_rate
      = @calculate_all_greeks gc1 spot strike_price t market_iv option_type
          (Some risk_free_rate).
Proof.
  intros Hagree. split; [|done].
  unfold build_options_chain. rewrite (proj1 Hagree).
  destruct (@get_time_to_expiry gc2 expiry_date None) as [t|]; simpl; [|done].
  apply for_each_ext. intros k data. unfold build_row.
  by rewrite !(option_side_agree gc1 gc2).
Qed.

Lemma risk_free_rate_threading_witness :
  agree_without_rate Examples.echo_calculator Examples.rate_blind_calculator
  ∧ build_options_chain (gc := Examples.echo_calculator)
      [Examples.nifty_19500_ce; Examples.nifty_19500_pe]
      Examples.sample_quotes [19500] 19512 Examples.expiry_27_nov None
      "2025-11-27 15:30:00"
    = build_options_chain (gc := Examples.rate_blind_calculator)
        [Examples.nifty_19500_ce; Examples.nifty_19500_pe]
        Examples.sample_quotes [19500] 19512 Examples.expiry_27_nov None
        "2025-11-27 15:30:00"
  ∧ ∀ spot strike_price t market_iv option_type risk_free_rate,
      Validation.calculate_greeks_with_rate (gc := Examples.echo_calculator)
        spot strike_price t market_iv option_type risk_free_rate
      = @calculate_all_greeks Examples.echo_calculator spot strike_price t
          market_iv option_type (Some risk_free_rate).
Proof.
  split.
  - repeat split; intros; reflexivity.
  - apply (risk_free_rate_threading Examples.echo_calculator
             Examples.rate_blind_calculator).
    repeat split; intros; reflexivity.
Defined.

(** C4 as stated fails for [build_options_chain].  The echo calculator
    reports the rate of a call in gamma (-1 for a call without rate): the
    validation helper called with 10% reports 10%, the rows of the chain
    report -1 for the call and for the put. *)
Lemma build_options_chain_rate_counterexample :
  (∃ g, Validation.calculate_greeks_with_rate (gc := Examples.echo_calculator)
          19500 19500 (7 # 365) (12 # 100) "CE" (10 # 100) = Ok g
        ∧ gamma g = 10 # 100)
  ∧ ∃ r,
      build_options_chain (gc := Examples.echo_calculator)
        [Examples.nifty_19500_ce; Examples.nifty_19500_pe]
        Examples.sample_quotes [19500] 19512 Examples.expiry_27_nov None
        "2025-11-27 15:30:00" = Ok [r]
      ∧ Gamma (CE r) = -1 ∧ Gamma (PE r) = -1.
Proof.
  split.
  - eexists. split; reflexivity.
  - eexists. split; [vm_compute; reflexivity|]. split; reflexivity.
Qed.

End ChainFacts.

(** ** [identify_expiries] *)

Section ExpiryFacts.
Import Chains.

Lemma filter_none {A} (P : A → Prop) `{∀ x, Decision (P x)} (l : list A) :
  (∀ x, x ∈ l → ¬ P x) → filter P l = [].
Proof.
  induction l as [|x l IH]; intros Hl; [done|].
  rewrite filter_cons_False by (apply Hl; left).
  apply IH. intros y Hy. apply Hl. by right.
Qed.

Lemma same_class_plain xs : Forall is_plain xs → same_class xs = true.
Proof.
  intros H. unfold same_class. apply orb_true_iff. left.
  apply forallb_forall. intros x Hx.
  rewrite Forall_forall in H. rewrite (H x); [done|].
  by apply list_elem_of_In.
Qed.

Lemma py_sort_Ok xs ys : py_sort xs = Ok ys → ys ≡ₚ xs.
Proof.
  unfold py_sort. destruct (same_class xs); [|done].
  intros [= <-]. apply merge_sort_Permutation.
Qed.

Lemma py_sort_plain xs :
  Forall is_plain xs → py_sort xs = Ok (merge_sort pydate_le xs).
Proof. intros H. unfold py_sort. by rewrite same_class_plain. Qed.

Lemma sorted_set_Ok xs ys :
  sorted_set xs = Ok ys → ∀ x, x ∈ ys ↔ x ∈ xs.
Proof.
  intros H x. apply py_sort_Ok in H. rewrite H. apply elem_of_remove_dups.
Qed.

Lemma comprehension_if_Ok {A} (p : A → outcome bool) xs ys :
  comprehension_if p xs = Ok ys →
  ∀ x, x ∈ ys ↔ x ∈ xs ∧ p x = Ok true.
Proof.
  revert ys. induction xs as [|x' xs IH]; intros ys; simpl.
  - intros [= <-] x. split; [by intros ?%elem_of_nil|by intros [?%elem_of_nil _]].
  - destruct (p x') as [b|] eqn:Hp; simpl; [|done].
    destruct (comprehension_if p xs) as [ys'|]; simpl; [|done].
    intros [= <-] x. specialize (IH ys' eq_refl x).
    destruct b; rewrite ?elem_of_cons, IH; split.
    + intros [->|[? ?]]; eauto.
    + intros [[->|?] ?]; eauto.
    + intros [? ?]; eauto.
    + intros [[->|?] ?]; [congruence|eauto].
Qed.

Lemma comprehension_if_returns {A} (p : A → outcome bool) xs :
  (∀ x, x ∈ xs → returns (p x)) → returns (comprehension_if p xs).
Proof.
  induction xs as [|x xs IH]; intros Hp; simpl; [by eexists|].
  destruct (Hp x) as [b ->]; [left|]. simpl.
  destruct IH as [ys ->]; [intros; apply Hp; by right|]. simpl. by eexists.
Qed.

(** The grouping by month and the classification only move expiries
    around: a property of all target expiries holds of all classified
    ones. *)
Section Preservation.
Variable P : pydate → Prop.

Lemma months_seen_append_Forall k x d :
  P x → Forall (λ kv, Forall P kv.2) d →
  Forall (λ kv : month_key * list pydate, Forall P kv.2)
         (months_seen_append k x d).
Proof.
  intros Hx. induction d as [|[k' xs] d IH]; intros Hd; simpl.
  - repeat constructor. done.
  - inversion_clear Hd as [|? ? Hxs Hd']. destruct (decide (k = k')).
    + constructor; [|done]. simpl in *. apply Forall_app. split; [done|].
      by constructor.
    + constructor; [done|]. by apply IH.
Qed.

Lemma group_by_month_Forall target :
  Forall P target →
  Forall (λ kv : month_key * list pydate, Forall P kv.2)
         (group_by_month target).
Proof.
  unfold group_by_month.
  assert (H : ∀ d, Forall (λ kv : month_key * list pydate, Forall P kv.2) d →
                   Forall P target →
                   Forall (λ kv : month_key * list pydate, Forall P kv.2)
                     (foldl (λ d exp, months_seen_append (key_of exp) exp d)
                        d target)).
  { induction target as [|x target IH]; intros d Hd Ht; simpl; [done|].
    inversion_clear Ht. apply IH; [|done].
    by apply months_seen_append_Forall. }
  intros Ht. apply H; [constructor|done].
Qed.

Lemma removelast_Forall (xs : list pydate) : Forall P xs → Forall P (removelast xs).
Proof.
  induction xs as [|x [|y xs] IH]; simpl; intros H; [done|constructor|].
  inversion_clear H. constructor; [done|]. by apply IH.
Qed.

Lemma classify_month_Forall item acc acc' :
  Forall P item.2 → Forall P (weekly acc) → Forall P (monthly acc) →
  classify_month item acc = Ok acc' →
  Forall P (weekly acc') ∧ Forall P (monthly acc').
Proof.
  intros Hitem Hw Hm. unfold classify_month.
  destruct (py_sort item.2) as [sorted|] eqn:Hs; simpl; [|done].
  apply py_sort_Ok in Hs.
  assert (Hsorted : Forall P sorted) by by rewrite Hs.
  destruct (1 <? length sorted)%nat.
  - destruct (last sorted) as [l|] eqn:Hl; [|done].
    intros [= <-]. simpl. split.
    + apply Forall_app. split; [done|]. by apply removelast_Forall.
    + apply Forall_app. split; [done|]. constructor; [|done].
      rewrite Forall_forall in Hsorted. apply Hsorted.
      by apply last_Some_elem_of.
  - destruct sorted as [|x sorted']; [done|].
    intros [= <-]. simpl. split; [done|].
    apply Forall_app. split; [done|]. constructor; [|done].
    by inversion_clear Hsorted.
Qed.

Lemma classify_all_Forall groups acc acc' :
  Forall (λ kv : month_key * list pydate, Forall P kv.2) groups →
  Forall P (weekly acc) → Forall P (monthly acc) →
  for_each classify_month groups acc = Ok acc' →
  Forall P (weekly acc') ∧ Forall P (monthly acc').
Proof.
  revert acc. induction groups as [|item groups IH]; intros acc Hg Hw Hm; simpl.
  - by intros [= <-].
  - inversion_clear Hg as [|? ? Hitem Hg'].
    destruct (classify_month item acc) as [acc1|] eqn:H1; simpl; [|done].
    destruct (classify_month_Forall item acc acc1 Hitem Hw Hm H1) as [Hw1 Hm1].
    by apply IH.
Qed.

End Preservation.





Lemma date_leb_ltb_absurd a b : date_leb a b = true → date_ltb b a = true → False.
Proof.
  unfold date_leb, date_ltb, date_eqb.
  rewrite !orb_true_iff, !andb_true_iff, !orb_true_iff, !andb_true_iff.
  rewrite !Z.ltb_lt, !Z.eqb_eq. lia.
Qed.

(** The order of the sort. *)
Ltac order_to_prop :=
  unfold pydate_le, pydate_leb, date_leb, date_ltb, date_eqb in *;
  simpl in *;
  repeat (rewrite ?orb_true_iff, ?andb_true_iff in *;
          rewrite ?Z.ltb_lt, ?Z.eqb_eq, ?Z.leb_le in * ).

Global Instance pydate_le_transitive : Transitive pydate_le.
Proof.
  intros [d1|d1 t1] [d2|d2 t2] [d3|d3 t3] H12 H23;
    order_to_prop; try done; lia.
Qed.

Global Instance pydate_le_total : Total pydate_le.
Proof.
  intros [d1|d1 t1] [d2|d2 t2]; order_to_prop; auto; lia.
Qed.

Lemma date_leb_ltb_trans a b c :
  date_leb a b = true → date_ltb b c = true → date_ltb a c = true.
Proof. intros H1 H2. order_to_prop. lia. Qed.

Lemma StronglySorted_filter' {A} (R : relation A) (P : A → Prop)
    `{∀ x, Decision (P x)} (l : list A) :
  StronglySorted R l → StronglySorted R (filter P l).
Proof.
  induction 1 as [|x l Hl IH Hx]; [constructor|].
  rewrite filter_cons. case_decide; [|done].
  constructor; [done|].
  apply Forall_forall. intros y Hy. apply list_elem_of_filter in Hy as [_ Hy].
  rewrite Forall_forall in Hx. by apply Hx.
Qed.

Lemma StronglySorted_last {A} (R : relation A) (l : list A) (c x : A) :
  StronglySorted R l → last l = Some c → x ∈ l → x = c ∨ R x c.
Proof.
  intros Hs Hl Hx. apply last_Some in Hl as [l' ->].
  apply elem_of_app in Hx as [Hx|Hx].
  - right. eapply StronglySorted_app_1_elem_of; [done..|]. by left.
  - left. by apply list_elem_of_singleton in Hx.
Qed.

(** The expiry the source calls the monthly one is the latest of the
    month. *)
Lemma current_monthly_expiry_latest today xs c x :
  current_monthly_expiry today (merge_sort pydate_le xs) = Some c →
  x ∈ xs → exp_month x = month today → exp_year x = year today →
  x = c ∨ pydate_le x c.
Proof.
  unfold current_monthly_expiry. intros Hl Hx Hm Hy.
  eapply StronglySorted_last; [|exact Hl|].
  - apply StronglySorted_filter', StronglySorted_merge_sort; apply _.
  - apply list_elem_of_filter. split; [done|].
    by rewrite merge_sort_Permutation.
Qed.

(** What an expiry that is returned has gone through. *)
Lemma identify_expiries_Ok today instruments r :
  identify_expiries today instruments = Ok r →
  ∃ expiry_dates,
    sorted_set (expiry <$> instruments) = Ok expiry_dates
    ∧ ∀ x, x ∈ weekly r ++ monthly r →
        x ∈ expiry_dates
        ∧ py_ge x (PlainDate today) = Ok true
        ∧ key_of x ∈ months_to_fetch today
                        (current_monthly_expiry today expiry_dates).
Proof.
  unfold identify_expiries.
  destruct (sorted_set (expiry <$> instruments)) as [expiry_dates|] eqn:Hset;
    simpl; [|done].
  intros H. exists expiry_dates. split; [done|]. revert H.
  case_bool_decide; [intros [= <-] x ?%elem_of_nil; done|].
  destruct (comprehension_if _ expiry_dates) as [future|] eqn:Hfut;
    simpl; [|done].
  case_bool_decide; [intros [= <-] x ?%elem_of_nil; done|].
  case_bool_decide; [intros [= <-] x ?%elem_of_nil; done|].
  set (months := months_to_fetch today _).
  set (target := filter _ future).
  set (P := λ x : pydate, x ∈ expiry_dates
                         ∧ py_ge x (PlainDate today) = Ok true
                         ∧ key_of x ∈ months).
  assert (Htarget : Forall P target).
  { apply Forall_forall. intros x Hx. subst target.
    apply list_elem_of_filter in Hx as [Hkey Hx].
    apply (comprehension_if_Ok _ _ _ Hfut) in Hx as [Hx Hge]. done. }
  destruct (for_each classify_month (group_by_month target) no_expiries)
    as [acc|] eqn:Hacc; simpl; [|done].
  destruct (classify_all_Forall P (group_by_month target) no_expiries acc
              (group_by_month_Forall P _ Htarget)
              (Forall_nil_2 _) (Forall_nil_2 _) Hacc) as [Hw Hm].
  destruct (py_sort (weekly acc)) as [ws|] eqn:Hws; simpl; [|done].
  destruct (py_sort (monthly acc)) as [ms|] eqn:Hms; simpl; [|done].
  intros [= <-]. simpl. intros x Hx.
  apply py_sort_Ok in Hws, Hms.
  rewrite Hws, Hms in Hx. apply elem_of_app in Hx as [Hx|Hx].
  - rewrite Forall_forall in Hw. by apply Hw.
  - rewrite Forall_forall in Hm. by apply Hm.
Qed.


Lemma comprehension_if_filter {A} (p : A → outcome bool) (q : A → bool) xs ys :
  (∀ x b, p x = Ok b → b = q x) →
  comprehension_if p xs = Ok ys → ys = filter (λ x, q x = true) xs.
Proof.
  intros Hq. revert ys.
  induction xs as [|x xs IH]; intros ys; simpl; [by intros [= <-]|].
  destruct (p x) as [b|] eqn:Hp; simpl; [|done].
  destruct (comprehension_if p xs) as [ys'|]; simpl; [|done].
  intros [= <-]. rewrite filter_cons, (IH ys' eq_refl).
  rewrite <- (Hq x b Hp).
  destruct b; [by rewrite decide_True|by rewrite decide_False].
Qed.

Lemma py_ge_on_or_after x today b :
  py_ge x (PlainDate today) = Ok b → b = on_or_after today x.
Proof. destruct x; simpl; [by intros [= <-]|done]. Qed.

Lemma py_ge_today x today :
  py_ge x (PlainDate today) = Ok true ↔
  ∃ d, x = PlainDate d ∧ date_leb today d = true.
Proof.
  destruct x as [d|d t]; simpl; split.
  - intros [= H]. eauto.
  - intros (d' & [= <-] & H). by rewrite H.
  - done.
  - intros (d' & [=] & _).
Qed.

(** The groups hold the target expiries, each once. *)
Lemma months_seen_append_concat k x d :
  concat (snd <$> months_seen_append k x d) ≡ₚ x :: concat (snd <$> d).
Proof.
  induction d as [|[k' xs] d IH]; simpl; [done|].
  destruct (decide (k = k')); simpl.
  - rewrite <- app_assoc. simpl. symmetry. apply Permutation_middle.
  - rewrite IH. symmetry. apply Permutation_middle.
Qed.

Lemma group_by_month_concat target :
  concat (snd <$> group_by_month target) ≡ₚ target.
Proof.
  unfold group_by_month.
  assert (H : ∀ d, concat (snd <$> foldl (λ d exp,
                       months_seen_append (key_of exp) exp d) d target)
                   ≡ₚ concat (snd <$> d) ++ target).
  { induction target as [|x target IH]; intros d; simpl.
    - by rewrite app_nil_r.
    - rewrite IH, months_seen_append_concat. simpl.
      apply Permutation_middle. }
  by rewrite H.
Qed.

Lemma removelast_last {A} (l : list A) (x : A) :
  last l = Some x → removelast l ++ [x] = l.
Proof.
  intros [l' ->]%last_Some. by rewrite removelast_last.
Qed.

Lemma classify_month_Permutation item acc acc' :
  classify_month item acc = Ok acc' →
  weekly acc' ++ monthly acc'
  ≡ₚ weekly acc ++ monthly acc ++ item.2.
Proof.
  unfold classify_month.
  destruct (py_sort item.2) as [sorted|] eqn:Hs; simpl; [|done].
  apply py_sort_Ok in Hs. rewrite <- Hs.
  destruct (1 <? length sorted)%nat eqn:Hlen.
  - destruct (last sorted) as [l|] eqn:Hl; [|done].
    intros [= <-]. simpl.
    pose proof (removelast_last sorted l Hl) as E.
    set (front := removelast sorted) in *. rewrite <- E.
    rewrite <- !app_assoc. apply Permutation_app_head.
    rewrite !app_assoc. apply Permutation_app_tail. apply Permutation_app_comm.
  - destruct sorted as [|x [|y sorted']]; [done| |].
    + intros [= <-]. simpl. by rewrite app_assoc.
    + simpl in Hlen. done.
Qed.

Lemma classify_all_Permutation groups acc acc' :
  for_each classify_month groups acc = Ok acc' →
  weekly acc' ++ monthly acc'
  ≡ₚ weekly acc ++ monthly acc ++ concat (snd <$> groups).
Proof.
  revert acc. induction groups as [|item groups IH]; intros acc; simpl.
  - intros [= <-]. by rewrite app_nil_r.
  - destruct (classify_month item acc) as [acc1|] eqn:H1; simpl; [|done].
    intros H. rewrite (IH acc1 H), app_assoc.
    rewrite (classify_month_Permutation _ _ _ H1).
    by rewrite <- !app_assoc.
Qed.

(** What [identify_expiries] returns, as a set: the distinct expiries of
    the instruments that are not before today and lie in the selected
    months. *)
Lemma identify_expiries_Permutation today instruments r :
  identify_expiries today instruments = Ok r →
  ∃ expiry_dates,
    sorted_set (expiry <$> instruments) = Ok expiry_dates
    ∧ weekly r ++ monthly r
      ≡ₚ filter (λ x, key_of x ∈ months_to_fetch today
                         (current_monthly_expiry today expiry_dates))
           (filter (λ x, on_or_after today x = true) expiry_dates).
Proof.
  unfold identify_expiries.
  destruct (sorted_set (expiry <$> instruments)) as [expiry_dates|] eqn:Hset;
    simpl; [|done].
  intros H. exists expiry_dates. split; [done|]. revert H.
  case_bool_decide as Hd; [intros [= <-]; by rewrite Hd|].
  destruct (comprehension_if _ expiry_dates) as [future|] eqn:Hfut;
    simpl; [|done].
  apply (comprehension_if_filter _ (on_or_after today)) in Hfut;
    [|intros x b; apply py_ge_on_or_after].
  rewrite <- Hfut.
  case_bool_decide as Hf; [intros [= <-]; by rewrite Hf|].
  case_bool_decide as Ht; [intros [= <-]; by rewrite Ht|].
  set (target := filter _ future).
  destruct (for_each classify_month (group_by_month target) no_expiries)
    as [acc|] eqn:Hacc; simpl; [|done].
  apply classify_all_Permutation in Hacc. simpl in Hacc.
  rewrite group_by_month_concat in Hacc.
  destruct (py_sort (weekly acc)) as [ws|] eqn:Hws; simpl; [|done].
  destruct (py_sort (monthly acc)) as [ms|] eqn:Hms; simpl; [|done].
  intros [= <-]. simpl.
  apply py_sort_Ok in Hws, Hms. by rewrite Hws, Hms.
Qed.




Example identify_expiries_next_month :
  identify_expiries (Date 2025 11 26) Examples.december_and_january
  = Ok (Expiries [PlainDate (Date 2025 12 2)] [PlainDate (Date 2025 12 30)]).
Proof. vm_compute. reflexivity. Qed.

(** C8.  For an expiry [c] that is a plain date, the month selection takes
    its first branch whatever the day: the months are exactly the current
    month.  So, the expiries being plain dates and one of them lying in the
    current month, [identify_expiries] selects the current month only; and
    when today is after the last expiry of the current month, it returns no
    weekly and no monthly expiry, whatever the next month holds. *)
Theorem identify_expiries_plain_dates (today : date)
    (instruments : list instrument) :
  Forall (λ inst, is_plain (expiry inst)) instruments →
  (∃ inst, inst ∈ instruments
           ∧ exp_month (expiry inst) = month today
           ∧ exp_year (expiry inst) = year today) →
  (∀ c, is_plain c →
        months_to_fetch today (Some c) = [current_month_key today])
  ∧ ∃ expiry_dates c,
      sorted_set (expiry <$> instruments) = Ok expiry_dates
      ∧ current_monthly_expiry today expiry_dates = Some c
      ∧ months_to_fetch today (current_monthly_expiry today expiry_dates)
        = [current_month_key today]
      ∧ (date_ltb (date_of c) today = true →
         identify_expiries today instruments = Ok no_expiries).
Proof.
  intros Hplain (inst0 & Hin0 & Hm0 & Hy0).
  assert (Hbranch : ∀ c, is_plain c →
            months_to_fetch today (Some c) = [current_month_key today]).
  { intros c Hc. unfold months_to_fetch. by rewrite Hc. }
  assert (Hall : Forall is_plain (remove_dups (expiry <$> instruments))).
  { apply Forall_forall. intros x Hx. rewrite elem_of_remove_dups in Hx.
    apply list_elem_of_fmap in Hx as (inst & -> & Hinst).
    rewrite Forall_forall in Hplain. by apply Hplain. }
  assert (Hset : sorted_set (expiry <$> instruments)
                 = Ok (merge_sort pydate_le
                         (remove_dups (expiry <$> instruments)))).
  { unfold sorted_set. by apply py_sort_plain. }
  set (expiry_dates := merge_sort pydate_le _) in Hset.
  assert (Hdates : ∀ x, x ∈ expiry_dates ↔ x ∈ expiry <$> instruments)
    by by apply sorted_set_Ok.
  assert (Hsome : ∃ c, current_monthly_expiry today expiry_dates = Some c
                       ∧ is_plain c).
  { unfold current_monthly_expiry.
    destruct (last (filter _ expiry_dates)) as [c|] eqn:Hl.
    - exists c. split; [done|]. apply last_Some_elem_of in Hl.
      apply list_elem_of_filter in Hl as [_ Hc]. apply Hdates in Hc.
      apply list_elem_of_fmap in Hc as (inst & -> & Hinst).
      rewrite Forall_forall in Hplain. by apply Hplain.
    - exfalso. apply last_None in Hl.
      eapply (filter_nil_not_elem_of _ _ (expiry inst0)); [exact Hl|done|].
      apply Hdates. by apply list_elem_of_fmap_2. }
  destruct Hsome as (c & Hc & Hcplain).
  split; [done|].
  exists expiry_dates, c. split; [done|]. split; [done|]. split.
  { rewrite Hc. by apply Hbranch. }
  intros Hlast.
  assert (Hpast : ∀ inst, inst ∈ instruments →
            exp_month (expiry inst) = month today →
            exp_year (expiry inst) = year today →
            date_ltb (date_of (expiry inst)) today = true).
  { intros inst Hinst Hm Hy.
    destruct (current_monthly_expiry_latest today _ c (expiry inst) Hc)
      as [->|Hle]; [|done..| |].
    - rewrite elem_of_remove_dups. by apply list_elem_of_fmap_2.
    - done.
    - rewrite Forall_forall in Hplain. specialize (Hplain inst Hinst).
      destruct (expiry inst) as [d|]; [|done].
      destruct c as [dc|]; [|done].
      by eapply date_leb_ltb_trans. }
  unfold identify_expiries. rewrite Hset. simpl.
  case_bool_decide; [done|].
  destruct (comprehension_if _ expiry_dates) as [future|] eqn:Hfut; simpl.
  - case_bool_decide; [done|].
      rewrite Hc, (Hbranch c Hcplain).
      case_bool_decide as Hempty; [done|]. exfalso. apply Hempty.
      apply filter_none. intros x Hx Hkey.
      apply list_elem_of_singleton in Hkey.
      apply (comprehension_if_Ok _ _ _ Hfut) in Hx as [Hx Hge].
      apply Hdates in Hx. apply list_elem_of_fmap in Hx as (inst & -> & Hinst).
      injection Hkey as Hy Hm.
      specialize (Hpast inst Hinst Hm Hy).
      rewrite Forall_forall in Hplain. specialize (Hplain inst Hinst).
      destruct (expiry inst) as [d|]; [|done].
      simpl in *. injection Hge as Hge.
      by eapply date_leb_ltb_absurd.
  - exfalso.
      destruct (comprehension_if_returns
                  (λ exp, py_ge exp (PlainDate today)) expiry_dates)
        as [future Hfut'].
      * intros x Hx. apply Hdates in Hx.
        apply list_elem_of_fmap in Hx as (inst & -> & Hinst).
        rewrite Forall_forall in Hplain. specialize (Hplain inst Hinst).
        destruct (expiry inst); [by eexists|done].
      * congruence.
Qed.

Lemma identify_expiries_plain_dates_witness :
  Forall (λ inst, is_plain (expiry inst)) Examples.november_and_december
  ∧ (∃ inst, inst ∈ Examples.november_and_december
             ∧ exp_month (expiry inst) = month (Date 2025 11 26)
             ∧ exp_year (expiry inst) = year (Date 2025 11 26))
  ∧ (∀ c, is_plain c →
          months_to_fetch (Date 2025 11 26) (Some c)
          = [current_month_key (Date 2025 11 26)])
  ∧ ∃ expiry_dates c,
      sorted_set (expiry <$> Examples.november_and_december) = Ok expiry_dates
      ∧ current_monthly_expiry (Date 2025 11 26) expiry_dates = Some c
      ∧ months_to_fetch (Date 2025 11 26)
          (current_monthly_expiry (Date 2025 11 26) expiry_dates)
        = [current_month_key (Date 2025 11 26)]
      ∧ (date_ltb (date_of c) (Date 2025 11 26) = true →
         identify_expiries (Date 2025 11 26) Examples.november_and_december
         = Ok no_expiries).
Proof.
  assert (H1 : Forall (λ inst, is_plain (expiry inst))
                 Examples.november_and_december)
    by (repeat constructor).
  assert (H2 : ∃ inst, inst ∈ Examples.november_and_december
                 ∧ exp_month (expiry inst) = month (Date 2025 11 26)
                 ∧ exp_year (expiry inst) = year (Date 2025 11 26)).
  { exists (Examples.expiring (Date 2025 11 4)).
    split; [left|split; reflexivity]. }
  split; [exact H1|]. split; [exact H2|].
  apply (identify_expiries_plain_dates (Date 2025 11 26)
           Examples.november_and_december H1 H2).
Defined.

(** On 26 November 2025, the day after the last expiry of the month, the
    expiries of December are there and none is returned; so it is on the
    expiry day itself for the next month. *)
Example identify_expiries_after_monthly_expiry :
  identify_expiries (Date 2025 11 26) Examples.november_and_december
  = Ok no_expiries.
Proof. vm_compute. reflexivity. Qed.

Example identify_expiries_on_monthly_expiry :
  identify_expiries (Date 2025 11 25) Examples.november_and_december
  = Ok (Expiries [] [PlainDate (Date 2025 11 25)]).
Proof. vm_compute. reflexivity. Qed.

End ExpiryFacts.

(** ** [run]: the loops over the expiries *)

Section RunFacts.
Import Chains.

Lemma build_options_chain_returns (gc : GreeksCalculator) instruments quotes
    strikes spot_price expiry_date futures_price timestamp :
  never_raises gc →
  returns (build_options_chain instruments quotes strikes spot_price
             expiry_date futures_price timestamp).
Proof.
  intros Hgc. rewrite build_options_chain_unfold.
  destruct (proj1 Hgc expiry_date None) as [t ->]. simpl.
  apply comprehension_returns. intros k _. by apply build_row_returns.
Qed.

Section Loops.
Context {gc : GreeksCalculator} {broker : Broker}.
Variables (all_options : list instrument) (strikes : list Q) (spot_price : Q)
          (futures_price : option Q).

Lemma process_expiry_step kind expiry_date p :
  (∀ e, chain_to_csv all_options strikes spot_price futures_price kind
          expiry_date = Raise e → isinstance_Exception e = true) →
  ∃ p', process_expiry all_options strikes spot_price futures_price kind
          expiry_date p = Ok p'
        ∧ current_idx p' = S (current_idx p)
        ∧ (fails all_options strikes spot_price futures_price kind
             expiry_date →
           success_count p' = success_count p
           ∧ error_count p' = S (error_count p)
           ∧ file_expiry <$> created_files p'
             = file_expiry <$> created_files p)
        ∧ (¬ fails all_options strikes spot_price futures_price kind
               expiry_date →
           success_count p' = S (success_count p)
           ∧ error_count p' = error_count p
           ∧ file_expiry <$> created_files p'
             = (file_expiry <$> created_files p) ++ [expiry_date]).
Proof.
  intros Hexc. unfold process_expiry, fails.
  destruct (chain_to_csv all_options strikes spot_price futures_price kind
              expiry_date) as [[df filepath]|e] eqn:Hc; simpl.
  - eexists. split; [done|]. split; [done|]. split; [done|].
    intros _. simpl. by rewrite fmap_app.
  - rewrite (Hexc e eq_refl). eexists. split; [done|]. split; [done|].
    split; [done|]. intros H. by destruct H.
Qed.

Lemma process_loop kind expiry_dates p :
  (∀ expiry_date e, expiry_date ∈ expiry_dates →
     chain_to_csv all_options strikes spot_price futures_price kind
       expiry_date = Raise e → isinstance_Exception e = true) →
  ∃ p', for_each (process_expiry all_options strikes spot_price futures_price
                    kind) expiry_dates p = Ok p'
        ∧ current_idx p' = (current_idx p + length expiry_dates)%nat
        ∧ error_count p'
          = (error_count p + length (filter (fails all_options strikes spot_price
                                           futures_price kind) expiry_dates))%nat
        ∧ (success_count p' + error_count p'
           = success_count p + error_count p + length expiry_dates)%nat
        ∧ file_expiry <$> created_files p'
          = (file_expiry <$> created_files p)
              ++ filter (λ x, ¬ fails all_options strikes spot_price
                                 futures_price kind x) expiry_dates.
Proof.
  revert p. induction expiry_dates as [|x xs IH]; intros p Hexc; simpl.
  - exists p. rewrite app_nil_r. repeat split; lia.
  - destruct (process_expiry_step kind x p)
      as (p1 & -> & Hidx & Hfail & Hpass).
    { intros e. apply Hexc. left. }
    simpl. destruct (IH p1) as (p' & -> & Hidx' & Herr' & Hsum' & Hfiles').
    { intros y e Hy. apply Hexc. by right. }
    exists p'. split; [done|]. rewrite !filter_cons.
    destruct (decide (fails all_options strikes spot_price futures_price
                        kind x)) as [Hf|Hf].
    + destruct (Hfail Hf) as (Hs & He & Hc).
      rewrite decide_False by tauto. simpl.
      rewrite Hfiles', Hc. repeat split; lia.
    + destruct (Hpass Hf) as (Hs & He & Hc).
      rewrite decide_True by done.
      rewrite Hfiles', Hc, <- app_assoc. simpl. repeat split; lia.
Qed.

End Loops.

(** C5.  Provided what is raised while an expiry is processed (options
    filtered, quotes fetched, chain built, CSV exported) is an [Exception],
    [run], once it has its expiries, goes through all of them: every
    expiry is counted, as a success or as an error; the errors are the
    expiries for which something was raised; the files are those of the
    other expiries, weekly first, in order. *)
Theorem run_continues_after_errors (gc : GreeksCalculator) (broker : Broker)
    (spot_price : Q) (found : expiries) :
  (∀ all_options strikes spot futures_price kind expiry_date e,
     chain_to_csv all_options strikes spot futures_price kind expiry_date
     = Raise e → isinstance_Exception e = true) →
  authenticate = true →
  get_nifty_spot_price = Some spot_price →
  truthy spot_price = true →
  fetch_nifty_options ≠ [] →
  identify_expiries today fetch_nifty_options = Ok found →
  ¬ (weekly found = [] ∧ monthly found = []) →
  ∃ strikes futures_price p,
    run = Ok (Some p)
    ∧ current_idx p = (length (weekly found) + length (monthly found))%nat
    ∧ (success_count p + error_count p
       = length (weekly found) + length (monthly found))%nat
    ∧ error_count p
      = (length (filter (fails fetch_nifty_options strikes spot_price
                           futures_price "weekly") (weekly found))
         + length (filter (fails fetch_nifty_options strikes spot_price
                             futures_price "monthly") (monthly found)))%nat
    ∧ file_expiry <$> created_files p
      = filter (λ x, ¬ fails fetch_nifty_options strikes spot_price
                        futures_price "weekly" x) (weekly found)
        ++ filter (λ x, ¬ fails fetch_nifty_options strikes spot_price
                           futures_price "monthly" x) (monthly found).
Proof.
  intros Hexc Hauth Hspot Htruthy Hoptions Hfound Hsome.
  unfold run. rewrite Hauth, Hspot, Htruthy. simpl.
  rewrite bool_decide_false by done. rewrite Hfound. simpl.
  destruct (bool_decide (weekly found = []) && bool_decide (monthly found = []))
    eqn:Hempty.
  { apply andb_true_iff in Hempty as [?%bool_decide_eq_true ?%bool_decide_eq_true].
    tauto. }
  set (strikes := get_strike_range _ 10 50).
  set (futures_price := _ ≫= get_nifty_futures_price).
  exists strikes, futures_price. unfold process_all.
  destruct (process_loop fetch_nifty_options strikes spot_price futures_price
              "weekly" (weekly found) (Progress [] 0 0 0))
    as (p1 & -> & Hidx1 & Herr1 & Hsum1 & Hfiles1).
  { intros x e _. apply Hexc. }
  simpl.
  destruct (process_loop fetch_nifty_options strikes spot_price futures_price
              "monthly" (monthly found) p1)
    as (p & -> & Hidx & Herr & Hsum & Hfiles).
  { intros x e _. apply Hexc. }
  simpl in *. exists p. split; [done|].
  rewrite Hfiles, Hfiles1. repeat split; lia.
Qed.

Lemma flaky_broker_raises_Exception :
  ∀ all_options strikes spot futures_price kind expiry_date e,
    chain_to_csv (gc := Examples.echo_calculator)
      (broker := Examples.flaky_broker) all_options strikes spot
      futures_price kind expiry_date = Raise e →
    isinstance_Exception e = true.
Proof.
  intros all_options strikes spot futures_price kind expiry_date e.
  unfold chain_to_csv. simpl.
  destruct (build_options_chain_returns Examples.echo_calculator
              (filter_options_by_expiry_and_strikes all_options expiry_date
                 strikes)
              Examples.sample_quotes strikes spot expiry_date futures_price
              "2025-11-04 10:00:00") as [df ->].
  { repeat split; intros; eexists; reflexivity. }
  simpl. case_decide; simpl; [|done]. by intros [= <-].
Qed.

Lemma run_continues_after_errors_witness :
  @authenticate Examples.flaky_broker = true
  ∧ @get_nifty_spot_price Examples.flaky_broker = Some 19512%Q
  ∧ truthy 19512 = true
  ∧ @fetch_nifty_options Examples.flaky_broker ≠ []
  ∧ identify_expiries (@today Examples.flaky_broker)
      (@fetch_nifty_options Examples.flaky_broker)
    = Ok Examples.november_expiries
  ∧ ¬ (weekly Examples.november_expiries = []
       ∧ monthly Examples.november_expiries = [])
  ∧ ∃ strikes futures_price p,
      run (gc := Examples.echo_calculator) (broker := Examples.flaky_broker)
      = Ok (Some p)
      ∧ current_idx p
        = (length (weekly Examples.november_expiries)
           + length (monthly Examples.november_expiries))%nat
      ∧ (success_count p + error_count p
         = length (weekly Examples.november_expiries)
           + length (monthly Examples.november_expiries))%nat
      ∧ error_count p
        = (length (filter (fails (gc := Examples.echo_calculator)
                             (broker := Examples.flaky_broker)
                             (@fetch_nifty_options Examples.flaky_broker)
                             strikes 19512%Q futures_price "weekly")
                     (weekly Examples.november_expiries))
           + length (filter (fails (gc := Examples.echo_calculator)
                               (broker := Examples.flaky_broker)
                               (@fetch_nifty_options Examples.flaky_broker)
                               strikes 19512%Q futures_price "monthly")
                       (monthly Examples.november_expiries)))%nat
      ∧ file_expiry <$> created_files p
        = filter (λ x, ¬ fails (gc := Examples.echo_calculator)
                          (broker := Examples.flaky_broker)
                          (@fetch_nifty_options Examples.flaky_broker)
                          strikes 19512%Q futures_price "weekly" x)
                 (weekly Examples.november_expiries)
          ++ filter (λ x, ¬ fails (gc := Examples.echo_calculator)
                             (broker := Examples.flaky_broker)
                             (@fetch_nifty_options Examples.flaky_broker)
                             strikes 19512%Q futures_price "monthly" x)
                    (monthly Examples.november_expiries).
Proof.
  assert (H1 : @authenticate Examples.flaky_broker = true) by reflexivity.
  assert (H2 : @get_nifty_spot_price Examples.flaky_broker = Some 19512%Q)
    by reflexivity.
  assert (H3 : truthy 19512 = true) by reflexivity.
  assert (H4 : @fetch_nifty_options Examples.flaky_broker ≠ [])
    by discriminate.
  assert (H5 : identify_expiries (@today Examples.flaky_broker)
                 (@fetch_nifty_options Examples.flaky_broker)
               = Ok Examples.november_expiries)
    by (vm_compute; reflexivity).
  assert (H6 : ¬ (weekly Examples.november_expiries = []
                  ∧ monthly Examples.november_expiries = []))
    by (intros [H _]; discriminate H).
  repeat (split; [assumption|]).
  exact (run_continues_after_errors Examples.echo_calculator
           Examples.flaky_broker 19512%Q Examples.november_expiries
           flaky_broker_raises_Exception H1 H2 H3 H4 H5 H6).
Defined.

(** The run of the example: the export of 11 November fails, the three
    other expiries are processed. *)
Example run_with_one_failure :
  ∃ p, run (gc := Examples.echo_calculator) (broker := Examples.flaky_broker)
       = Ok (Some p)
       ∧ success_count p = 3%nat ∧ error_count p = 1%nat
       ∧ file_expiry <$> created_files p
         = PlainDate <$> [Date 2025 11 4; Date 2025 11 18; Date 2025 11 25].
Proof. eexists. split; [vm_compute; reflexivity|]. repeat split. Qed.

(** An exception outside [Exception] is not caught: the loop stops. *)
Example process_expiry_KeyboardInterrupt :
  try_except_Exception (A := progress) (Raise KeyboardInterrupt)
    (λ _, Ok (Progress [] 0 1 1))
  = Raise KeyboardInterrupt.
Proof. reflexivity. Qed.

End RunFacts.

(** ** The percentage differences of the validation report *)

Section ReportFacts.
Import Validation.
Local Open Scope Q_scope.

Lemma Qabs_zero (x : Q) : Qabs x == 0 → x == 0.
Proof.
  intros H. destruct (Qabs_Qle_condition x 0) as [Hle _].
  destruct Hle as [Hlo Hhi]; [rewrite H; apply Qle_refl|].
  change (- 0) with 0 in Hlo. by apply Qle_antisym.
Qed.

(** The guard of a difference: no division when the reference is zero, and
    a division that succeeds when it is not, provided the divisor is zero
    only if the reference is. *)
Lemma percent_if_nonzero_Ok (num den reference : Q) :
  (den == 0 → reference == 0) →
  ∃ d, percent_if_nonzero num den reference = Ok d
       ∧ (reference == 0 → d = 0)
       ∧ (¬ reference == 0 → d = num / den * 100).
Proof.
  intros Hden. unfold percent_if_nonzero.
  destruct (Qeq_bool reference 0) eqn:E; simpl.
  - apply Qeq_bool_iff in E. exists 0. split; [done|]. split; [done|].
    intros Hne. contradiction.
  - apply Qeq_bool_neq in E. rewrite py_div_Ok by auto. simpl.
    eexists. split; [done|]. split; [|done]. intros H. contradiction.
Qed.

(** C10.  Each of the eight percentage differences is computed without
    raising, whatever the Greeks compared; a difference whose reference
    value (the Greek at the NSE rate of 10%) is zero is reported as 0. *)
Theorem percentage_differences_guarded (g nse : greeks) :
  (∃ d, ce_difference g nse = Ok d
        ∧ (delta nse == 0 → delta_diff d = 0)
        ∧ (gamma nse == 0 → gamma_diff d = 0)
        ∧ (vega nse == 0 → vega_diff d = 0)
        ∧ (theta nse == 0 → theta_diff d = 0))
  ∧ (∃ d, pe_difference g nse = Ok d
          ∧ (delta nse == 0 → delta_diff d = 0)
          ∧ (gamma nse == 0 → gamma_diff d = 0)
          ∧ (vega nse == 0 → vega_diff d = 0)
          ∧ (theta nse == 0 → theta_diff d = 0)).
Proof.
  split.
  - unfold ce_difference.
    destruct (percent_if_nonzero_Ok (delta g - delta nse) (delta nse)
                (delta nse)) as (d1 & -> & H1 & _); [done|].
    destruct (percent_if_nonzero_Ok (gamma g - gamma nse) (gamma nse)
                (gamma nse)) as (d2 & -> & H2 & _); [done|].
    destruct (percent_if_nonzero_Ok (vega g - vega nse) (vega nse)
                (vega nse)) as (d3 & -> & H3 & _); [done|].
    destruct (percent_if_nonzero_Ok (theta g - theta nse) (theta nse)
                (theta nse)) as (d4 & -> & H4 & _); [done|].
    simpl. eexists. split; [done|]. simpl. auto.
  - unfold pe_difference.
    destruct (percent_if_nonzero_Ok (delta g - delta nse) (Qabs (delta nse))
                (delta nse)) as (d1 & -> & H1 & _); [apply Qabs_zero|].
    destruct (percent_if_nonzero_Ok (gamma g - gamma nse) (gamma nse)
                (gamma nse)) as (d2 & -> & H2 & _); [done|].
    destruct (percent_if_nonzero_Ok (vega g - vega nse) (vega nse)
                (vega nse)) as (d3 & -> & H3 & _); [done|].
    destruct (percent_if_nonzero_Ok (theta g - theta nse) (Qabs (theta nse))
                (theta nse)) as (d4 & -> & H4 & _); [apply Qabs_zero|].
    simpl. eexists. split; [done|]. simpl. auto.
Qed.

(** Without the guard the division does raise. *)
Example unguarded_division : py_div (1 # 2) 0 = Raise ZeroDivisionError.
Proof. reflexivity. Qed.

Example ce_difference_zero_reference :
  ce_difference (Greeks (1 # 2) (1 # 1000) 12 (-5)) (Greeks 0 0 0 0)
  = Ok (Differences 0 0 0 0).
Proof. reflexivity. Qed.

Lemma ce_difference_returns (g nse : greeks) : returns (ce_difference g nse).
Proof.
  unfold ce_difference.
  destruct (percent_if_nonzero_Ok (delta g - delta nse) (delta nse)
              (delta nse)) as (d1 & -> & _); [done|].
  destruct (percent_if_nonzero_Ok (gamma g - gamma nse) (gamma nse)
              (gamma nse)) as (d2 & -> & _); [done|].
  destruct (percent_if_nonzero_Ok (vega g - vega nse) (vega nse)
              (vega nse)) as (d3 & -> & _); [done|].
  destruct (percent_if_nonzero_Ok (theta g - theta nse) (theta nse)
              (theta nse)) as (d4 & -> & _); [done|].
  by eexists.
Qed.

Lemma pe_difference_returns (g nse : greeks) : returns (pe_difference g nse).
Proof.
  unfold pe_difference.
  destruct (percent_if_nonzero_Ok (delta g - delta nse) (Qabs (delta nse))
              (delta nse)) as (d1 & -> & _); [apply Qabs_zero|].
  destruct (percent_if_nonzero_Ok (gamma g - gamma nse) (gamma nse)
              (gamma nse)) as (d2 & -> & _); [done|].
  destruct (percent_if_nonzero_Ok (vega g - vega nse) (vega nse)
              (vega nse)) as (d3 & -> & _); [done|].
  destruct (percent_if_nonzero_Ok (theta g - theta nse) (Qabs (theta nse))
              (theta nse)) as (d4 & -> & _); [apply Qabs_zero|].
  by eexists.
Qed.

Lemma difference_loop_returns
    (difference : greeks → greeks → outcome differences) (nse : greeks)
    (results : list (string * greeks)) (table : list (string * differences)) :
  (∀ g, returns (difference g nse)) →
  returns (for_each
             (λ '(rate_name, g) table,
                if bool_decide (rate_name = "NSE (10%)"%string)
                then Ok (table ++ [(rate_name, Differences 0 0 0 0)])
                else d ← difference g nse; Ok (table ++ [(rate_name, d)]))
             results table).
Proof.
  intros Hd. revert table.
  induction results as [|[rate_name g] results IH]; intros table; simpl.
  - by eexists.
  - case_bool_decide; simpl; [apply IH|].
    destruct (Hd g) as [d ->]. simpl. apply IH.
Qed.

(** The tables of differences are complete whenever the reference line is
    among the results. *)
Lemma difference_table_returns (results : list (string * greeks)) :
  returns (getitem results "NSE (10%)") →
  returns (difference_table ce_difference results)
  ∧ returns (difference_table pe_difference results).
Proof.
  intros [nse Hnse]. unfold difference_table. rewrite Hnse. simpl.
  split; apply difference_loop_returns; intros g.
  - apply ce_difference_returns.
  - apply pe_difference_returns.
Qed.

(** The report of the example: the echo calculator has a theta of 0 at
    every rate, and the four lines of both tables report a theta difference
    of 0. *)
Example generate_validation_report_zero_theta :
  ∃ r, generate_validation_report (gc := Examples.echo_calculator)
         (host := Examples.sample_host) "chain.csv" = Ok (Some r)
       ∧ length (ce_differences r) = 4%nat
       ∧ length (pe_differences r) = 4%nat
       ∧ Forall (λ line, theta_diff line.2 = 0) (ce_differences r)
       ∧ Forall (λ line, theta_diff line.2 = 0) (pe_differences r).
Proof.
  eexists. split; [vm_compute; reflexivity|].
  split; [done|]. split; [done|]. split; repeat constructor.
Qed.

End ReportFacts.

(** * Further properties *)

(** ** Strikes *)

Section MoreStrikes.
Import Chains.
Local Open Scope Q_scope.

Lemma get_atm_strike_Ok spot_price strike_gap atm :
  get_atm_strike spot_price strike_gap = Ok atm →
  ¬ strike_gap == 0
  ∧ atm = inject_Z (py_round (spot_price / strike_gap)) * strike_gap.
Proof.
  unfold get_atm_strike, py_div.
  destruct (Qeq_bool strike_gap 0) eqn:E; simpl; [done|].
  intros [= <-]. split; [|done]. by apply Qeq_bool_neq.
Qed.

(** The strike chosen for a spot price is its own choice: rounding a
    multiple of the gap gives the multiple back. *)
Theorem get_atm_strike_idempotent (spot_price strike_gap atm : Q) :
  get_atm_strike spot_price strike_gap = Ok atm →
  ∃ again, get_atm_strike atm strike_gap = Ok again ∧ again == atm.
Proof.
  intros [Hgap ->]%get_atm_strike_Ok.
  unfold get_atm_strike. rewrite py_div_Ok by done. simpl.
  eexists. split; [done|].
  set (n := py_round (spot_price / strike_gap)).
  assert (Hq : inject_Z n * strike_gap / strike_gap == inject_Z n)
    by (field; done).
  rewrite (py_round_Qeq _ _ Hq), py_round_integer. reflexivity.
Qed.

Lemma get_atm_strike_idempotent_witness :
  get_atm_strike (1951235 # 100) 50 = Ok (inject_Z 390 * 50)
  ∧ ∃ again, get_atm_strike (inject_Z 390 * 50) 50 = Ok again
             ∧ again == inject_Z 390 * 50.
Proof.
  split; [reflexivity|].
  apply (get_atm_strike_idempotent (1951235 # 100) 50). reflexivity.
Defined.

(** The distance of the rounded multiple, for a gap of either sign. *)
Lemma rounded_multiple_distance (spot_price strike_gap : Q) :
  ¬ strike_gap == 0 →
  Qabs (inject_Z (py_round (spot_price / strike_gap)) * strike_gap
        - spot_price)
  <= Qabs strike_gap / 2.
Proof.
  intros Hg.
  pose proof (py_round_nearest (spot_price / strike_gap)) as [Hlo Hhi].
  set (n := py_round (spot_price / strike_gap)) in *.
  assert (Hn : Qabs (inject_Z n - spot_price / strike_gap) <= 1 # 2)
    by (apply Qabs_Qle_condition; lra).
  assert (Heq : inject_Z n * strike_gap - spot_price
                == (inject_Z n - spot_price / strike_gap) * strike_gap)
    by (field; done).
  rewrite Heq, Qabs_Qmult.
  assert (Hhalf : Qabs strike_gap / 2 == (1 # 2) * Qabs strike_gap) by field.
  rewrite Hhalf. apply Qmult_le_compat_r; [done|apply Qabs_nonneg].
Qed.

(** The strikes of a run ([get_atm_strike] with the default gap of 50, then
    [get_strike_range] with 10 strikes on each side): 21 strikes, each a
    multiple of 50, and the spot price lies inside the range, at least 475
    away from either end. *)
Theorem run_strikes_bracket_spot (spot_price atm : Q) :
  get_atm_strike spot_price 50 = Ok atm →
  let strikes := get_strike_range atm 10 50 in
  length strikes = 21%nat
  ∧ (∀ x, x ∈ strikes → ∃ m : Z, x == inject_Z m * 50)
  ∧ ∃ first final,
      head strikes = Some first ∧ last strikes = Some final
      ∧ first + 475 <= spot_price ∧ spot_price <= final - 475.
Proof.
  intros Hatm strikes. subst strikes.
  pose proof (get_atm_strike_Ok _ _ _ Hatm) as [Hgap ->].
  pose proof (rounded_multiple_distance spot_price 50 Hgap) as Hd.
  set (n := py_round (spot_price / 50)) in *.
  apply Qabs_Qle_condition in Hd.
  assert (H25 : Qabs 50 / 2 == 25) by reflexivity. rewrite H25 in Hd.
  clearbody n.
  split; [by rewrite get_strike_range_length|]. split.
  - intros x Hx. apply list_elem_of_lookup in Hx as [i Hi].
    apply get_strike_range_lookup in Hi as [_ ->].
    exists (n + (- (10) + Z.of_nat i))%Z. rewrite (inject_Z_plus n). ring.
  - eexists _, _. split; [|split].
    + rewrite head_lookup. apply get_strike_range_lookup. split; [lia|done].
    + rewrite last_lookup, get_strike_range_length.
      apply get_strike_range_lookup. split; [lia|done].
    + simpl. change (inject_Z (- (10) + Z.of_nat 0)) with (-10 # 1).
      change (inject_Z (- (10) + Z.of_nat 20)) with (10 # 1). lra.
Qed.

Lemma run_strikes_bracket_spot_witness :
  get_atm_strike (1951235 # 100) 50 = Ok (inject_Z 390 * 50)
  ∧ let strikes := get_strike_range (inject_Z 390 * 50) 10 50 in
    length strikes = 21%nat
    ∧ (∀ x, x ∈ strikes → ∃ m : Z, x == inject_Z m * 50)
    ∧ ∃ first final,
        head strikes = Some first ∧ last strikes = Some final
        ∧ first + 475 <= 1951235 # 100 ∧ 1951235 # 100 <= final - 475.
Proof.
  split; [reflexivity|].
  apply (run_strikes_bracket_spot (1951235 # 100) (inject_Z 390 * 50)).
  reflexivity.
Defined.

(** A negative number of strikes gives an empty range, and the strikes of
    any range are the values [atm_strike + i * strike_gap] for [i] from
    [- num_strikes] to [num_strikes]. *)
Theorem get_strike_range_members (atm_strike : Q) (num_strikes : Z)
    (strike_gap x : Q) :
  (num_strikes < 0 → get_strike_range atm_strike num_strikes strike_gap = [])%Z
  ∧ (x ∈ get_strike_range atm_strike num_strikes strike_gap ↔
     ∃ i : Z, (- num_strikes <= i <= num_strikes)%Z
              ∧ x = atm_strike + inject_Z i * strike_gap).
Proof.
  split.
  - intros Hn. apply length_zero_iff_nil. rewrite get_strike_range_length. lia.
  - rewrite list_elem_of_lookup. split.
    + intros [i Hi]. apply get_strike_range_lookup in Hi as [Hlt ->].
      exists (- num_strikes + Z.of_nat i)%Z. split; [lia|done].
    + intros (i & Hi & ->). exists (Z.to_nat (i + num_strikes)).
      apply get_strike_range_lookup. split; [lia|].
      do 3 f_equal. lia.
Qed.

End MoreStrikes.

(** ** Filtering the options of an expiry *)

Section MoreFiltering.
Import Chains.

Lemma foldl_filter_append {A} (keep : A → bool) (xs acc : list A) :
  foldl (λ filtered x, if keep x then filtered ++ [x] else filtered) acc xs
  = acc ++ List.filter keep xs.
Proof.
  revert acc. induction xs as [|x xs IH]; intros acc; simpl.
  - by rewrite app_nil_r.
  - rewrite IH. destruct (keep x); [|done]. by rewrite <- app_assoc.
Qed.

Lemma filter_options_unfold instruments expiry_date strikes :
  filter_options_by_expiry_and_strikes instruments expiry_date strikes
  = List.filter (λ inst, py_eq (expiry inst) expiry_date
                         && existsb (Qeq_bool (strike inst)) strikes)
                instruments.
Proof.
  unfold filter_options_by_expiry_and_strikes.
  by rewrite foldl_filter_append.
Qed.

Lemma Qeq_bool_true (x y : Q) : Qeq_bool x y = true ↔ (x == y)%Q.
Proof. apply Qeq_bool_iff. Qed.

Lemma strike_requested (k : Q) (strikes : list Q) :
  existsb (Qeq_bool k) strikes = true ↔ ∃ s, s ∈ strikes ∧ (k == s)%Q.
Proof.
  rewrite existsb_exists. split.
  - intros (s & Hs & Heq). exists s. split; [by apply list_elem_of_In|].
    by apply Qeq_bool_true.
  - intros (s & Hs & Heq). exists s. split; [by apply list_elem_of_In|].
    by apply Qeq_bool_true.
Qed.

(** [filter_options_by_expiry_and_strikes] keeps, in their order, exactly
    the instruments of the given expiry whose strike is numerically equal
    to a requested strike; in particular it only returns instruments it
    was given, and nothing for an empty list of strikes. *)
Theorem filter_options_by_expiry_and_strikes_spec
    (instruments : list instrument) (expiry_date : pydate) (strikes : list Q) :
  let filtered :=
    filter_options_by_expiry_and_strikes instruments expiry_date strikes in
  filtered `sublist_of` instruments
  ∧ (∀ inst, inst ∈ filtered ↔
       inst ∈ instruments
       ∧ py_eq (expiry inst) expiry_date = true
       ∧ ∃ s, s ∈ strikes ∧ (strike inst == s)%Q)
  ∧ (strikes = [] → filtered = []).
Proof.
  intros filtered. subst filtered. rewrite filter_options_unfold.
  split; [|split].
  - induction instruments as [|inst instruments IH]; simpl; [done|].
    destruct (_ && _); [by apply sublist_skip|by apply sublist_cons].
  - intros inst. rewrite list_elem_of_In, filter_In, andb_true_iff.
    rewrite strike_requested, <- list_elem_of_In. tauto.
  - intros ->. induction instruments as [|inst instruments IH]; simpl; [done|].
    by rewrite andb_false_r.
Qed.

Lemma find_instrument_filter instruments k option_type :
  find_instrument instruments k option_type
  = List.find (λ inst, Qeq_bool (strike inst) k
                       && bool_decide (instrument_type inst = option_type))
              instruments.
Proof.
  unfold find_instrument.
  induction instruments as [|inst instruments IH]; simpl; [done|].
  rewrite filter_cons.
  destruct (decide (Qeq_bool (strike inst) k = true
                    ∧ instrument_type inst = option_type)) as [[Hk Ht]|Hn].
  - by rewrite Hk, bool_decide_eq_true_2.
  - destruct (Qeq_bool (strike inst) k); simpl; [|done].
    rewrite bool_decide_eq_false_2 by tauto. done.
Qed.

(** Filtering before building the chain loses nothing the chain looks
    for: for a requested strike, the instrument [build_options_chain]
    finds among the filtered options is the first instrument of that
    expiry, strike and type in the full list. *)
Theorem find_instrument_after_filter
    (instruments : list instrument) (expiry_date : pydate)
    (strikes : list Q) (k : Q) (option_type : string) :
  k ∈ strikes →
  find_instrument
    (filter_options_by_expiry_and_strikes instruments expiry_date strikes)
    k option_type
  = List.find (λ inst, py_eq (expiry inst) expiry_date
                       && Qeq_bool (strike inst) k
                       && bool_decide (instrument_type inst = option_type))
              instruments.
Proof.
  intros Hk. rewrite find_instrument_filter, filter_options_unfold.
  induction instruments as [|inst instruments IH]; simpl; [done|].
  destruct (py_eq (expiry inst) expiry_date) eqn:He; simpl.
  - destruct (Qeq_bool (strike inst) k) eqn:Hs; simpl.
    + assert (Hreq : existsb (Qeq_bool (strike inst)) strikes = true).
      { apply strike_requested. exists k. split; [done|].
        by apply Qeq_bool_true. }
      rewrite Hreq. simpl. rewrite Hs. simpl.
      by destruct (bool_decide _).
    + destruct (existsb _ strikes); simpl; [|done]. by rewrite Hs.
  - done.
Qed.

Lemma find_instrument_after_filter_witness :
  (19500 : Q) ∈ [19450; 19500; 19550]%Q
  ∧ find_instrument
      (filter_options_by_expiry_and_strikes
         [Examples.nifty_19500_ce; Examples.nifty_19500_pe]
         Examples.expiry_27_nov [19450; 19500; 19550]%Q)
      19500 "PE"
    = List.find (λ inst, py_eq (expiry inst) Examples.expiry_27_nov
                         && Qeq_bool (strike inst) 19500
                         && bool_decide (instrument_type inst = "PE"%string))
                [Examples.nifty_19500_ce; Examples.nifty_19500_pe].
Proof.
  split.
  - right. left.
  - apply (find_instrument_after_filter
             [Examples.nifty_19500_ce; Examples.nifty_19500_pe]
             Examples.expiry_27_nov [19450; 19500; 19550]%Q 19500 "PE").
    right. left.
Defined.

End MoreFiltering.

(** ** More on [identify_expiries] *)

Section MoreExpiries.
Import Chains.

Lemma py_sort_sorted xs ys :
  py_sort xs = Ok ys → StronglySorted pydate_le ys.
Proof.
  unfold py_sort. destruct (same_class xs); [|done].
  intros [= <-]. apply StronglySorted_merge_sort; apply _.
Qed.

Lemma identify_expiries_sorted today instruments r :
  identify_expiries today instruments = Ok r →
  StronglySorted pydate_le (weekly r) ∧ StronglySorted pydate_le (monthly r).
Proof.
  unfold identify_expiries.
  destruct (sorted_set (expiry <$> instruments)) as [expiry_dates|];
    simpl; [|done].
  case_bool_decide; [intros [= <-]; split; constructor|].
  destruct (comprehension_if _ expiry_dates) as [future|]; simpl; [|done].
  case_bool_decide; [intros [= <-]; split; constructor|].
  case_bool_decide; [intros [= <-]; split; constructor|].
  destruct (for_each classify_month _ no_expiries) as [acc|]; simpl; [|done].
  destruct (py_sort (weekly acc)) as [ws|] eqn:Hws; simpl; [|done].
  destruct (py_sort (monthly acc)) as [ms|] eqn:Hms; simpl; [|done].
  intros [= <-]. simpl. split; by eapply py_sort_sorted.
Qed.

(** Every expiry [identify_expiries] returns is the expiry of an
    instrument, is a plain date, and is not before today. *)
Theorem identify_expiries_not_past (today : date)
    (instruments : list instrument) (r : expiries) (x : pydate) :
  identify_expiries today instruments = Ok r →
  x ∈ weekly r ++ monthly r →
  (∃ inst, inst ∈ instruments ∧ expiry inst = x)
  ∧ ∃ d, x = PlainDate d ∧ date_leb today d = true.
Proof.
  intros Hr Hx. apply identify_expiries_Ok in Hr as (dates & Hset & Hall).
  destruct (Hall x Hx) as (Hin & Hge & _). split.
  - apply (sorted_set_Ok _ _ Hset) in Hin.
    apply list_elem_of_fmap in Hin as (inst & -> & Hinst). eauto.
  - by apply py_ge_today.
Qed.

Lemma identify_expiries_not_past_witness :
  identify_expiries (Date 2025 11 4) Examples.november_and_december
  = Ok Examples.november_expiries
  ∧ PlainDate (Date 2025 11 18)
    ∈ weekly Examples.november_expiries ++ monthly Examples.november_expiries
  ∧ (∃ inst, inst ∈ Examples.november_and_december
             ∧ expiry inst = PlainDate (Date 2025 11 18))
  ∧ ∃ d, PlainDate (Date 2025 11 18) = PlainDate d
         ∧ date_leb (Date 2025 11 4) d = true.
Proof.
  assert (H1 : identify_expiries (Date 2025 11 4)
                 Examples.november_and_december
               = Ok Examples.november_expiries) by (vm_compute; reflexivity).
  assert (H2 : PlainDate (Date 2025 11 18)
               ∈ weekly Examples.november_expiries
                 ++ monthly Examples.november_expiries)
    by (right; right; left).
  split; [exact H1|]. split; [exact H2|].
  exact (identify_expiries_not_past (Date 2025 11 4)
           Examples.november_and_december Examples.november_expiries
           (PlainDate (Date 2025 11 18)) H1 H2).
Defined.

(** Nothing is lost and nothing is repeated: the weekly and the monthly
    expiries together are, up to order, the distinct expiries of the
    instruments that are not before today and lie in the selected months;
    both lists are in ascending order and no expiry occurs twice. *)
Theorem identify_expiries_partition (today : date)
    (instruments : list instrument) (r : expiries) :
  identify_expiries today instruments = Ok r →
  (∃ expiry_dates,
     sorted_set (expiry <$> instruments) = Ok expiry_dates
     ∧ weekly r ++ monthly r
       ≡ₚ filter (λ x, key_of x ∈ months_to_fetch today
                          (current_monthly_expiry today expiry_dates))
            (filter (λ x, on_or_after today x = true) expiry_dates))
  ∧ StronglySorted pydate_le (weekly r)
  ∧ StronglySorted pydate_le (monthly r)
  ∧ NoDup (weekly r ++ monthly r).
Proof.
  intros Hr.
  destruct (identify_expiries_Permutation _ _ _ Hr) as (dates & Hset & Hperm).
  destruct (identify_expiries_sorted _ _ _ Hr) as [Hw Hm].
  split; [eauto|]. split; [done|]. split; [done|].
  rewrite Hperm. apply NoDup_filter, NoDup_filter.
  apply py_sort_Ok in Hset. rewrite Hset. apply NoDup_remove_dups.
Qed.

Lemma identify_expiries_partition_witness :
  identify_expiries (Date 2025 11 4) Examples.november_and_december
  = Ok Examples.november_expiries
  ∧ (∃ expiry_dates,
       sorted_set (expiry <$> Examples.november_and_december)
       = Ok expiry_dates
       ∧ weekly Examples.november_expiries
           ++ monthly Examples.november_expiries
         ≡ₚ filter (λ x, key_of x ∈ months_to_fetch (Date 2025 11 4)
                            (current_monthly_expiry (Date 2025 11 4)
                               expiry_dates))
              (filter (λ x, on_or_after (Date 2025 11 4) x = true)
                 expiry_dates))
  ∧ StronglySorted pydate_le (weekly Examples.november_expiries)
  ∧ StronglySorted pydate_le (monthly Examples.november_expiries)
  ∧ NoDup (weekly Examples.november_expiries
             ++ monthly Examples.november_expiries).
Proof.
  assert (H1 : identify_expiries (Date 2025 11 4)
                 Examples.november_and_december
               = Ok Examples.november_expiries) by (vm_compute; reflexivity).
  split; [exact H1|].
  exact (identify_expiries_partition (Date 2025 11 4)
           Examples.november_and_december Examples.november_expiries H1).
Defined.

(** The groups: one per month, in which every expiry has the month of
    the group. *)
Lemma months_seen_append_keys x d :
  Forall (λ kv : month_key * list pydate,
            Forall (λ y, key_of y = kv.1) kv.2) d →
  Forall (λ kv : month_key * list pydate,
            Forall (λ y, key_of y = kv.1) kv.2)
         (months_seen_append (key_of x) x d).
Proof.
  induction d as [|[k' xs] d IH]; intros Hd; simpl.
  - by repeat constructor.
  - inversion_clear Hd as [|? ? Hxs Hd']. destruct (decide (key_of x = k')).
    + constructor; [|done]. simpl in *. apply Forall_app. split; [done|].
      by constructor.
    + constructor; [done|]. by apply IH.
Qed.

Lemma months_seen_append_fst k x d :
  fst <$> months_seen_append k x d
  = if decide (k ∈ fst <$> d) then fst <$> d else (fst <$> d) ++ [k].
Proof.
  induction d as [|[k' xs] d IH].
  - done.
  - simpl months_seen_append. destruct (decide (k = k')) as [->|Hne].
    + rewrite !fmap_cons. simpl. rewrite decide_True by left. done.
    + rewrite !fmap_cons, IH. simpl.
      destruct (decide (k ∈ fst <$> d)) as [Hin|Hout].
      * rewrite decide_True by (by right). done.
      * rewrite decide_False; [done|]. by intros [?|?]%elem_of_cons.
Qed.

Lemma group_by_month_invariants target :
  Forall (λ kv : month_key * list pydate,
            Forall (λ y, key_of y = kv.1) kv.2) (group_by_month target)
  ∧ NoDup (fst <$> group_by_month target).
Proof.
  unfold group_by_month.
  assert (H : ∀ d,
    Forall (λ kv : month_key * list pydate,
              Forall (λ y, key_of y = kv.1) kv.2) d →
    NoDup (fst <$> d) →
    Forall (λ kv : month_key * list pydate,
              Forall (λ y, key_of y = kv.1) kv.2)
      (foldl (λ d exp, months_seen_append (key_of exp) exp d) d target)
    ∧ NoDup (fst <$> foldl (λ d exp,
                months_seen_append (key_of exp) exp d) d target)).
  { induction target as [|x target IH]; intros d Hk Hn; simpl; [done|].
    apply IH; [by apply months_seen_append_keys|].
    rewrite months_seen_append_fst. case_decide; [done|].
    apply NoDup_app. split; [done|]. split; [|apply NoDup_singleton].
    intros y Hy ->%list_elem_of_singleton. done. }
  apply H; constructor.
Qed.

Lemma NoDup_concat_elem {A} (ls : list (list A)) (l : list A) :
  NoDup (concat ls) → l ∈ ls → NoDup l.
Proof.
  induction ls as [|l' ls IH]; simpl; [by intros _ ?%elem_of_nil|].
  intros (H1 & _ & H2)%NoDup_app [->|Hl]%elem_of_cons; [done|by apply IH].
Qed.

Lemma classify_month_later item acc acc' :
  Forall (λ y, key_of y = item.1) item.2 → NoDup item.2 →
  has_later_monthly acc →
  classify_month item acc = Ok acc' →
  has_later_monthly acc'
  ∧ key_of <$> monthly acc' = (key_of <$> monthly acc) ++ [item.1].
Proof.
  intros Hkey Hnd Hinv. unfold classify_month.
  destruct (py_sort item.2) as [sorted|] eqn:Hs; simpl; [|done].
  pose proof (py_sort_sorted _ _ Hs) as Hsorted.
  apply py_sort_Ok in Hs.
  assert (Hkeys : ∀ y, y ∈ sorted → key_of y = item.1).
  { intros y Hy. rewrite Hs in Hy. rewrite Forall_forall in Hkey. auto. }
  assert (Hnd' : NoDup sorted) by by rewrite Hs.
  destruct (1 <? length sorted)%nat.
  - destruct (last sorted) as [l|] eqn:Hl; [|done].
    intros [= <-]. simpl. split.
    + intros w [Hw|Hw]%elem_of_app.
      * destruct (Hinv w Hw) as (m & Hm & ?). exists m. split; [|done].
        apply elem_of_app. by left.
      * exists l. split; [apply elem_of_app; right; by left|].
        pose proof (removelast_last sorted l Hl) as E.
        assert (Hin : w ∈ sorted) by (rewrite <- E, elem_of_app; by left).
        split; [by rewrite (Hkeys l (last_Some_elem_of _ _ Hl)), (Hkeys w)|].
        rewrite <- E in Hnd'. apply NoDup_app in Hnd' as (_ & Hdisj & _).
        assert (Hne : w ≠ l).
        { intros ->. apply (Hdisj l Hw). by left. }
        split; [|done].
        by destruct (StronglySorted_last pydate_le sorted l w Hsorted Hl Hin).
    + rewrite fmap_app. simpl. do 2 f_equal.
      apply Hkeys. by apply last_Some_elem_of.
  - destruct sorted as [|x sorted']; [done|].
    intros [= <-]. simpl. split.
    + intros w Hw. destruct (Hinv w Hw) as (m & Hm & ?). exists m.
      split; [|done]. apply elem_of_app. by left.
    + rewrite fmap_app. simpl. do 2 f_equal. apply Hkeys. by left.
Qed.

Lemma classify_all_later groups acc acc' :
  Forall (λ kv : month_key * list pydate,
            Forall (λ y, key_of y = kv.1) kv.2) groups →
  Forall (λ kv : month_key * list pydate, NoDup kv.2) groups →
  has_later_monthly acc →
  for_each classify_month groups acc = Ok acc' →
  has_later_monthly acc'
  ∧ key_of <$> monthly acc' = (key_of <$> monthly acc) ++ (fst <$> groups).
Proof.
  revert acc. induction groups as [|item groups IH]; intros acc Hk Hn Hinv;
    simpl.
  - intros [= <-]. by rewrite app_nil_r.
  - inversion_clear Hk as [|? ? Hk1 Hk2]. inversion_clear Hn as [|? ? Hn1 Hn2].
    destruct (classify_month item acc) as [acc1|] eqn:Hstep; simpl; [|done].
    destruct (classify_month_later item acc acc1) as [Hinv1 Hkeys1]; [done..|].
    intros H. destruct (IH acc1) as [Hinv' Hkeys']; [done..|].
    split; [done|]. rewrite Hkeys', Hkeys1, <- app_assoc. done.
Qed.

(** How the expiries are classified: every weekly expiry has, among the
    monthly ones, a strictly later expiry of its own month; and no two
    monthly expiries lie in the same month.  So the monthly expiry of a
    month is the last of its expiries that are returned. *)
Theorem identify_expiries_classification (today : date)
    (instruments : list instrument) (r : expiries) :
  identify_expiries today instruments = Ok r →
  (∀ w, w ∈ weekly r →
     ∃ m, m ∈ monthly r ∧ key_of m = key_of w ∧ pydate_le w m ∧ w ≠ m)
  ∧ NoDup (key_of <$> monthly r).
Proof.
  unfold identify_expiries.
  destruct (sorted_set (expiry <$> instruments)) as [expiry_dates|] eqn:Hset;
    simpl; [|done].
  case_bool_decide;
    [intros [= <-]; split; [by intros w ?%elem_of_nil|constructor]|].
  destruct (comprehension_if _ expiry_dates) as [future|] eqn:Hfut;
    simpl; [|done].
  case_bool_decide;
    [intros [= <-]; split; [by intros w ?%elem_of_nil|constructor]|].
  case_bool_decide;
    [intros [= <-]; split; [by intros w ?%elem_of_nil|constructor]|].
  set (target := filter _ future).
  assert (Htarget : NoDup target).
  { subst target. apply NoDup_filter.
    apply (comprehension_if_filter _ (on_or_after today)) in Hfut;
      [|intros x b; apply py_ge_on_or_after].
    rewrite Hfut. apply NoDup_filter.
    apply py_sort_Ok in Hset. rewrite Hset. apply NoDup_remove_dups. }
  destruct (group_by_month_invariants target) as [Hkeys Hfst].
  assert (Hnd : Forall (λ kv : month_key * list pydate, NoDup kv.2)
                  (group_by_month target)).
  { apply Forall_forall. intros kv Hkv.
    apply (NoDup_concat_elem (snd <$> group_by_month target)).
    - by rewrite group_by_month_concat.
    - by apply list_elem_of_fmap_2. }
  destruct (for_each classify_month (group_by_month target) no_expiries)
    as [acc|] eqn:Hacc; simpl; [|done].
  destruct (classify_all_later _ _ _ Hkeys Hnd
              (λ w (H : w ∈ []), False_ind _ (not_elem_of_nil w H)) Hacc)
    as [Hinv Hmonths].
  destruct (py_sort (weekly acc)) as [ws|] eqn:Hws; simpl; [|done].
  destruct (py_sort (monthly acc)) as [ms|] eqn:Hms; simpl; [|done].
  intros [= <-]. simpl. apply py_sort_Ok in Hws, Hms. split.
  - intros w Hw. rewrite Hws in Hw.
    destruct (Hinv w Hw) as (m & Hm & ?). exists m. by rewrite Hms.
  - rewrite Hms, Hmonths. done.
Qed.

Lemma identify_expiries_classification_witness :
  identify_expiries (Date 2025 11 4) Examples.november_and_december
  = Ok Examples.november_expiries
  ∧ (∀ w, w ∈ weekly Examples.november_expiries →
       ∃ m, m ∈ monthly Examples.november_expiries
            ∧ key_of m = key_of w ∧ pydate_le w m ∧ w ≠ m)
  ∧ NoDup (key_of <$> monthly Examples.november_expiries).
Proof.
  assert (H1 : identify_expiries (Date 2025 11 4)
                 Examples.november_and_december
               = Ok Examples.november_expiries) by (vm_compute; reflexivity).
  split; [exact H1|].
  exact (identify_expiries_classification (Date 2025 11 4)
           Examples.november_and_december Examples.november_expiries H1).
Defined.

(** An expiry that is a datetime makes [identify_expiries] raise
    [TypeError]: sorting dates mixed with datetimes raises, and so does the
    comparison of a datetime with today's date.  The branches that call
    [.date()] are therefore never reached with a result. *)
Theorem identify_expiries_datetime (today : date)
    (instruments : list instrument) :
  (∃ inst, inst ∈ instruments ∧ hasattr_date (expiry inst) = true) →
  identify_expiries today instruments = Raise TypeError.
Proof.
  intros (inst & Hinst & Hdt). unfold identify_expiries, sorted_set, py_sort.
  set (s := remove_dups (expiry <$> instruments)).
  assert (Hin : expiry inst ∈ s).
  { subst s. rewrite elem_of_remove_dups. by apply list_elem_of_fmap_2. }
  destruct (same_class s) eqn:Hclass; [|done]. simpl.
  assert (Hall : ∀ x, x ∈ merge_sort pydate_le s → hasattr_date x = true).
  { intros x Hx. rewrite merge_sort_Permutation in Hx.
    unfold same_class in Hclass. apply orb_true_iff in Hclass as [Hp|Hd].
    - rewrite forallb_forall in Hp.
      specialize (Hp (expiry inst) (proj1 (list_elem_of_In _ _) Hin)).
      by rewrite Hdt in Hp.
    - rewrite forallb_forall in Hd. apply Hd. by apply list_elem_of_In. }
  destruct (merge_sort pydate_le s) as [|x xs] eqn:Hsorted.
  - exfalso. pose proof (merge_sort_Permutation pydate_le s) as Hperm.
    rewrite Hsorted in Hperm. apply Permutation_nil_l in Hperm.
    rewrite <- Hperm in Hin. by apply elem_of_nil in Hin.
  - rewrite bool_decide_eq_false_2 by done. simpl.
    specialize (Hall x (list_elem_of_here _ _)). by destruct x.
Qed.

Lemma identify_expiries_datetime_witness :
  (∃ inst, inst ∈ [Instrument "NIFTY" "CE" (DateTime (Date 2025 11 27) 0)
                     19500 "NIFTY25NOV19500CE"]
           ∧ hasattr_date (expiry inst) = true)
  ∧ identify_expiries (Date 2025 11 4)
      [Instrument "NIFTY" "CE" (DateTime (Date 2025 11 27) 0) 19500
         "NIFTY25NOV19500CE"]
    = Raise TypeError.
Proof.
  assert (H : ∃ inst, inst ∈ [Instrument "NIFTY" "CE"
                                (DateTime (Date 2025 11 27) 0) 19500
                                "NIFTY25NOV19500CE"]
                      ∧ hasattr_date (expiry inst) = true).
  { eexists. split; [left|reflexivity]. }
  split; [exact H|].
  exact (identify_expiries_datetime (Date 2025 11 4) _ H).
Defined.

End MoreExpiries.

(** ** More on [build_options_chain] and [run] *)

Section MoreChain.
Import Chains Policy.
Local Open Scope Q_scope.

Lemma option_side_without_quote {gc : GreeksCalculator} option_type i quotes
    spot_price strike_price t c :
  quotes !! ("NFO:" +:+ tradingsymbol i)%string = None →
  option_side option_type (Some i) quotes spot_price strike_price t = Ok c →
  ∃ g, calculate_all_greeks spot_price strike_price t (15 # 100) option_type
         None = Ok g
       ∧ c = OptionColumns 0 0 0 0 0 0 0 0 0 0
               (delta g) (gamma g) (vega g) (theta g).
Proof.
  intros Hq. simpl. rewrite Hq. simpl.
  destruct (calculate_all_greeks _ _ _ _ _ _) as [g|]; simpl; [|done].
  intros [= <-]. by exists g.
Qed.

(** An instrument without quote: when the quotes hold nothing under the
    key of the call (resp. put) of a row, all its market columns and its
    [IV] are 0, and its Greeks are the calculator's at the fallback
    volatility of 15%. *)
Theorem build_options_chain_without_quote (gc : GreeksCalculator)
    (instruments : list instrument) (quotes : gmap string quote)
    (strikes : list Q) (spot_price : Q) (expiry_date : pydate)
    (futures_price : option Q) (timestamp : string) (rows : list row)
    (r : row) :
  build_options_chain instruments quotes strikes spot_price expiry_date
    futures_price timestamp = Ok rows →
  r ∈ rows →
  ∃ t, get_time_to_expiry expiry_date None = Ok t
    ∧ (∀ i, find_instrument instruments (Strike_Price r) "CE" = Some i →
            quotes !! ("NFO:" +:+ tradingsymbol i)%string = None →
            ∃ g, calculate_all_greeks spot_price (Strike_Price r) t
                   (15 # 100) "CE" None = Ok g
                 ∧ CE r = OptionColumns 0 0 0 0 0 0 0 0 0 0
                            (delta g) (gamma g) (vega g) (theta g))
    ∧ (∀ i, find_instrument instruments (Strike_Price r) "PE" = Some i →
            quotes !! ("NFO:" +:+ tradingsymbol i)%string = None →
            ∃ g, calculate_all_greeks spot_price (Strike_Price r) t
                   (15 # 100) "PE" None = Ok g
                 ∧ PE r = OptionColumns 0 0 0 0 0 0 0 0 0 0
                            (delta g) (gamma g) (vega g) (theta g)).
Proof.
  intros Hb Hr. apply build_options_chain_Ok in Hb as (t & Ht & Hlen & Hrows).
  exists t. split; [done|].
  apply list_elem_of_lookup in Hr as [n Hn].
  destruct (strikes !! n) as [k|] eqn:Hk.
  - destruct (Hrows n k Hk) as (r' & Hn' & Hr').
    assert (r' = r) as -> by congruence.
    apply build_row_Ok in Hr' as (-> & Hce & Hpe).
    split; intros i Hi Hq.
    + rewrite Hi in Hce. by eapply option_side_without_quote.
    + rewrite Hi in Hpe. by eapply option_side_without_quote.
  - apply lookup_ge_None in Hk. apply lookup_lt_Some in Hn. lia.
Qed.

Lemma build_options_chain_without_quote_witness :
  ∃ rows r,
    build_options_chain (gc := Examples.echo_calculator)
      [Examples.nifty_19500_ce] ∅ [19500] 19512 Examples.expiry_27_nov None
      "2025-11-27 15:30:00" = Ok rows
    ∧ r ∈ rows
    ∧ ∃ t, @get_time_to_expiry Examples.echo_calculator
             Examples.expiry_27_nov None = Ok t
      ∧ (∀ i, find_instrument [Examples.nifty_19500_ce] (Strike_Price r) "CE"
              = Some i →
              (∅ : gmap string quote) !! ("NFO:" +:+ tradingsymbol i)%string
              = None →
              ∃ g, @calculate_all_greeks Examples.echo_calculator 19512
                     (Strike_Price r) t (15 # 100) "CE" None = Ok g
                   ∧ CE r = OptionColumns 0 0 0 0 0 0 0 0 0 0
                              (delta g) (gamma g) (vega g) (theta g))
      ∧ (∀ i, find_instrument [Examples.nifty_19500_ce] (Strike_Price r) "PE"
              = Some i →
              (∅ : gmap string quote) !! ("NFO:" +:+ tradingsymbol i)%string
              = None →
              ∃ g, @calculate_all_greeks Examples.echo_calculator 19512
                     (Strike_Price r) t (15 # 100) "PE" None = Ok g
                   ∧ PE r = OptionColumns 0 0 0 0 0 0 0 0 0 0
                              (delta g) (gamma g) (vega g) (theta g)).
Proof.
  eexists _, _. split; [vm_compute; reflexivity|]. split; [left|].
  eapply (build_options_chain_without_quote Examples.echo_calculator
            [Examples.nifty_19500_ce] ∅ [19500] 19512 Examples.expiry_27_nov
            None "2025-11-27 15:30:00").
  - vm_compute. reflexivity.
  - left.
Defined.

Section Files.
Context {gc : GreeksCalculator} {broker : Broker}.

Lemma chain_to_csv_Ok all_options strikes spot_price futures_price kind
    expiry_date df filepath :
  chain_to_csv all_options strikes spot_price futures_price kind expiry_date
  = Ok (df, filepath) →
  length df = length strikes.
Proof.
  unfold chain_to_csv.
  destruct (fetch_market_data _) as [quotes|]; simpl; [|done].
  destruct (build_options_chain _ _ _ _ _ _ _) as [rows|] eqn:Hb;
    simpl; [|done].
  destruct (export_to_csv _ _ _) as [path|]; simpl; [|done].
  intros [= <- <-].
  by apply build_options_chain_Ok in Hb as (t & _ & Hlen & _).
Qed.

Lemma process_expiry_consistent all_options strikes spot_price futures_price
    kind expiry_date p p' :
  kind = "weekly"%string ∨ kind = "monthly"%string →
  consistent (length strikes) p →
  process_expiry all_options strikes spot_price futures_price kind
    expiry_date p = Ok p' →
  consistent (length strikes) p'.
Proof.
  intros Hkind (Hlen & Hidx & Hfiles). unfold process_expiry.
  destruct (chain_to_csv _ _ _ _ _ _) as [[df filepath]|e] eqn:Hc; simpl.
  - intros [= <-]. apply chain_to_csv_Ok in Hc.
    split; [|split]; simpl.
    + rewrite length_app. simpl. lia.
    + lia.
    + apply Forall_app. split; [done|].
      constructor; [by split|constructor].
  - destruct (isinstance_Exception e); [|done].
    intros [= <-]. split; [|split]; simpl; [done|lia|done].
Qed.

Lemma process_loop_consistent all_options strikes spot_price futures_price
    kind expiry_dates p p' :
  kind = "weekly"%string ∨ kind = "monthly"%string →
  consistent (length strikes) p →
  for_each (process_expiry all_options strikes spot_price futures_price kind)
    expiry_dates p = Ok p' →
  consistent (length strikes) p'.
Proof.
  intros Hkind. revert p.
  induction expiry_dates as [|x xs IH]; intros p Hp; simpl.
  - by intros [= <-].
  - destruct (process_expiry _ _ _ _ _ x p) as [p1|] eqn:H1; simpl; [|done].
    apply IH. by eapply process_expiry_consistent.
Qed.

(** An exception that is not an [Exception] (a [KeyboardInterrupt], a
    [SystemExit]) is not caught by the loop: it leaves the loop at the
    expiry where it is raised, and the expiries after it are not
    processed. *)
Theorem process_loop_interrupted (all_options : list instrument)
    (strikes : list Q) (spot_price : Q) (futures_price : option Q)
    (kind : string) (before after : list pydate) (x : pydate) (e : exn)
    (p : progress) :
  (∀ y e', y ∈ before →
     chain_to_csv all_options strikes spot_price futures_price kind y
     = Raise e' → isinstance_Exception e' = true) →
  chain_to_csv all_options strikes spot_price futures_price kind x = Raise e →
  isinstance_Exception e = false →
  for_each (process_expiry all_options strikes spot_price futures_price kind)
    (before ++ x :: after) p = Raise e.
Proof.
  intros Hbefore Hx He. revert p.
  induction before as [|y before IH]; intros p; simpl.
  - unfold process_expiry. rewrite Hx. simpl. by rewrite He.
  - destruct (process_expiry_step all_options strikes spot_price
                futures_price kind y p) as (p1 & -> & _).
    { intros e'. apply Hbefore. left. }
    simpl. apply IH. intros z e' Hz. apply Hbefore. by right.
Qed.

End Files.

Lemma process_loop_interrupted_witness :
  (∀ y e', y ∈ PlainDate <$> [Date 2025 11 4; Date 2025 11 11] →
     chain_to_csv (gc := Examples.echo_calculator)
       (broker := MoreExamples.interrupted_broker)
       Examples.november_and_december [19500] 19512 None "weekly" y
     = Raise e' → isinstance_Exception e' = true)
  ∧ chain_to_csv (gc := Examples.echo_calculator)
      (broker := MoreExamples.interrupted_broker)
      Examples.november_and_december [19500] 19512 None "weekly"
      (PlainDate (Date 2025 11 18)) = Raise KeyboardInterrupt
  ∧ isinstance_Exception KeyboardInterrupt = false
  ∧ for_each (process_expiry (gc := Examples.echo_calculator)
                (broker := MoreExamples.interrupted_broker)
                Examples.november_and_december [19500] 19512 None "weekly")
      ((PlainDate <$> [Date 2025 11 4; Date 2025 11 11])
         ++ PlainDate (Date 2025 11 18) :: [PlainDate (Date 2025 11 25)])
      (Progress [] 0 0 0)
    = Raise KeyboardInterrupt.
Proof.
  assert (H1 : ∀ y e', y ∈ PlainDate <$> [Date 2025 11 4; Date 2025 11 11] →
     chain_to_csv (gc := Examples.echo_calculator)
       (broker := MoreExamples.interrupted_broker)
       Examples.november_and_december [19500] 19512 None "weekly" y
     = Raise e' → isinstance_Exception e' = true).
  { intros y e' Hy. rewrite !fmap_cons, !elem_of_cons, fmap_nil in Hy.
    destruct Hy as [->|[->|Hy]].
    - vm_compute. discriminate.
    - vm_compute. by intros [= <-].
    - by apply elem_of_nil in Hy. }
  assert (H2 : chain_to_csv (gc := Examples.echo_calculator)
      (broker := MoreExamples.interrupted_broker)
      Examples.november_and_december [19500] 19512 None "weekly"
      (PlainDate (Date 2025 11 18)) = Raise KeyboardInterrupt)
    by (vm_compute; reflexivity).
  split; [exact H1|]. split; [exact H2|]. split; [reflexivity|].
  exact (process_loop_interrupted (gc := Examples.echo_calculator)
           (broker := MoreExamples.interrupted_broker)
           Examples.november_and_december [19500] 19512 None "weekly"
           (PlainDate <$> [Date 2025 11 4; Date 2025 11 11])
           [PlainDate (Date 2025 11 25)] (PlainDate (Date 2025 11 18))
           KeyboardInterrupt (Progress [] 0 0 0) H1 H2 eq_refl).
Defined.

(** The files of a run: when [run] gets to its summary, the number of files
    is the number of successes, every expiry processed is either a success
    or an error, and every file records the 21 strikes of the range and is
    a weekly or a monthly one. *)
Theorem run_files (gc : GreeksCalculator) (broker : Broker) (p : progress) :
  run = Ok (Some p) →
  length (created_files p) = success_count p
  ∧ current_idx p = (success_count p + error_count p)%nat
  ∧ Forall (λ f, file_strikes f = 21%nat
                 ∧ (file_type f = "weekly"%string
                    ∨ file_type f = "monthly"%string)) (created_files p).
Proof.
  unfold run. destruct authenticate; simpl; [|done].
  destruct get_nifty_spot_price as [spot_price|]; [|done].
  destruct (truthy spot_price); simpl; [|done].
  case_bool_decide; [done|].
  destruct (identify_expiries today fetch_nifty_options) as [found|];
    simpl; [|done].
  destruct (_ && _); [done|].
  set (strikes := get_strike_range _ 10 50).
  set (futures_price := _ ≫= get_nifty_futures_price).
  unfold process_all.
  destruct (for_each _ (weekly found) _) as [p1|] eqn:H1; simpl; [|done].
  destruct (for_each _ (monthly found) p1) as [p2|] eqn:H2; simpl; [|done].
  intros [= <-].
  assert (H21 : length strikes = 21%nat)
    by (subst strikes; by rewrite get_strike_range_length).
  rewrite <- H21.
  eapply process_loop_consistent; [by right| |exact H2].
  eapply process_loop_consistent; [by left| |exact H1].
  split; [done|]. split; [done|]. constructor.
Qed.

Lemma run_files_witness :
  ∃ p, run (gc := Examples.echo_calculator) (broker := Examples.flaky_broker)
       = Ok (Some p)
       ∧ length (created_files p) = success_count p
       ∧ current_idx p = (success_count p + error_count p)%nat
       ∧ Forall (λ f, file_strikes f = 21%nat
                      ∧ (file_type f = "weekly"%string
                         ∨ file_type f = "monthly"%string))
                (created_files p).
Proof.
  eexists. split; [vm_compute; reflexivity|].
  apply (run_files Examples.echo_calculator Examples.flaky_broker).
  vm_compute. reflexivity.
Defined.

End MoreChain.

(** ** More on the validation report *)

Section MoreReport.
Import Validation ReportLines.
Local Open Scope Q_scope.
Local Arguments Nat.div : simpl never.

Lemma div_abs_pos (num x : Q) : 0 < x → num / Qabs x * 100 == num / x * 100.
Proof. intros H. by rewrite Qabs_pos by lra. Qed.

Lemma div_abs_neg (num x : Q) :
  x < 0 → num / Qabs x * 100 == - (num / x * 100).
Proof. intros H. rewrite Qabs_neg by lra. field. lra. Qed.

(** The two tables of differences differ only in sign: gamma and vega are
    computed alike for calls and puts; for delta and theta the put divides
    by the absolute value of the reference, so the put's figure is the
    call's when the reference is positive and its opposite when the
    reference is negative. *)
Theorem pe_difference_sign (g nse : greeks) :
  ∃ dc dp,
    ce_difference g nse = Ok dc ∧ pe_difference g nse = Ok dp
    ∧ gamma_diff dp = gamma_diff dc
    ∧ vega_diff dp = vega_diff dc
    ∧ (0 <= delta nse → delta_diff dp == delta_diff dc)
    ∧ (delta nse < 0 → delta_diff dp == - delta_diff dc)
    ∧ (0 <= theta nse → theta_diff dp == theta_diff dc)
    ∧ (theta nse < 0 → theta_diff dp == - theta_diff dc).
Proof.
  destruct (percent_if_nonzero_Ok (delta g - delta nse) (delta nse)
              (delta nse)) as (c1 & C1 & Zc1 & Nc1); [done|].
  destruct (percent_if_nonzero_Ok (gamma g - gamma nse) (gamma nse)
              (gamma nse)) as (c2 & C2 & _); [done|].
  destruct (percent_if_nonzero_Ok (vega g - vega nse) (vega nse)
              (vega nse)) as (c3 & C3 & _); [done|].
  destruct (percent_if_nonzero_Ok (theta g - theta nse) (theta nse)
              (theta nse)) as (c4 & C4 & Zc4 & Nc4); [done|].
  destruct (percent_if_nonzero_Ok (delta g - delta nse) (Qabs (delta nse))
              (delta nse)) as (p1 & P1 & Zp1 & Np1); [apply Qabs_zero|].
  destruct (percent_if_nonzero_Ok (theta g - theta nse) (Qabs (theta nse))
              (theta nse)) as (p4 & P4 & Zp4 & Np4); [apply Qabs_zero|].
  exists (Differences c1 c2 c3 c4), (Differences p1 c2 c3 p4).
  split; [unfold ce_difference; by rewrite C1, C2, C3, C4|].
  split; [unfold pe_difference; by rewrite P1, C2, C3, P4|].
  simpl. split; [done|]. split; [done|]. repeat split.
  - intros H. destruct (Qeq_dec (delta nse) 0) as [Hz|Hnz].
    + by rewrite (Zc1 Hz), (Zp1 Hz).
    + rewrite (Nc1 Hnz), (Np1 Hnz). apply div_abs_pos. lra.
  - intros H. rewrite Nc1, Np1 by lra. by apply div_abs_neg.
  - intros H. destruct (Qeq_dec (theta nse) 0) as [Hz|Hnz].
    + by rewrite (Zc4 Hz), (Zp4 Hz).
    + rewrite (Nc4 Hnz), (Np4 Hnz). apply div_abs_pos. lra.
  - intros H. rewrite Nc4, Np4 by lra. by apply div_abs_neg.
Qed.

Section WithHost.
Context {gc : GreeksCalculator} {host : ReportHost}.

(** The cases in which no report is produced, whatever the calculator.  A
    CSV file that cannot be read, an empty one, a middle row without expiry
    date in a file in which some row has one, and an expiry date that
    neither format parses end the report early, without raising.  A file
    in which no row has an expiry date has no column [Expiry_Date]: there
    the report raises [KeyError]. *)
Theorem generate_validation_report_gives_up (csv_path : string) :
  (∀ e, read_csv csv_path = Raise e → isinstance_Exception e = true →
        generate_validation_report csv_path = Ok None)
  ∧ (read_csv csv_path = Ok [] →
     generate_validation_report csv_path = Ok None)
  ∧ (∀ df atm_row other expiry_str,
       read_csv csv_path = Ok df →
       df !! (length df `div` 2)%nat = Some atm_row →
       Expiry_Date atm_row = None →
       other ∈ df → Expiry_Date other = Some expiry_str →
       generate_validation_report csv_path = Ok None)
  ∧ (∀ df,
       read_csv csv_path = Ok df → df ≠ [] →
       Forall (λ r, Expiry_Date r = None) df →
       generate_validation_report csv_path
       = Raise (OtherException "KeyError"))
  ∧ (∀ df atm_row expiry_str e1 e2,
       read_csv csv_path = Ok df →
       df !! (length df `div` 2)%nat = Some atm_row →
       Expiry_Date atm_row = Some expiry_str →
       strptime expiry_str "%d-%b-%Y" = Raise e1 →
       strptime expiry_str "%Y-%m-%d" = Raise e2 →
       generate_validation_report csv_path = Ok None).
Proof.
  unfold generate_validation_report. repeat split.
  - intros e -> He. simpl. by rewrite He.
  - by intros ->.
  - intros df atm_row other expiry_str -> Hrow Hdate Hin Hother. simpl.
    case_bool_decide; [done|]. rewrite Hrow.
    unfold getitem_Expiry_Date, has_Expiry_Date. rewrite Hdate.
    rewrite bool_decide_eq_true_2; [done|].
    apply Exists_exists. exists other. by rewrite Hother.
  - intros df -> Hne Hall. simpl.
    case_bool_decide; [done|].
    destruct (df !! (length df `div` 2)%nat) as [atm_row|] eqn:Hrow.
    + unfold getitem_Expiry_Date, has_Expiry_Date.
      rewrite (proj1 (Forall_lookup _ _) Hall _ _ Hrow).
      rewrite bool_decide_eq_false_2; [done|].
      intros (r & Hr & [s Hs])%Exists_exists.
      rewrite Forall_forall in Hall. by rewrite (Hall r Hr) in Hs.
    + apply lookup_ge_None in Hrow. destruct df as [|r df]; [done|].
      pose proof (Nat.div_lt (length (r :: df)) 2) as Hlt.
      simpl in Hrow, Hlt. lia.
  - intros df atm_row expiry_str e1 e2 -> Hrow Hdate H1 H2. simpl.
    case_bool_decide; [done|]. rewrite Hrow.
    unfold getitem_Expiry_Date. rewrite Hdate. simpl.
    unfold parse_expiry. by rewrite H1, H2.
Qed.

Lemma greeks_by_rate_Ok price t iv option_type results :
  greeks_by_rate price price t iv option_type = Ok results →
  Forall2 (greeks_line price t iv option_type) rates_to_compare results.
Proof.
  unfold greeks_by_rate, calculate_greeks_with_rate, rates_to_compare.
  simpl.
  destruct (calculate_all_greeks price price t iv option_type (Some (10 # 100)))
    as [g1|] eqn:H1; simpl; [|done].
  destruct (calculate_all_greeks price price t iv option_type
              (Some (65 # 1000))) as [g2|] eqn:H2; simpl; [|done].
  destruct (calculate_all_greeks price price t iv option_type
              (Some (543 # 10000))) as [g3|] eqn:H3; simpl; [|done].
  destruct (calculate_all_greeks price price t iv option_type
              (Some (5 # 100))) as [g4|] eqn:H4; simpl; [|done].
  intros [= <-]. repeat constructor; done.
Qed.

End WithHost.

Lemma difference_loop_Ok
    (difference : greeks → greeks → outcome differences) (nse : greeks)
    results table table' :
  for_each (λ '(rate_name, g) table,
              if bool_decide (rate_name = "NSE (10%)"%string)
              then Ok (table ++ [(rate_name, Differences 0 0 0 0)])
              else d ← difference g nse; Ok (table ++ [(rate_name, d)]))
           results table = Ok table' →
  ∃ lines, table' = table ++ lines
           ∧ Forall2 (difference_line difference nse) results lines.
Proof.
  revert table. induction results as [|[rate_name g] results IH];
    intros table; simpl.
  - intros [= <-]. exists []. by rewrite app_nil_r.
  - case_bool_decide as Hname; simpl.
    + intros (lines & -> & Hlines)%IH. eexists (_ :: lines).
      rewrite <- app_assoc. split; [done|]. constructor; [|done].
      by repeat split.
    + destruct (difference g nse) as [d|] eqn:Hd; simpl; [|done].
      intros (lines & -> & Hlines)%IH. eexists (_ :: lines).
      rewrite <- app_assoc. split; [done|]. constructor; [|done].
      by repeat split.
Qed.

Lemma difference_table_Ok
    (difference : greeks → greeks → outcome differences) results table :
  difference_table difference results = Ok table →
  ∃ nse, getitem results "NSE (10%)" = Ok nse
         ∧ Forall2 (difference_line difference nse) results table.
Proof.
  unfold difference_table.
  destruct (getitem results "NSE (10%)") as [nse|]; simpl; [|done].
  intros (lines & -> & Hlines)%difference_loop_Ok. by exists nse.
Qed.

(** The contents of a report.  It is made from the middle row of the CSV
    file, with the strike of that row as spot price and its [IV] columns
    divided by 100 as volatilities; the tables of Greeks have one line per
    rate of [rates_to_compare], in that order, each the calculator's answer
    at that rate; the tables of differences have the same lines, zeros on
    the line of the NSE rate and the differences with that line
    elsewhere. *)
Theorem generate_validation_report_contents (gc : GreeksCalculator)
    (host : ReportHost) (csv_path : string) (rep : report) :
  generate_validation_report csv_path = Ok (Some rep) →
  ∃ df atm_row t nse_ce nse_pe,
    read_csv csv_path = Ok df
    ∧ df !! (length df `div` 2)%nat = Some atm_row
    ∧ Forall2 (greeks_line (Strike_Price atm_row) t (IV (CE atm_row) / 100)
                 "CE") rates_to_compare (ce_results rep)
    ∧ Forall2 (greeks_line (Strike_Price atm_row) t (IV (PE atm_row) / 100)
                 "PE") rates_to_compare (pe_results rep)
    ∧ getitem (ce_results rep) "NSE (10%)" = Ok nse_ce
    ∧ getitem (pe_results rep) "NSE (10%)" = Ok nse_pe
    ∧ Forall2 (difference_line ce_difference nse_ce) (ce_results rep)
        (ce_differences rep)
    ∧ Forall2 (difference_line pe_difference nse_pe) (pe_results rep)
        (pe_differences rep).
Proof.
  unfold generate_validation_report.
  destruct (read_csv csv_path) as [df|e]; simpl;
    [|by destruct (isinstance_Exception e)].
  case_bool_decide; [done|].
  destruct (df !! (length df `div` 2)%nat) as [atm_row|] eqn:Hrow; [|done].
  destruct (getitem_Expiry_Date df atm_row) as [expiry_str|]; simpl; [|done].
  destruct (match expiry_str with
            | Some expiry_str => parse_expiry expiry_str
            | None => Ok None
            end) as [[expiry_date|]|]; simpl; [|done..].
  destruct (get_time_to_expiry expiry_date (Some now)) as [t|]; simpl; [|done].
  destruct (greeks_by_rate _ _ t (IV (CE atm_row) / 100) "CE")
    as [ce|] eqn:Hce; simpl; [|done].
  destruct (greeks_by_rate _ _ t (IV (PE atm_row) / 100) "PE")
    as [pe|] eqn:Hpe; simpl; [|done].
  destruct (difference_table ce_difference ce) as [cd|] eqn:Hcd;
    simpl; [|done].
  destruct (difference_table pe_difference pe) as [pd|] eqn:Hpd;
    simpl; [|done].
  intros [= <-]. simpl.
  apply difference_table_Ok in Hcd as (nse_ce & Hnc & Hcd).
  apply difference_table_Ok in Hpd as (nse_pe & Hnp & Hpd).
  exists df, atm_row, t, nse_ce, nse_pe.
  repeat split; try done; by apply greeks_by_rate_Ok.
Qed.

Lemma generate_validation_report_contents_witness :
  ∃ rep,
    generate_validation_report (gc := Examples.echo_calculator)
      (host := Examples.sample_host) "chain.csv" = Ok (Some rep)
    ∧ ∃ df atm_row t nse_ce nse_pe,
        @read_csv Examples.sample_host "chain.csv" = Ok df
        ∧ df !! (length df `div` 2)%nat = Some atm_row
        ∧ Forall2 (greeks_line (gc := Examples.echo_calculator)
                     (Strike_Price atm_row) t (IV (CE atm_row) / 100) "CE")
            rates_to_compare (ce_results rep)
        ∧ Forall2 (greeks_line (gc := Examples.echo_calculator)
                     (Strike_Price atm_row) t (IV (PE atm_row) / 100) "PE")
            rates_to_compare (pe_results rep)
        ∧ getitem (ce_results rep) "NSE (10%)" = Ok nse_ce
        ∧ getitem (pe_results rep) "NSE (10%)" = Ok nse_pe
        ∧ Forall2 (difference_line ce_difference nse_ce) (ce_results rep)
            (ce_differences rep)
        ∧ Forall2 (difference_line pe_difference nse_pe) (pe_results rep)
            (pe_differences rep).
Proof.
  eexists. split; [vm_compute; reflexivity|].
  apply (generate_validation_report_contents Examples.echo_calculator
           Examples.sample_host "chain.csv").
  vm_compute. reflexivity.
Defined.

End MoreReport.

(** ** Quote fetching in batches *)

Section MoreFetch.
Import Kite.

Lemma chunks_concat {A} (n : nat) (l : list A) (m : nat) :
  concat ((λ k, take n (drop (k * n) l)) <$> seq 0 m) = take (m * n) l.
Proof.
  induction m as [|m IH]; [done|].
  rewrite seq_S, fmap_app, concat_app, IH. simpl.
  rewrite app_nil_r, take_take_drop. f_equal. lia.
Qed.

Lemma chunk_count_bounds (len n : nat) :
  (0 < n)%nat →
  let m := ((len - 0 + n - 1) `div` n)%nat in
  (len ≤ m * n)%nat ∧ (∀ k, k < m → k * n < len)%nat
  ∧ m = ((len + (n - 1)) `div` n)%nat.
Proof.
  intros Hn m. subst m.
  replace (len - 0 + n - 1)%nat with (len + (n - 1))%nat by lia.
  pose proof (Nat.div_mod_eq (len + (n - 1)) n) as Hdm.
  pose proof (Nat.mod_upper_bound (len + (n - 1)) n) as Hmod.
  set (q := ((len + (n - 1)) `div` n)%nat) in *.
  set (r := ((len + (n - 1)) `mod` n)%nat) in *.
  split; [nia|]. split; [|done]. intros k Hk. nia.
Qed.

Lemma batches_unfold {A} (keys : list A) (n : nat) :
  (λ i, py_slice keys i (i + n)) <$> py_range_step 0 (length keys) n
  = (λ k, take n (drop (k * n) keys))
      <$> seq 0 ((length keys - 0 + n - 1) `div` n)%nat.
Proof.
  unfold py_range_step. rewrite <- list_fmap_compose.
  apply list_fmap_ext. intros _ k _. simpl. unfold py_slice.
  f_equal. lia.
Qed.

Lemma for_each_fmap {A B S} (body : B → S → outcome S) (f : A → B) xs s :
  for_each body (f <$> xs) s = for_each (λ x, body (f x)) xs s.
Proof.
  revert s. induction xs as [|x xs IH]; intros s; simpl; [done|].
  destruct (body (f x) s); simpl; [apply IH|done].
Qed.

(** The requests of [fetch_market_data]: the keys are handed to
    [kite.quote] in consecutive batches that together are the list of keys,
    each with at least one and at most 500 keys; there are
    [ceil(len / 500)] of them (none for no instrument). *)
Theorem fetch_market_data_batches (kite : KiteConnect)
    (instruments : list instrument) :
  fetch_market_data instruments
  = for_each (λ batch all_quotes,
                try_except_Exception
                  (quotes ← kite_quote batch; Ok (quotes ∪ all_quotes))
                  (λ e, Ok all_quotes))
             (quote_batches instruments) ∅
  ∧ concat (quote_batches instruments) = instrument_keys instruments
  ∧ Forall (λ batch, 0 < length batch ≤ 500)%nat (quote_batches instruments)
  ∧ length (quote_batches instruments)
    = ((length instruments + 499) `div` 500)%nat.
Proof.
  split; [unfold fetch_market_data, quote_batches; by rewrite for_each_fmap|].
  unfold quote_batches. rewrite batches_unfold.
  set (keys := instrument_keys instruments).
  destruct (chunk_count_bounds (length keys) batch_size) as (Hle & Hlt & Hm);
    [unfold batch_size; lia|].
  set (m := ((length keys - 0 + batch_size - 1) `div` batch_size)%nat) in *.
  split; [|split].
  - rewrite chunks_concat. by apply take_ge.
  - apply Forall_fmap, Forall_forall. intros k Hk%elem_of_seq. simpl.
    rewrite length_take, length_drop. specialize (Hlt k).
    unfold batch_size in *. lia.
  - rewrite length_fmap, length_seq, Hm. subst keys.
    unfold instrument_keys. rewrite length_fmap. done.
Qed.

Section Resilience.
Context {kite : KiteConnect}.
Hypothesis quote_raises_Exception :
  ∀ batch e, kite_quote batch = Raise e → isinstance_Exception e = true.

Lemma fetch_loop batches acc :
  ∃ all,
    for_each (λ batch all_quotes,
                try_except_Exception
                  (quotes ← kite_quote batch; Ok (quotes ∪ all_quotes))
                  (λ e, Ok all_quotes))
             batches acc = Ok all
    ∧ (∀ k, is_Some (acc !! k) → is_Some (all !! k))
    ∧ (∀ batch (q : gmap string quote) k,
         batch ∈ batches → kite_quote batch = Ok q →
         is_Some (q !! k) → is_Some (all !! k))
    ∧ (∀ k v, all !! k = Some v →
         acc !! k = Some v
         ∨ ∃ batch q, batch ∈ batches ∧ kite_quote batch = Ok q
                      ∧ q !! k = Some v).
Proof.
  revert acc. induction batches as [|b batches IH]; intros acc; simpl.
  - exists acc. split; [done|]. split; [done|]. split; [|by left].
    by intros ? ? ? ?%elem_of_nil.
  - destruct (kite_quote b) as [q|e] eqn:Hb; simpl.
    + destruct (IH (q ∪ acc)) as (all & -> & Hacc & Hok & Hfrom).
      exists all. split; [done|]. split; [|split].
      * intros k Hk. apply Hacc, lookup_union_is_Some. by right.
      * intros b' q' k [->|Hin]%elem_of_cons Hq' Hk.
        -- assert (q' = q) as -> by congruence.
           apply Hacc, lookup_union_is_Some. by left.
        -- by eapply Hok.
      * intros k v Hv. destruct (Hfrom k v Hv) as [Hu|(b' & q' & ? & ? & ?)].
        -- apply lookup_union_Some_raw in Hu as [Hq|[_ Ha]]; [|by left].
           right. exists b, q. split; [left|done].
        -- right. exists b', q'. split; [by right|done].
    + rewrite (quote_raises_Exception b e Hb). simpl.
      destruct (IH acc) as (all & -> & Hacc & Hok & Hfrom).
      exists all. split; [done|]. split; [done|]. split.
      * intros b' q' k [->|Hin]%elem_of_cons Hq' Hk; [congruence|].
        by eapply Hok.
      * intros k v Hv. destruct (Hfrom k v Hv) as [?|(b' & q' & ? & ? & ?)];
          [by left|]. right. exists b', q'. split; [by right|done].
Qed.

End Resilience.

(** A batch that fails costs only its own quotes.  If [kite.quote] only
    raises [Exception]s, [fetch_market_data] returns; every key answered
    for a batch that succeeded is in the result; every quote of the result
    is the answer of some batch for its key; and when every batch fails the
    result is empty. *)
Theorem fetch_market_data_resilient (kite : KiteConnect)
    (instruments : list instrument) :
  (∀ batch e, kite_quote batch = Raise e → isinstance_Exception e = true) →
  ∃ all,
    fetch_market_data instruments = Ok all
    ∧ (∀ batch (q : gmap string quote) k,
         batch ∈ quote_batches instruments → kite_quote batch = Ok q →
         is_Some (q !! k) → is_Some (all !! k))
    ∧ (∀ k v, all !! k = Some v →
         ∃ batch q, batch ∈ quote_batches instruments
                    ∧ kite_quote batch = Ok q ∧ q !! k = Some v)
    ∧ ((∀ batch, batch ∈ quote_batches instruments →
          raises (kite_quote batch) = true) → all = ∅).
Proof.
  intros Hexc.
  destruct (fetch_loop Hexc (quote_batches instruments) ∅)
    as (all & Hall & _ & Hok & Hfrom).
  exists all. split.
  { unfold fetch_market_data. rewrite <- Hall. unfold quote_batches.
    by rewrite for_each_fmap. }
  split; [done|]. split.
  - intros k v Hv. destruct (Hfrom k v Hv) as [Hempty|?]; [|done].
    by rewrite lookup_empty in Hempty.
  - intros Hfail. apply map_eq. intros k. rewrite lookup_empty.
    destruct (all !! k) as [v|] eqn:Hv; [|done].
    destruct (Hfrom k v Hv) as [Hempty|(b & q & Hb & Hq & _)].
    + by rewrite lookup_empty in Hempty.
    + specialize (Hfail b Hb). by rewrite Hq in Hfail.
Qed.

Lemma fetch_market_data_resilient_witness :
  (∀ batch e, @kite_quote MoreExamples.offline_kite batch = Raise e →
              isinstance_Exception e = true)
  ∧ ∃ all,
      fetch_market_data (kite := MoreExamples.offline_kite)
        [Examples.nifty_19500_ce; Examples.nifty_19500_pe] = Ok all
      ∧ (∀ batch (q : gmap string quote) k,
           batch ∈ quote_batches
                     [Examples.nifty_19500_ce; Examples.nifty_19500_pe] →
           @kite_quote MoreExamples.offline_kite batch = Ok q →
           is_Some (q !! k) → is_Some (all !! k))
      ∧ (∀ k v, all !! k = Some v →
           ∃ batch q, batch ∈ quote_batches
                                [Examples.nifty_19500_ce;
                                 Examples.nifty_19500_pe]
                      ∧ @kite_quote MoreExamples.offline_kite batch = Ok q
                      ∧ q !! k = Some v)
      ∧ ((∀ batch, batch ∈ quote_batches
                             [Examples.nifty_19500_ce;
                              Examples.nifty_19500_pe] →
            raises (@kite_quote MoreExamples.offline_kite batch) = true) →
         all = ∅).
Proof.
  assert (H : ∀ batch e, @kite_quote MoreExamples.offline_kite batch = Raise e
                         → isinstance_Exception e = true)
    by (intros batch e [= <-]; reflexivity).
  split; [exact H|].
  exact (fetch_market_data_resilient MoreExamples.offline_kite
           [Examples.nifty_19500_ce; Examples.nifty_19500_pe] H).
Defined.

(** With 1201 instruments there are three requests, of 500, 500 and 201
    keys. *)
Example quote_batches_1201 :
  length <$> quote_batches (replicate 1201 Examples.nifty_19500_ce)
  = [500; 500; 201]%nat.
Proof. vm_compute. reflexivity. Qed.

End MoreFetch.

(** ** Instruments, futures price, spot price *)

Section MoreKite.
Import Kite.

(** What [fetch_nifty_options] returns: either the instruments are there
    (cached, or just fetched and then cached) and the result is, in their
    order, exactly those named NIFTY of type CE or PE; or the API failed
    with an [Exception], and the result is the empty list with the cache
    still empty. *)
Theorem fetch_nifty_options_spec (kite : KiteConnect)
    (cache cache' : option (list instrument)) (options : list instrument) :
  fetch_nifty_options cache = Ok (options, cache') →
  (∃ all, load_nfo_instruments cache = Ok all
          ∧ cache' = Some all
          ∧ options `sublist_of` all
          ∧ ∀ inst, inst ∈ options ↔
              inst ∈ all ∧ name inst = "NIFTY"%string
              ∧ (instrument_type inst = "CE"%string
                 ∨ instrument_type inst = "PE"%string))
  ∨ (∃ e, cache = None ∧ kite_instruments "NFO" = Raise e
          ∧ isinstance_Exception e = true
          ∧ options = [] ∧ cache' = None).
Proof.
  unfold fetch_nifty_options.
  destruct (load_nfo_instruments cache) as [all|e] eqn:Hload; simpl.
  - intros [= <- <-]. left. exists all. split; [done|]. split; [done|].
    split; [apply sublist_filter|].
    intros inst. rewrite list_elem_of_filter, !elem_of_cons, elem_of_nil.
    tauto.
  - destruct (isinstance_Exception e) eqn:He; [|done].
    intros [= <- <-]. right. exists e.
    destruct cache as [all|]; [done|]. simpl in Hload. done.
Qed.

Lemma fetch_nifty_options_spec_witness :
  fetch_nifty_options (kite := MoreExamples.sample_kite) None
  = Ok ([Examples.nifty_19500_ce; Examples.nifty_19500_pe],
        Some [MoreExamples.nifty_nov_fut; Examples.nifty_19500_ce;
              MoreExamples.banknifty_ce; Examples.nifty_19500_pe])
  ∧ ((∃ all, load_nfo_instruments (kite := MoreExamples.sample_kite) None
             = Ok all
             ∧ Some [MoreExamples.nifty_nov_fut; Examples.nifty_19500_ce;
                     MoreExamples.banknifty_ce; Examples.nifty_19500_pe]
               = Some all
             ∧ [Examples.nifty_19500_ce; Examples.nifty_19500_pe]
               `sublist_of` all
             ∧ ∀ inst, inst ∈ [Examples.nifty_19500_ce;
                               Examples.nifty_19500_pe] ↔
                 inst ∈ all ∧ name inst = "NIFTY"%string
                 ∧ (instrument_type inst = "CE"%string
                    ∨ instrument_type inst = "PE"%string))
     ∨ (∃ e, (None : option (list instrument)) = None
             ∧ @kite_instruments MoreExamples.sample_kite "NFO" = Raise e
             ∧ isinstance_Exception e = true
             ∧ [Examples.nifty_19500_ce; Examples.nifty_19500_pe] = []
             ∧ Some [MoreExamples.nifty_nov_fut; Examples.nifty_19500_ce;
                     MoreExamples.banknifty_ce; Examples.nifty_19500_pe]
               = None)).
Proof.
  split; [reflexivity|].
  apply (fetch_nifty_options_spec MoreExamples.sample_kite None).
  reflexivity.
Defined.

(** The instruments are fetched once.  After a call of
    [fetch_nifty_options] that left them in the cache, neither
    [fetch_nifty_options] nor [get_nifty_futures_price] asks
    [kite.instruments] again: with a client that quotes alike but whose
    [instruments] call may answer anything, the options are the same, the
    futures price is the same, and the cache is kept. *)
Theorem nfo_instruments_fetched_once (kite1 kite2 : KiteConnect)
    (cache : option (list instrument)) (options all : list instrument)
    (expiry_date : pydate) :
  fetch_nifty_options (kite := kite1) cache = Ok (options, Some all) →
  (∀ keys, @kite_quote kite2 keys = @kite_quote kite1 keys) →
  fetch_nifty_options (kite := kite2) (Some all) = Ok (options, Some all)
  ∧ get_nifty_futures_price (kite := kite2) expiry_date (Some all)
    = get_nifty_futures_price (kite := kite1) expiry_date (Some all)
  ∧ ∀ r, get_nifty_futures_price (kite := kite2) expiry_date (Some all)
         = Ok r → r.2 = Some all.
Proof.
  intros Hfetch Hquote. split; [|split].
  - revert Hfetch. unfold fetch_nifty_options.
    destruct (load_nfo_instruments (kite := kite1) cache) as [all'|e]
      eqn:Hload; simpl.
    + by intros [= <- <-].
    + destruct (isinstance_Exception e); [|done]. intros [= <- Hc].
      subst cache. done.
  - unfold get_nifty_futures_price, futures_last_price.
    destruct (filter _ all) as [|fut futs]; [done|]. by rewrite Hquote.
  - intros r. unfold get_nifty_futures_price.
    destruct (try_except_Exception _ _) as [ltp|]; simpl; [|done].
    by intros [= <-].
Qed.

Lemma nfo_instruments_fetched_once_witness :
  fetch_nifty_options (kite := MoreExamples.sample_kite) None
  = Ok ([Examples.nifty_19500_ce; Examples.nifty_19500_pe],
        Some [MoreExamples.nifty_nov_fut; Examples.nifty_19500_ce;
              MoreExamples.banknifty_ce; Examples.nifty_19500_pe])
  ∧ (∀ keys, @kite_quote MoreExamples.sample_kite keys
             = @kite_quote MoreExamples.sample_kite keys)
  ∧ fetch_nifty_options (kite := MoreExamples.sample_kite)
      (Some [MoreExamples.nifty_nov_fut; Examples.nifty_19500_ce;
             MoreExamples.banknifty_ce; Examples.nifty_19500_pe])
    = Ok ([Examples.nifty_19500_ce; Examples.nifty_19500_pe],
          Some [MoreExamples.nifty_nov_fut; Examples.nifty_19500_ce;
                MoreExamples.banknifty_ce; Examples.nifty_19500_pe])
  ∧ get_nifty_futures_price (kite := MoreExamples.sample_kite)
      Examples.expiry_27_nov
      (Some [MoreExamples.nifty_nov_fut; Examples.nifty_19500_ce;
             MoreExamples.banknifty_ce; Examples.nifty_19500_pe])
    = get_nifty_futures_price (kite := MoreExamples.sample_kite)
        Examples.expiry_27_nov
        (Some [MoreExamples.nifty_nov_fut; Examples.nifty_19500_ce;
               MoreExamples.banknifty_ce; Examples.nifty_19500_pe])
  ∧ ∀ r, get_nifty_futures_price (kite := MoreExamples.sample_kite)
           Examples.expiry_27_nov
           (Some [MoreExamples.nifty_nov_fut; Examples.nifty_19500_ce;
                  MoreExamples.banknifty_ce; Examples.nifty_19500_pe])
         = Ok r →
         r.2 = Some [MoreExamples.nifty_nov_fut; Examples.nifty_19500_ce;
                     MoreExamples.banknifty_ce; Examples.nifty_19500_pe].
Proof.
  split; [reflexivity|]. split; [reflexivity|].
  apply (nfo_instruments_fetched_once MoreExamples.sample_kite
           MoreExamples.sample_kite None).
  - reflexivity.
  - reflexivity.
Defined.

(** The futures price.  A price that is returned is the [last_price] that
    [kite.quote] gives for the first instrument named NIFTY, of type FUT
    and of the expiry asked for; without such an instrument the result is
    [None] and no quote is asked for; and if the API only raises
    [Exception]s the method does not raise. *)
Theorem get_nifty_futures_price_spec (kite : KiteConnect)
    (expiry_date : pydate) (cache : option (list instrument)) :
  (∀ ltp cache',
     get_nifty_futures_price expiry_date cache = Ok (Some ltp, cache') →
     ∃ all fut q entry,
       load_nfo_instruments cache = Ok all ∧ cache' = Some all
       ∧ head (filter (λ inst, name inst = "NIFTY"%string
                               ∧ instrument_type inst = "FUT"%string
                               ∧ py_eq (expiry inst) expiry_date = true) all)
         = Some fut
       ∧ kite_quote ["NFO:" +:+ tradingsymbol fut]%string = Ok q
       ∧ q !! ("NFO:" +:+ tradingsymbol fut)%string = Some entry
       ∧ last_price entry = Some ltp)
  ∧ (∀ all,
       cache = Some all →
       filter (λ inst, name inst = "NIFTY"%string
                       ∧ instrument_type inst = "FUT"%string
                       ∧ py_eq (expiry inst) expiry_date = true) all = [] →
       get_nifty_futures_price expiry_date cache = Ok (None, cache))
  ∧ ((∀ keys e, kite_quote keys = Raise e → isinstance_Exception e = true) →
     (∀ x e, kite_instruments x = Raise e → isinstance_Exception e = true) →
     returns (get_nifty_futures_price expiry_date cache)).
Proof.
  assert (Hprice : ∀ all ltp,
    try_except_Exception (futures_last_price all expiry_date)
      (λ e, Ok None) = Ok (Some ltp) →
    ∃ fut q entry,
      head (filter (λ inst, name inst = "NIFTY"%string
                            ∧ instrument_type inst = "FUT"%string
                            ∧ py_eq (expiry inst) expiry_date = true) all)
      = Some fut
      ∧ kite_quote ["NFO:" +:+ tradingsymbol fut]%string = Ok q
      ∧ q !! ("NFO:" +:+ tradingsymbol fut)%string = Some entry
      ∧ last_price entry = Some ltp).
  { intros all ltp. unfold futures_last_price.
    destruct (filter _ all) as [|fut futs]; [done|].
    destruct (kite_quote _) as [q|e] eqn:Hq; simpl;
      [|by destruct (isinstance_Exception e)].
    destruct (q !! _) as [entry|] eqn:He; simpl; [|done].
    destruct (last_price entry) as [p|] eqn:Hp; simpl; [|done].
    intros [= <-]. by exists fut, q, entry. }
  assert (Hreturns :
    (∀ keys e, kite_quote keys = Raise e → isinstance_Exception e = true) →
    ∀ all, returns (try_except_Exception
                      (futures_last_price all expiry_date) (λ e, Ok None))).
  { intros Hexc all. unfold futures_last_price.
    destruct (filter _ all) as [|fut futs]; [by eexists|].
    destruct (kite_quote _) as [q|e] eqn:Hq; simpl.
    - destruct (q !! _) as [entry|]; simpl; [|by eexists].
      destruct (last_price entry); simpl; by eexists.
    - rewrite (Hexc _ _ Hq). by eexists. }
  split; [|split].
  - intros ltp cache'. unfold get_nifty_futures_price.
    destruct cache as [all|]; simpl.
    + destruct (try_except_Exception _ _) as [r|] eqn:Hr; simpl; [|done].
      intros [= -> <-]. destruct (Hprice all ltp Hr) as (fut & q & entry & ?).
      by exists all, fut, q, entry.
    + destruct (kite_instruments "NFO") as [all|e]; simpl.
      * destruct (try_except_Exception _ _) as [r|] eqn:Hr; simpl; [|done].
        intros [= -> <-].
        destruct (Hprice all ltp Hr) as (fut & q & entry & ?).
        by exists all, fut, q, entry.
      * by destruct (isinstance_Exception e).
  - intros all -> Hnone. unfold get_nifty_futures_price, futures_last_price.
    by rewrite Hnone.
  - intros Hq Hi. unfold get_nifty_futures_price.
    destruct cache as [all|].
    + destruct (Hreturns Hq all) as [r ->]. by eexists.
    + destruct (kite_instruments "NFO") as [all|e] eqn:Hload.
      * destruct (Hreturns Hq all) as [r ->]. by eexists.
      * rewrite (Hi _ _ Hload). by eexists.
Qed.

Example get_nifty_futures_price_sample :
  get_nifty_futures_price (kite := MoreExamples.sample_kite)
    Examples.expiry_27_nov None
  = Ok (Some 19600%Q,
        Some [MoreExamples.nifty_nov_fut; Examples.nifty_19500_ce;
              MoreExamples.banknifty_ce; Examples.nifty_19500_pe]).
Proof. vm_compute. reflexivity. Qed.

(** The spot price never raises, whatever the API raises (both [try]
    blocks end in a bare [except]); it is the price quoted for
    "NSE:NIFTY 50" when there is one, and otherwise the one quoted for
    "NSE:NIFTY50", if any. *)
Theorem get_nifty_spot_price_spec (kite : KiteConnect) :
  ∃ r, get_nifty_spot_price = Ok r
       ∧ (∀ ltp, index_last_price "NSE:NIFTY 50" = Ok (Some ltp) →
                 r = Some ltp)
       ∧ ((∀ ltp, index_last_price "NSE:NIFTY 50" ≠ Ok (Some ltp)) →
          (∀ ltp, index_last_price "NSE:NIFTY50" = Ok (Some ltp) →
                  r = Some ltp)
          ∧ ((∀ ltp, index_last_price "NSE:NIFTY50" ≠ Ok (Some ltp)) →
             r = None)).
Proof.
  unfold get_nifty_spot_price.
  destruct (index_last_price "NSE:NIFTY 50") as [[p1|]|e1]; simpl.
  - exists (Some p1). split; [done|]. split; [by intros ? [= <-]|].
    intros H. by destruct (H p1).
  - destruct (index_last_price "NSE:NIFTY50") as [[p2|]|e2]; simpl.
    + exists (Some p2). split; [done|]. split; [done|]. intros _.
      split; [by intros ? [= <-]|]. intros H. by destruct (H p2).
    + exists None. split; [done|]. split; [done|]. intros _. by split.
    + exists None. split; [done|]. split; [done|]. intros _. by split.
  - destruct (index_last_price "NSE:NIFTY50") as [[p2|]|e2]; simpl.
    + exists (Some p2). split; [done|]. split; [done|]. intros _.
      split; [by intros ? [= <-]|]. intros H. by destruct (H p2).
    + exists None. split; [done|]. split; [done|]. intros _. by split.
    + exists None. split; [done|]. split; [done|]. intros _. by split.
Qed.

End MoreKite.

(** ** [authenticate] *)

Section MoreAuthenticate.
Import Kite.

Lemma authenticate_cases {kite : KiteConnect} {host : LoginHost}
    (s s' : session) (ok : bool) :
  authenticate s = Ok (ok, s') →
  (∃ d, file s = Saved d ∧ saved_date d = Some today_str
        ∧ ok = true ∧ s' = Session (saved_access_token d) (file s))
  ∨ (saved_token_of_today (file s) = None
     ∧ ((ok = false ∧ file s' = file s)
        ∨ (∃ request_token token,
             pasted_request_token = Some request_token
             ∧ request_token ≠ ""%string
             ∧ kite_generate_session request_token = Ok (Some token)
             ∧ ((token_file_write = Written ∧ ok = true
                 ∧ s' = Session (Some token)
                          (Saved (TokenData (Some token) (Some today_str))))
                ∨ (token_file_write = Truncated ∧ ok = false
                   ∧ s' = Session (Some token) Unreadable))))).
Proof.
  unfold authenticate.
  destruct (saved_token_of_today (file s)) as [token|] eqn:Hsaved.
  - intros [= <- <-]. left. unfold saved_token_of_today in Hsaved.
    destruct (file s) as [| |d]; [done..|].
    case_bool_decide as Hd; [|done]. injection Hsaved as <-.
    by exists d.
  - intros Hlogin. right. split; [done|]. revert Hlogin. unfold login.
    destruct pasted_request_token as [rt|] eqn:Hrt;
      [|intros [= <- <-]; by left].
    case_bool_decide as Hempty; [intros [= <- <-]; by left|].
    destruct (kite_generate_session rt) as [[token|]|e] eqn:Hgen.
    + destruct token_file_write eqn:Hw; intros [= <- <-]; [|by left|].
      * right. exists rt, token. repeat split; try done. by left.
      * right. exists rt, token. repeat split; try done. by right.
    + intros [= <- <-]. by left.
    + destruct (isinstance_Exception e); [|done]. intros [= <- <-]. by left.
Qed.

(** Round trip through the token file: after an authentication that
    succeeded, authenticating again on the same day succeeds with the same
    token and leaves everything as it is, without any login: whatever the
    user would paste, and whatever the API would answer. *)
Theorem authenticate_again (kite1 kite2 : KiteConnect)
    (host1 host2 : LoginHost) (s s' : session) :
  authenticate (kite := kite1) (host := host1) s = Ok (true, s') →
  @today_str host2 = @today_str host1 →
  authenticate (kite := kite2) (host := host2) s' = Ok (true, s').
Proof.
  intros Hauth Hday.
  apply authenticate_cases in Hauth
    as [(d & Hfile & Hdate & _ & ->)
       |(_ & [[? _]|(rt & token & _ & _ & _
                     & [(_ & _ & ->)|(_ & ? & _)])])]; [| done | | done].
  - unfold authenticate. simpl. rewrite Hfile. simpl.
    by rewrite bool_decide_eq_true_2 by (by rewrite Hday).
  - unfold authenticate. simpl.
    by rewrite bool_decide_eq_true_2 by (by rewrite Hday).
Qed.

Lemma authenticate_again_witness :
  authenticate (kite := MoreExamples.sample_kite)
    (host := MoreExamples.sample_login) MoreExamples.stale_session
  = Ok (true,
        Session (Some "token-of-today"%string)
          (Saved (TokenData (Some "token-of-today"%string)
                    (Some "2025-11-04"%string))))
  ∧ @today_str MoreExamples.sample_login = @today_str MoreExamples.sample_login
  ∧ authenticate (kite := MoreExamples.offline_kite)
      (host := MoreExamples.sample_login)
      (Session (Some "token-of-today"%string)
         (Saved (TokenData (Some "token-of-today"%string)
                   (Some "2025-11-04"%string))))
    = Ok (true,
          Session (Some "token-of-today"%string)
            (Saved (TokenData (Some "token-of-today"%string)
                      (Some "2025-11-04"%string)))).
Proof.
  split; [reflexivity|]. split; [reflexivity|].
  apply (authenticate_again MoreExamples.sample_kite
           MoreExamples.offline_kite MoreExamples.sample_login
           MoreExamples.sample_login MoreExamples.stale_session).
  - reflexivity.
  - reflexivity.
Defined.

(** What [authenticate] does to the token.  A failed authentication leaves
    the token file as it was, with one exception: when the login succeeded
    and the token file was opened for writing but not written, the file is
    left truncated, so that no later call can use it.  A token file that is
    not of today is never used: if the authentication succeeds then, the
    token is the one [kite.generate_session] returned for the pasted request
    token, and the file now holds that token under today's date.  A token
    file of today is used as it is, with whatever token it holds. *)
Theorem authenticate_token (kite : KiteConnect) (host : LoginHost)
    (s s' : session) (ok : bool) :
  authenticate s = Ok (ok, s') →
  (ok = false →
     (token_file_write ≠ Truncated → file s' = file s)
     ∧ (file s' = file s
        ∨ (file s' = Unreadable
           ∧ saved_token_of_today (file s') = None
           ∧ ∃ request_token token,
               pasted_request_token = Some request_token
               ∧ kite_generate_session request_token = Ok (Some token)
               ∧ access_token s' = Some token)))
  ∧ (ok = true → saved_token_of_today (file s) = None →
     ∃ request_token token,
       pasted_request_token = Some request_token
       ∧ kite_generate_session request_token = Ok (Some token)
       ∧ access_token s' = Some token
       ∧ file s' = Saved (TokenData (Some token) (Some today_str)))
  ∧ (∀ d, file s = Saved d → saved_date d = Some today_str →
          ok = true ∧ access_token s' = saved_access_token d
          ∧ file s' = file s).
Proof.
  intros Hauth.
  apply authenticate_cases in Hauth
    as [(d & Hfile & Hdate & -> & ->)
       |(Hnone & [[-> Hf]|(rt & token & Hrt & _ & Hgen
                           & [(_ & -> & ->)|(Hw & -> & ->)])])].
  - split; [done|]. split.
    + intros _ Hn. unfold saved_token_of_today in Hn. rewrite Hfile in Hn.
      by rewrite bool_decide_eq_true_2 in Hn.
    + intros d' Hd' _. assert (d' = d) as -> by congruence. done.
  - split; [intros _; split; [done|by left]|]. split; [done|].
    intros d Hd Hdate. unfold saved_token_of_today in Hnone.
    rewrite Hd in Hnone. by rewrite bool_decide_eq_true_2 in Hnone.
  - split; [done|]. split.
    + intros _ _. by exists rt, token.
    + intros d Hd Hdate. unfold saved_token_of_today in Hnone.
      rewrite Hd in Hnone. by rewrite bool_decide_eq_true_2 in Hnone.
  - split; [|split; [done|]].
    + intros _. split; [done|]. right. simpl.
      split; [done|]. split; [done|]. by exists rt, token.
    + intros d Hd Hdate. unfold saved_token_of_today in Hnone.
      rewrite Hd in Hnone. by rewrite bool_decide_eq_true_2 in Hnone.
Qed.

Lemma authenticate_token_witness :
  authenticate (kite := MoreExamples.sample_kite)
    (host := MoreExamples.sample_login) MoreExamples.stale_session
  = Ok (true, MoreExamples.fresh_session)
  ∧ (true = false →
       (@token_file_write MoreExamples.sample_login ≠ Truncated →
        file MoreExamples.fresh_session = file MoreExamples.stale_session)
       ∧ (file MoreExamples.fresh_session = file MoreExamples.stale_session
          ∨ (file MoreExamples.fresh_session = Unreadable
             ∧ saved_token_of_today (host := MoreExamples.sample_login)
                 (file MoreExamples.fresh_session) = None
             ∧ ∃ request_token token,
                 @pasted_request_token MoreExamples.sample_login
                 = Some request_token
                 ∧ @kite_generate_session MoreExamples.sample_kite
                     request_token = Ok (Some token)
                 ∧ access_token MoreExamples.fresh_session = Some token)))
  ∧ (true = true →
     saved_token_of_today (host := MoreExamples.sample_login)
       (file MoreExamples.stale_session) = None →
     ∃ request_token token,
       @pasted_request_token MoreExamples.sample_login = Some request_token
       ∧ @kite_generate_session MoreExamples.sample_kite request_token
         = Ok (Some token)
       ∧ access_token MoreExamples.fresh_session = Some token
       ∧ file MoreExamples.fresh_session
         = Saved (TokenData (Some token)
                    (Some (@today_str MoreExamples.sample_login))))
  ∧ (∀ d, file MoreExamples.stale_session = Saved d →
          saved_date d = Some (@today_str MoreExamples.sample_login) →
          true = true
          ∧ access_token MoreExamples.fresh_session = saved_access_token d
          ∧ file MoreExamples.fresh_session
            = file MoreExamples.stale_session).
Proof.
  split; [reflexivity|].
  apply (authenticate_token MoreExamples.sample_kite
           MoreExamples.sample_login MoreExamples.stale_session
           MoreExamples.fresh_session true).
  reflexivity.
Defined.

(** A login that succeeds while the token file, once opened, cannot be
    written: the authentication fails and the token of the day before is
    lost with the file. *)
Example authenticate_truncates :
  authenticate (kite := MoreExamples.sample_kite)
    (host := MoreExamples.full_disk_login) MoreExamples.stale_session
  = Ok (false, Session (Some "token-of-today"%string) Unreadable).
Proof. reflexivity. Qed.

End MoreAuthenticate.

(** ** When the quotes cannot be fetched *)

Section Offline.
Import Chains Kite.

Lemma fetch_loop_all_fail {kite : KiteConnect} batches acc :
  (∀ batch, batch ∈ batches →
     ∃ e, kite_quote batch = Raise e ∧ isinstance_Exception e = true) →
  for_each (λ batch all_quotes,
              try_except_Exception
                (quotes ← kite_quote batch; Ok (quotes ∪ all_quotes))
                (λ e, Ok all_quotes))
           batches acc = Ok acc.
Proof.
  induction batches as [|b batches IH]; intros Hfail; simpl; [done|].
  destruct (Hfail b) as (e & -> & He); [left|]. simpl. rewrite He. simpl.
  apply IH. intros b' Hb'. apply Hfail. by right.
Qed.

Lemma option_side_no_market_data {gc : GreeksCalculator} option_type inst
    spot_price strike_price t c :
  option_side option_type inst ∅ spot_price strike_price t = Ok c →
  no_market_data c.
Proof.
  destruct inst as [i|]; simpl.
  - rewrite lookup_empty. simpl.
    destruct (calculate_all_greeks _ _ _ _ _ _) as [g|]; simpl; [|done].
    intros [= <-]. by repeat split.
  - intros [= <-]. by repeat split.
Qed.

(** If every request for quotes fails with an [Exception],
    [fetch_market_data] still returns, with no quote at all, and the chain
    built from it has a row for every strike in which no column holds
    market data: prices, volumes, open interest and [IV] are all 0, on the
    call side and on the put side. *)
Theorem chain_without_market_data (kite : KiteConnect) (gc : GreeksCalculator)
    (options : list instrument) (strikes : list Q) (spot_price : Q)
    (expiry_date : pydate) (futures_price : option Q) (timestamp : string) :
  (∀ batch, batch ∈ quote_batches options →
     ∃ e, kite_quote batch = Raise e ∧ isinstance_Exception e = true) →
  fetch_market_data options = Ok ∅
  ∧ ∀ rows,
      build_options_chain options ∅ strikes spot_price expiry_date
        futures_price timestamp = Ok rows →
      length rows = length strikes
      ∧ ∀ r, r ∈ rows → no_market_data (CE r) ∧ no_market_data (PE r).
Proof.
  intros Hfail. split.
  - unfold fetch_market_data.
    rewrite <- (fetch_loop_all_fail (quote_batches options) ∅ Hfail).
    unfold quote_batches. by rewrite for_each_fmap.
  - intros rows Hb.
    apply build_options_chain_Ok in Hb as (t & Ht & Hlen & Hrows).
    split; [done|]. intros r Hr.
    apply list_elem_of_lookup in Hr as [n Hn].
    destruct (strikes !! n) as [k|] eqn:Hk.
    + destruct (Hrows n k Hk) as (r' & Hn' & Hr').
      assert (r' = r) as -> by congruence.
      apply build_row_Ok in Hr' as (_ & Hce & Hpe).
      split; by eapply option_side_no_market_data.
    + apply lookup_ge_None in Hk. apply lookup_lt_Some in Hn. lia.
Qed.

Lemma chain_without_market_data_witness :
  (∀ batch,
     batch ∈ quote_batches [Examples.nifty_19500_ce; Examples.nifty_19500_pe] →
     ∃ e, @kite_quote MoreExamples.offline_kite batch = Raise e
          ∧ isinstance_Exception e = true)
  ∧ fetch_market_data (kite := MoreExamples.offline_kite)
      [Examples.nifty_19500_ce; Examples.nifty_19500_pe] = Ok ∅
  ∧ ∀ rows,
      build_options_chain (gc := Examples.echo_calculator)
        [Examples.nifty_19500_ce; Examples.nifty_19500_pe] ∅
        [19450; 19500]%Q 19512%Q Examples.expiry_27_nov None
        "2025-11-27 15:30:00" = Ok rows →
      length rows = length [19450; 19500]%Q
      ∧ ∀ r, r ∈ rows → no_market_data (CE r) ∧ no_market_data (PE r).
Proof.
  assert (H : ∀ batch,
     batch ∈ quote_batches [Examples.nifty_19500_ce; Examples.nifty_19500_pe] →
     ∃ e, @kite_quote MoreExamples.offline_kite batch = Raise e
          ∧ isinstance_Exception e = true).
  { intros batch _. eexists. split; reflexivity. }
  split; [exact H|].
  exact (chain_without_market_data MoreExamples.offline_kite
           Examples.echo_calculator
           [Examples.nifty_19500_ce; Examples.nifty_19500_pe]
           [19450; 19500]%Q 19512%Q Examples.expiry_27_nov None
           "2025-11-27 15:30:00" H).
Defined.

(** The month after the current one: for a month from 1 to 12 it is again
    a month from 1 to 12, and it is the next month of the calendar,
    January of the next year after December. *)
Theorem next_month_key_successor (today : date) :
  1 <= month today <= 12 →
  1 <= (next_month_key today).2 <= 12
  ∧ 12 * (next_month_key today).1 + (next_month_key today).2
    = 12 * year today + month today + 1
  ∧ next_month_key today ≠ current_month_key today.
Proof.
  intros Hm. unfold next_month_key, current_month_key. simpl.
  destruct (Z.ltb_spec (month today) 12) as [Hlt|Hge].
  - rewrite Z.mod_small by lia. split; [lia|]. split; [lia|].
    intros [=]; lia.
  - assert (month today = 12) as -> by lia.
    change (12 `mod` 12) with 0. split; [lia|]. split; [lia|].
    intros [=]; lia.
Qed.

Lemma next_month_key_successor_witness :
  1 <= month (Date 2025 12 30) <= 12
  ∧ 1 <= (next_month_key (Date 2025 12 30)).2 <= 12
  ∧ 12 * (next_month_key (Date 2025 12 30)).1
    + (next_month_key (Date 2025 12 30)).2
    = 12 * year (Date 2025 12 30) + month (Date 2025 12 30) + 1
  ∧ next_month_key (Date 2025 12 30) ≠ current_month_key (Date 2025 12 30).
Proof.
  split; [simpl; lia|].
  apply (next_month_key_successor (Date 2025 12 30)). simpl. lia.
Defined.

End Offline.
